(** * ajustador: fitness combination, selection, features and file helpers

    A shallow embedding of the parts of [ajustador] that the specification
    makes claims about:

    - [fitnesses.py]: [simple_combined_fitness] and the other combined
      fitnesses, [fit_sort], [find_best], [find_multi_best];
    - [features.py]: [_fit_falling_curve], [Rectification.rectification];
    - [basic_simulation.py]: [morph_morph_file];
    - [helpers/copy_param/process_common.py]: [get_file_name_with_version],
      [check_version_build_file_path];
    - [helpers/save_param/process_morph.py]: [update_morph_file_name].

    numpy is the one of release 1.13 and later, Python's [re] the one of
    Python 3.11.

    numpy's [float64] is Rocq's primitive binary64 [float]; Python's [str] is
    a list of characters, written as a string literal; a numpy array is a
    [list]; an exception is an [Error]. *)

From Stdlib Require Import Ascii String DecimalString.
From Stdlib Require Import List Bool Arith ZArith Lia Permutation Sorted.
From Stdlib Require Import Floats.
Import ListNotations.

Set Implicit Arguments.

(** ** Results of fallible code *)

(** The exceptions the modelled code can raise. *)
Inductive exn : Type :=
| IndexError      (* [m.group(1)] on a pattern without that group *)
| ValueError      (* numpy: empty [argmin], shapes that do not broadcast *)
| AxisError       (* numpy: [sum(axis=1)] of a one-dimensional array *)
| TypeError       (* calling what is not callable; [int(None)]; numpy:
                     [-mask] of a boolean array *)
| ReError.        (* [re.error]; a pattern outside the model *)

Inductive result (A : Type) : Type :=
| Ok (a : A)
| Error (e : exn).
Arguments Ok {A} a.
Arguments Error {A} e.

Definition bind {A B : Type} (r : result A) (f : A -> result B) : result B :=
  match r with
  | Ok a => f a
  | Error e => Error e
  end.

Notation "x <- r ;; k" := (bind r (fun x => k))
  (at level 61, r at next level, right associativity).

(** ** numpy on float64 *)

Module Np.

Open Scope float_scope.

(** [x ** 2]: numpy squares by multiplying. *)
Definition square (x : float) : float := x * x.

(** [np.isnan]. *)
Definition isnan (x : float) : bool := is_nan x.

(** [np.sum] of a one-dimensional array, summed from the left.  (numpy
    may group the additions differently; every sum evaluated below is exact,
    so the grouping does not show.) *)
Definition sum (a : list float) : float :=
  fold_left (fun acc x => acc + x) a 0.

(** [np.nansum]: not-a-number entries count as zero. *)
Definition nansum (a : list float) : float :=
  sum (map (fun x => if isnan x then 0 else x) a).

(** [a.size] of a one-dimensional array, as a float64 divisor. *)
Definition size (a : list float) : float :=
  of_uint63 (Uint63.of_Z (Z.of_nat (length a))).

(** [w[np.isnan(w)] = np.inf] *)
Definition nan_to_inf (w : list float) : list float :=
  map (fun x => if isnan x then infinity else x) w.

(** The loop of numpy's [argmin] on float64 after its first element: [mp]
    is the minimum so far, found at index [mi]; [i] is the index of the head
    of [a].  The test is [!(x >= mp)], and a not-a-number ends the scan. *)
Fixpoint argmin_loop (mp : float) (mi i : nat) (a : list float) : nat :=
  match a with
  | [] => mi
  | x :: a' =>
      if negb (mp <=? x)
      then if isnan x then i else argmin_loop x i (S i) a'
      else argmin_loop mp mi (S i) a'
  end.

(** [a.argmin()]: the index of the first minimum; [ValueError] on an empty
    array. *)
Definition argmin (a : list float) : result nat :=
  match a with
  | [] => Error ValueError
  | x :: a' => if isnan x then Ok 0%nat else Ok (argmin_loop x 0 1 a')
  end.

(** [np.minimum] and [np.maximum] as the reductions apply them: the
    accumulator stays when it compares [<=] (resp. [>=]) or is
    not-a-number. *)
Definition minimum (acc x : float) : float :=
  if (acc <=? x) || isnan acc then acc else x.

Definition maximum (acc x : float) : float :=
  if (x <=? acc) || isnan acc then acc else x.

(** [a.min()] and [a.max()]; [ValueError] on an empty array. *)
Definition amin (a : list float) : result float :=
  match a with
  | [] => Error ValueError
  | x :: a' => Ok (fold_left minimum a' x)
  end.

Definition amax (a : list float) : result float :=
  match a with
  | [] => Error ValueError
  | x :: a' => Ok (fold_left maximum a' x)
  end.

(** [a.ptp()]: peak to peak, [a.max() - a.min()]. *)
Definition ptp (a : list float) : result float :=
  hi <- amax a ;; lo <- amin a ;; Ok (hi - lo).

(** The order numpy sorts float64 by: [a < b], with not-a-number last. *)
Definition sort_lt (a b : float) : bool :=
  (a <? b) || (isnan b && negb (isnan a)).

(** Insertion of index [i] into a list of indices sorted by their keys,
    after the indices whose key is not greater. *)
Fixpoint insert_index (key : nat -> float) (i : nat) (l : list nat)
  : list nat :=
  match l with
  | [] => [i]
  | j :: l' =>
      if sort_lt (key i) (key j) then i :: j :: l'
      else j :: insert_index key i l'
  end.

(** [a.argsort()], as the stable insertion sort numpy runs on short arrays. *)
Definition argsort (a : list float) : list nat :=
  fold_left (fun acc i => insert_index (fun k => nth k a nan) i acc)
            (seq 0 (length a)) [].

(** What [argsort] promises whatever the algorithm: [order] lists every
    index of [a] once, and no later key is below an earlier one. *)
Fixpoint ascending (a : list float) (order : list nat) : bool :=
  match order with
  | [] => true
  | i :: rest =>
      forallb (fun j => negb (sort_lt (nth j a nan) (nth i a nan))) rest
      && ascending a rest
  end.

Definition is_argsort (a : list float) (order : list nat) : Prop :=
  Permutation order (seq 0 (length a)) /\ ascending a order = true.

(** [arr[idx]] for a list of valid indices (fancy indexing). *)
Definition take {A : Type} (arr : list A) (idx : list nat) : list A :=
  flat_map (fun i => match nth_error arr i with
                     | Some x => [x]
                     | None => []
                     end) idx.

(** [-mask] of a boolean array: numpy, from 1.13 on, has no unary minus
    on booleans and raises [TypeError] (it asks for [~] or
    [logical_not]). *)
Definition negative_mask (mask : list bool) : result (list bool) :=
  Error TypeError.

(** [arr[mask]] for a boolean mask of the same length. *)
Fixpoint compress {A : Type} (mask : list bool) (arr : list A) : list A :=
  match mask, arr with
  | b :: mask', x :: arr' =>
      if b then x :: compress mask' arr' else compress mask' arr'
  | _, _ => []
  end.

End Np.

(** ** fitnesses.py: the combined fitness *)

Section CombinedFitness.

(** The simulated collection and the measurement collection, and the eleven
    per-axis fitness functions of [fitnesses.py].  Each returns a float64,
    not-a-number when the axis cannot be evaluated. *)
Variables simulation measurement : Type.
Variables response_fitness baseline_fitness rectification_fitness
  falling_curve_time_fitness mean_isi_fitness spike_latency_fitness
  spike_height_fitness spike_width_fitness spike_ahp_fitness
  spike_count_fitness isi_spread_fitness : simulation -> measurement -> float.

(** The list the generator of [simple_combined_fitness] iterates over. *)
Definition simple_axes : list (simulation -> measurement -> float) :=
  [ response_fitness; baseline_fitness; rectification_fitness;
    falling_curve_time_fitness; mean_isi_fitness; spike_latency_fitness;
    spike_height_fitness; spike_width_fitness; spike_ahp_fitness;
    spike_count_fitness; isi_spread_fitness ].

(** [arr = np.fromiter((f(sim, measurement)**2 for f in [...]), dtype=float)] *)
Definition simple_combined_arr (sim : simulation) (meas : measurement)
  : list float :=
  map (fun f => Np.square (f sim meas)) simple_axes.

(** [simple_combined_fitness(sim, measurement, full=True)] returns [arr]. *)
Definition simple_combined_fitness_full (sim : simulation) (meas : measurement)
  : list float :=
  simple_combined_arr sim meas.

(** [simple_combined_fitness(sim, measurement, full=False)]:
    [(np.nansum(arr**2) / arr.size)**0.5]. *)
Definition simple_combined_fitness (sim : simulation) (meas : measurement)
  : float :=
  let arr := simple_combined_arr sim meas in
  sqrt (Np.nansum (map Np.square arr) / Np.size arr).

Definition combined_fitness := simple_combined_fitness.

(** What the specification describes: the square root of the NaN-aware sum
    of the squares of the eleven per-axis values, over eleven. *)
Definition rms_of_axes (sim : simulation) (meas : measurement) : float :=
  let vals := map (fun f => f sim meas) simple_axes in
  sqrt (Np.nansum (map Np.square vals) / Np.size vals).

End CombinedFitness.


(** An axis with its not-a-number results replaced by zero. *)
Definition nan_as_zero {simulation measurement : Type}
    (f : simulation -> measurement -> float)
  : simulation -> measurement -> float :=
  fun sim meas => if Np.isnan (f sim meas) then 0%float else f sim meas.

(** ** fitnesses.py: the other combinations *)

Module Combined.

Open Scope float_scope.

(** [(arr**2).mean()**0.5] *)
Definition rms (arr : list float) : float :=
  sqrt (Np.sum (map Np.square arr) / Np.size arr).

Section Axes.

Variables simulation measurement : Type.
Variables response_fitness baseline_fitness rectification_fitness
  falling_curve_time_fitness spike_count_fitness mean_isi_fitness
  spike_latency_fitness spike_width_fitness spike_height_fitness
  spike_ahp_fitness spike_time_fitness charging_curve_fitness
  : simulation -> measurement -> float.

(** [hyperpol_fitness(sim, measurement, full=True)] *)
Definition hyperpol_fitness_full (sim : simulation) (meas : measurement)
  : list float :=
  let a := response_fitness sim meas in
  let b := baseline_fitness sim meas / 5 in
  let c := rectification_fitness sim meas * 4 in
  let d := falling_curve_time_fitness sim meas / 20 in
  let e := spike_count_fitness sim meas in
  [a; b; c; d; e].

(** [hyperpol_fitness(sim, measurement)] *)
Definition hyperpol_fitness (sim : simulation) (meas : measurement) : float :=
  rms (hyperpol_fitness_full sim meas).

(** [spike_fitness_0(sim, measurement, full=True)] *)
Definition spike_fitness_0_full (sim : simulation) (meas : measurement)
  : list float :=
  let a := mean_isi_fitness sim meas in
  let b := spike_latency_fitness sim meas in
  let c := spike_width_fitness sim meas in
  let d := spike_height_fitness sim meas in
  let e := spike_ahp_fitness sim meas in
  let f := spike_time_fitness sim meas in
  [a; b; c; d; e; f].

(** [spike_fitness_0(sim, measurement)] *)
Definition spike_fitness_0 (sim : simulation) (meas : measurement) : float :=
  rms (spike_fitness_0_full sim meas).

(** [spike_fitness(sim, measurement, full=True)] *)
Definition spike_fitness_full (sim : simulation) (meas : measurement)
  : list float :=
  let a := spike_time_fitness sim meas in
  let b := spike_width_fitness sim meas in
  let c := spike_height_fitness sim meas in
  let d := spike_ahp_fitness sim meas in
  [a; b; c; d].

(** [spike_fitness(sim, measurement)] *)
Definition spike_fitness (sim : simulation) (meas : measurement) : float :=
  rms (spike_fitness_full sim meas).

(** [new_combined_fitness(sim, measurement, full=True)] *)
Definition new_combined_fitness_full (sim : simulation) (meas : measurement)
  : list float :=
  let a := response_fitness sim meas in
  let b := baseline_fitness sim meas in
  let c := 2 * rectification_fitness sim meas in
  let d := falling_curve_time_fitness sim meas in
  let e := spike_time_fitness sim meas in
  let f := spike_width_fitness sim meas in
  let g := spike_height_fitness sim meas in
  let h := spike_ahp_fitness sim meas in
  [a; b; c; d; e; f; g; h].

(** [new_combined_fitness(sim, measurement)] *)
Definition new_combined_fitness (sim : simulation) (meas : measurement)
  : float :=
  rms (new_combined_fitness_full sim meas).

(** [spike_onset_fitness(sim, measurement)] *)
Definition spike_onset_fitness (sim : simulation) (meas : measurement)
  : float :=
  let a := spike_latency_fitness sim meas in
  let b := charging_curve_fitness sim meas in
  rms [a; b].

End Axes.

End Combined.

(** ** fitnesses.py: selection among candidates *)

Section Selection.

Variables candidate measurement : Type.

(** [np.array([fitness(sim, measurement) for sim in group])] *)
Definition score_all (fitness : candidate -> measurement -> float)
    (group : list candidate) (meas : measurement) : list float :=
  map (fun sim => fitness sim meas) group.

(** The entry of [w] for [sim] once [w[np.isnan(w)] = np.inf] has run. *)
Definition sort_key (fitness : candidate -> measurement -> float)
    (meas : measurement) (sim : candidate) : float :=
  if Np.isnan (fitness sim meas) then infinity else fitness sim meas.

(** [fit_sort], over the sorting routine behind [w.argsort()]. *)
Definition fit_sort_by (argsort : list float -> list nat)
    (group : list candidate) (meas : measurement)
    (fitness : candidate -> measurement -> float) : list candidate :=
  let w := score_all fitness group meas in
  let w := Np.nan_to_inf w in
  Np.take group (argsort w).

(** [fit_sort(group, measurement, fitness)] *)
Definition fit_sort := fit_sort_by Np.argsort.

(** What the specification asks of the list [sorted] that [fit_sort]
    returns: the candidates of [group], in ascending order of score, every
    candidate scored not-a-number after every candidate of finite score. *)
Definition sorted_nan_last (fitness : candidate -> measurement -> float)
    (meas : measurement) (group sorted : list candidate) : Prop :=
  Permutation sorted group /\
  (forall i j ci cj, i < j ->
     nth_error sorted i = Some ci -> nth_error sorted j = Some cj ->
     (sort_key fitness meas cj <? sort_key fitness meas ci)%float = false) /\
  (forall i j ci cj,
     nth_error sorted i = Some ci -> nth_error sorted j = Some cj ->
     Np.isnan (fitness ci meas) = true ->
     is_finite (fitness cj meas) = true ->
     j < i).

(** [find_best(group, measurement, fitness)] *)
Definition find_best (group : list candidate) (meas : measurement)
    (fitness : candidate -> measurement -> float) : result candidate :=
  let w := score_all fitness group meas in
  let w := Np.nan_to_inf w in
  i <- Np.argmin w ;;
  match nth_error group i with
  | Some sim => Ok sim
  | None => Error IndexError
  end.

End Selection.

(** ** fitnesses.py: the Pareto accumulator *)

Module Pareto.

Open Scope float_scope.

(** Element-wise [f a b] of two one-dimensional arrays under numpy's
    broadcasting: equal lengths, or one of the two of length one. *)
Definition broadcast {B : Type} (f : float -> float -> B)
    (a b : list float) : result (list B) :=
  if (length a =? length b)%nat then Ok (map (fun p => f (fst p) (snd p)) (combine a b))
  else match a, b with
       | [x], _ => Ok (map (fun y => f x y) b)
       | _, [y] => Ok (map (fun x => f x y) a)
       | _, _ => Error ValueError
       end.

(** [(a < b).all()] *)
Definition all_lt (a b : list float) : result bool :=
  c <- broadcast ltb a b ;; Ok (forallb (fun x => x) c).

(** The first loop over the kept candidates,
    [for i, key in enumerate(best): if (scores[i] < score).all(): break].
    It reports whether it left by [break]; nothing reads that. *)
Fixpoint scan_kept (scores : list (list float)) (score : list float)
  : result bool :=
  match scores with
  | [] => Ok false
  | row :: rest =>
      b <- all_lt row score ;;
      if b then Ok true else scan_kept rest score
  end.

(** [(score < scores).all(axis=1)]: for each kept row, whether [score] is
    below it on every axis. *)
Fixpoint dominated_rows (score : list float) (scores : list (list float))
  : result (list bool) :=
  match scores with
  | [] => Ok []
  | row :: rest =>
      b <- all_lt score row ;;
      bs <- dominated_rows score rest ;;
      Ok (b :: bs)
  end.

(** [scores.size] of the kept two-dimensional array (0 for the initial
    [np.empty(0)]). *)
Definition size2 (scores : list (list float)) : nat :=
  list_sum (map (@length float) scores).

Section Accumulate.

Variables candidate measurement : Type.

(** [fitness(sim, measurement, full=1)]: the vector of per-axis scores. *)
Variable fitness : candidate -> measurement -> list float.
Variable meas : measurement.

(** The kept candidates [best] and their score rows [scores]. *)
Definition kept : Type := (list candidate * list (list float))%type.

(** One iteration of [for sim in group]. *)
Definition step (st : kept) (sim : candidate) : result kept :=
  let '(best, scores) := st in
  let score := fitness sim meas in
  (* ignore misfits *)
  if existsb Np.isnan score then Ok st
  else
    _left_by_break <- scan_kept scores score ;;
    if negb (size2 scores =? 0)%nat then
      dominates <- dominated_rows score scores ;;
      keep <- Np.negative_mask dominates ;;   (* [-dominates] *)
      (* np.vstack needs rows of one length *)
      if forallb (fun row => (length row =? length score)%nat) scores then
        Ok (Np.compress keep best ++ [sim],
            Np.compress keep scores ++ [score])
      else Error ValueError
    else Ok ([sim], [score]).

(** The loop [for sim in group], from the state [st]. *)
Fixpoint accumulate (st : kept) (group : list candidate) : result kept :=
  match group with
  | [] => Ok st
  | sim :: rest => st' <- step st sim ;; accumulate st' rest
  end.

(** [(a ** 2).sum()] of a row. *)
Definition sum_sq (a : list float) : float := Np.sum (map Np.square a).

(** [scores[i] - scores[j]] for rows of one length. *)
Definition row_sub (a b : list float) : list float :=
  map (fun p => fst p - snd p) (combine a b).

(** The body of the loop over [i]:
    [((scores[i] - scores[:i]) ** 2).sum(axis=1) < total[i] * similarity).any()].
    [total] is indexed as computed, before the reordering. *)
Definition worse_at (similarity : float) (total : list float)
    (scores : list (list float)) (i : nat) : bool :=
  let row := nth i scores [] in
  existsb (fun other => sum_sq (row_sub row other) <? nth i total nan * similarity)
          (firstn i scores).

(** The block under [if similarity:]. *)
Definition drop_similar (similarity : float) (st : kept) : result kept :=
  let '(best, scores) := st in
  match scores with
  | [] => Error AxisError   (* [sum(axis=1)] of the one-dimensional [np.empty(0)] *)
  | _ =>
      (* sort by rms *)
      let total := map sum_sq scores in
      let order := Np.argsort total in
      let best := Np.take best order in
      let scores := Np.take scores order in
      let worse := map (worse_at similarity total scores) (seq 0 (length best)) in
      keep <- Np.negative_mask worse ;;   (* [-worse] *)
      Ok (Np.compress keep best, Np.compress keep scores)
  end.

(** [find_multi_best(group, measurement, fitness, similarity, full=True)] *)
Definition find_multi_best_full (group : list candidate) (similarity : float)
  : result kept :=
  st <- accumulate ([], []) group ;;
  (* [if similarity:] a float is false exactly when it equals zero *)
  if negb (similarity =? 0) then drop_similar similarity st else Ok st.

(** [find_multi_best(group, measurement, fitness, similarity)] *)
Definition find_multi_best (group : list candidate) (similarity : float)
  : result (list candidate) :=
  st <- find_multi_best_full group similarity ;; Ok (fst st).

(** *** Vocabulary for the properties of the accumulator *)

(** [a] is below [b] on every axis: [(a < b).all()] for rows of one length. *)
Definition below_on_every_axis (a b : list float) : bool :=
  forallb (fun p => fst p <? snd p) (combine a b).

(** [np.isnan(score).any()] *)
Definition has_nan (score : list float) : bool := existsb Np.isnan score.

(** The candidates of a group that are scored: their score vector has no
    not-a-number. *)
Definition scored (group : list candidate) : list candidate :=
  filter (fun sim => negb (has_nan (fitness sim meas))) group.

End Accumulate.

(** The default [similarity=.10]. *)
Definition default_similarity : float := 0x1.999999999999ap-4.

End Pareto.

(** ** Python sequences *)

Module Py.

Open Scope Z_scope.

(** A slice bound, as Python clips it for a sequence of length [n]:
    a negative bound counts from the end. *)
Definition clip (n i : Z) : Z :=
  if i <? 0 then Z.max (i + n) 0 else Z.min i n.

(** [l[start:stop]] *)
Definition slice {A : Type} (l : list A) (start stop : Z) : list A :=
  let n := Z.of_nat (length l) in
  let lo := clip n start in
  let hi := clip n stop in
  firstn (Z.to_nat (hi - lo)) (skipn (Z.to_nat lo) l).

(** The items of [l] whose index lies in the closed interval [[lo, hi]]. *)
Definition items_between {A : Type} (l : list A) (lo hi : Z) : list A :=
  map snd
      (filter (fun p => (lo <=? Z.of_nat (fst p)) && (Z.of_nat (fst p) <=? hi))
              (combine (seq 0 (length l)) l)).

End Py.

(** ** features.py *)

Module Wave.

(** A sample of a wave: time [x] and amplitude [y]. *)
Record sample : Type := { x : float; y : float }.

End Wave.

Module Features.

Open Scope float_scope.

(** A wave, or a cut of one such as the falling curve: its samples in
    order.  [ccut.size] is their number, [ccut.x] and [ccut.y] the columns. *)
Definition wave : Type := list Wave.sample.

Definition xs (w : wave) : list float := map Wave.x w.
Definition ys (w : wave) : list float := map Wave.y w.

(** Modelled from the spec: the [vartype] module is not among the sources.
    A value with uncertainty is a (center, spread) pair,
    [vartype.vartype(x, dev)]. *)
Record vartype : Type := { x : float; dev : float }.

(** The two shapes [_fit_falling_curve] chooses between. *)
Inductive fit_function : Type := simple_exp | negative_exp.

(** [falling_param] and [function_fit] *)
Record falling_param : Type := { amp : vartype; tau : vartype }.
Record function_fit : Type :=
  { function : option fit_function; params : falling_param }.

(** The arguments of a call [optimize.curve_fit(f, xdata, ydata, p0)]. *)
Record curve_fit_call : Type :=
  { f : fit_function;
    xdata : list float;
    ydata : list float;
    p0 : float * float }.

(** What [curve_fit] hands back: [popt] and, once [np.zeros((2,2)) + pcov]
    has run, the diagonal of the covariance. *)
Record curve_fit_result : Type :=
  { popt : float * float; pcov_diag : float * float }.

Section Fit.

(** scipy's optimizer. *)
Variable curve_fit : curve_fit_call -> curve_fit_result.

(** Operations of the [vartype] module used here, which is not among the
    sources: subtraction, the [negative] attribute, [array_mean], and the
    spread that [vartype.vartype(x)] gives a bare center. *)
Variable vartype_sub : vartype -> vartype -> vartype.
Variable negative : vartype -> bool.
Variable array_mean : list float -> vartype.
Variable default_dev : float.

(** [init = (ccut.y.min() - baseline.x, ccut.x.ptp())] *)
Definition falling_curve_init (ccut : wave) (baseline : vartype)
  : result (float * float) :=
  lo <- Np.amin (ys ccut) ;;
  span <- Np.ptp (xs ccut) ;;
  Ok (lo - x baseline, span).

(** The call of the optimizer in [_fit_falling_curve]:
    [optimize.curve_fit(func, ccut.x, ccut.y - baseline.x, (-1, 1))]. *)
Definition falling_curve_call (ccut : wave) (baseline steady : vartype)
  : curve_fit_call :=
  let func :=
    if negative (vartype_sub steady baseline) then negative_exp else simple_exp in
  {| f := func;
     xdata := xs ccut;
     ydata := map (fun v => v - x baseline) (ys ccut);
     p0 := (-1, 1) |}.

(** [_fit_falling_curve(ccut, baseline, steady)].  With fewer than five
    samples the code calls the module [vartype] itself,
    [vartype(np.nan, np.nan)], which is not callable. *)
Definition _fit_falling_curve (ccut : wave) (baseline steady : vartype)
  : result function_fit :=
  if (length ccut <? 5)%nat then Error TypeError
  else
    _init <- falling_curve_init ccut baseline ;;
    let call := falling_curve_call ccut baseline steady in
    let fit := curve_fit call in
    Ok {| function := Some (f call);
          params :=
            {| amp := {| x := fst (popt fit); dev := sqrt (fst (pcov_diag fit)) |};
               tau := {| x := snd (popt fit); dev := sqrt (snd (pcov_diag fit)) |} |} |}.

(** [Rectification.window_len] *)
Definition window_len : Z := 11.

(** [Rectification.rectification], from the falling curve [ccut] and
    [steady] of the owning trace. *)
Definition rectification (ccut : wave) (steady : vartype) : result vartype :=
  if (Z.of_nat (length ccut) <? window_len + 1)%Z
  then Ok {| x := nan; dev := default_dev |}
  else
    pos <- Np.argmin (ys ccut) ;;
    let end_ := Z.max (Z.of_nat pos + window_len / 2)
                      (Z.of_nat (length ccut) - 1) in
    let bottom :=
      array_mean (ys (Py.slice ccut (end_ - window_len) (end_ + window_len + 1))) in
    Ok (vartype_sub steady bottom).

(** The amplitudes that the specification averages: those of the samples
    whose index lies in [[end - window_len, end + window_len]]. *)
Definition window_amplitudes (ccut : wave) (end_ : Z) : list float :=
  ys (Py.items_between ccut (end_ - window_len) (end_ + window_len)).

End Fit.

End Features.

(** ** Python strings *)

(** A [str]: its characters in order.  String literals stand for them. *)
Definition str : Type := list ascii.

Coercion list_ascii_of_string : string >-> list.

Module Str.

Definition newline : ascii := "010"%char.
Definition backslash : ascii := "\"%char.

(** [s.startswith(prefix)] *)
Fixpoint startswith (s prefix : str) : bool :=
  match prefix, s with
  | [], _ => true
  | p :: prefix', c :: s' => Ascii.eqb c p && startswith s' prefix'
  | _ :: _, [] => false
  end.

(** [s.endswith(suffix)] *)
Definition endswith (s suffix : str) : bool :=
  startswith (rev s) (rev suffix).

(** [sub in s] *)
Fixpoint contains (s sub : str) : bool :=
  startswith s sub ||
  match s with
  | [] => false
  | _ :: s' => contains s' sub
  end.

Definition is_digit (c : ascii) : bool :=
  (48 <=? nat_of_ascii c)%nat && (nat_of_ascii c <=? 57)%nat.

Definition is_alpha (c : ascii) : bool :=
  ((65 <=? nat_of_ascii c)%nat && (nat_of_ascii c <=? 90)%nat) ||
  ((97 <=? nat_of_ascii c)%nat && (nat_of_ascii c <=? 122)%nat).

Definition is_alnum (c : ascii) : bool := is_digit c || is_alpha c.

(** [s == t] *)
Fixpoint eqb (s t : str) : bool :=
  match s, t with
  | [], [] => true
  | c :: s', d :: t' => Ascii.eqb c d && eqb s' t'
  | _, _ => false
  end.

(** [int(s)] for a run of decimal digits. *)
Definition int (s : str) : nat :=
  fold_left (fun n c => 10 * n + (nat_of_ascii c - 48)) s 0.

(** ['{}'.format(n)] for a natural number. *)
Definition of_nat (n : nat) : str :=
  list_ascii_of_string (NilEmpty.string_of_uint (Nat.to_uint n)).

End Str.

(** ** Python's re, for the patterns of the sources

    Literals, [.], [\d], [\s], escaped punctuation, character sets with
    ranges, greedy [*] and [+] on a single character, one group without
    repetition inside or after it, and [$]. *)

Module Re.

(** What matches one character. *)
Inductive atom : Type :=
| Lit (c : ascii)
| Dot
| Digit
| Space
| Set_ (ranges : list (ascii * ascii)).

Inductive piece : Type :=
| One (a : atom)
| Many (a : atom)     (* [a*] *)
| Many1 (a : atom).   (* [a+] *)

Inductive item : Type :=
| Piece (p : piece)
| Group (body : list piece)   (* [( ... )], group 1 *)
| Eos.                        (* [$] *)

Definition regex : Type := list item.

Definition in_range (c : ascii) (r : ascii * ascii) : bool :=
  (nat_of_ascii (fst r) <=? nat_of_ascii c)%nat &&
  (nat_of_ascii c <=? nat_of_ascii (snd r))%nat.

(** [\s]: the characters below 256 for which [str.isspace()] holds. *)
Definition is_space (c : ascii) : bool :=
  let n := nat_of_ascii c in
  ((9 <=? n) && (n <=? 13) || (28 <=? n) && (n <=? 32) ||
   (n =? 133) || (n =? 160))%nat.

Definition atom_matches (a : atom) (c : ascii) : bool :=
  match a with
  | Lit d => Ascii.eqb c d
  | Dot => negb (Ascii.eqb c Str.newline)
  | Digit => Str.is_digit c
  | Space => is_space c
  | Set_ ranges => existsb (in_range c) ranges
  end.

(** *** Compiling a pattern *)

Inductive set_state : Type :=
| SetPlain     (* after a member *)
| SetEscape    (* after a backslash *)
| SetDash.     (* after a member and [-] *)

Inductive mode : Type :=
| Normal
| Escape
| InSet (ranges_rev : list (ascii * ascii)) (st : set_state).

(** The parser's state: the items read so far, last first; the pieces of
    the group that is open, last first; whether a group was opened; and
    where the parser is. *)
Record pstate : Type :=
  { items_rev : list item;
    open_group : option (list piece);
    grouped : bool;
    pmode : mode }.

Definition initial : pstate :=
  {| items_rev := []; open_group := None; grouped := false; pmode := Normal |}.

Definition push_atom (a : atom) (st : pstate) : pstate :=
  match open_group st with
  | Some ps =>
      {| items_rev := items_rev st; open_group := Some (One a :: ps);
         grouped := grouped st; pmode := Normal |}
  | None =>
      {| items_rev := Piece (One a) :: items_rev st; open_group := None;
         grouped := grouped st; pmode := Normal |}
  end.

Definition repeat_last (f : atom -> piece) (st : pstate) : option pstate :=
  match open_group st, items_rev st with
  | Some (One a :: ps), its =>
      Some {| items_rev := its; open_group := Some (f a :: ps);
              grouped := grouped st; pmode := Normal |}
  | None, Piece (One a) :: its =>
      Some {| items_rev := Piece (f a) :: its; open_group := None;
              grouped := grouped st; pmode := Normal |}
  | _, _ => None
  end.

Definition with_mode (m : mode) (st : pstate) : pstate :=
  {| items_rev := items_rev st; open_group := open_group st;
     grouped := grouped st; pmode := m |}.

(** One character of the pattern.  [None]: syntax outside the fragment. *)
Definition step (st : pstate) (c : ascii) : option pstate :=
  match pmode st with
  | Normal =>
      match c with
      | "\"%char => Some (with_mode Escape st)
      | "."%char => Some (push_atom Dot st)
      | "*"%char => repeat_last Many st
      | "+"%char => repeat_last Many1 st
      | "("%char =>
          match open_group st, grouped st with
          | None, false =>
              Some {| items_rev := items_rev st; open_group := Some [];
                      grouped := true; pmode := Normal |}
          | _, _ => None
          end
      | ")"%char =>
          match open_group st with
          | Some ps =>
              Some {| items_rev := Group (rev ps) :: items_rev st;
                      open_group := None; grouped := true; pmode := Normal |}
          | None => None
          end
      | "$"%char =>
          match open_group st with
          | None =>
              Some {| items_rev := Eos :: items_rev st; open_group := None;
                      grouped := grouped st; pmode := Normal |}
          | Some _ => None
          end
      | "["%char => Some (with_mode (InSet [] SetPlain) st)
      | "?"%char | "{"%char | "|"%char | "^"%char => None
      | _ => Some (push_atom (Lit c) st)
      end
  | Escape =>
      match c with
      | "d"%char => Some (push_atom Digit st)
      | "s"%char => Some (push_atom Space st)
      | _ => if Str.is_alnum c then None else Some (push_atom (Lit c) st)
      end
  | InSet rs SetPlain =>
      match c with
      | "]"%char =>
          match rs with
          | [] => None
          | _ => Some (push_atom (Set_ (rev rs)) st)
          end
      | "\"%char => Some (with_mode (InSet rs SetEscape) st)
      | "-"%char =>
          match rs with
          | [] => Some (with_mode (InSet [(c, c)] SetPlain) st)
          | (a, b) :: _ =>
              if Ascii.eqb a b then Some (with_mode (InSet rs SetDash) st)
              else None
          end
      | "^"%char =>
          match rs with
          | [] => None
          | _ => Some (with_mode (InSet ((c, c) :: rs) SetPlain) st)
          end
      | _ => Some (with_mode (InSet ((c, c) :: rs) SetPlain) st)
      end
  | InSet rs SetEscape =>
      if Str.is_alnum c then None
      else Some (with_mode (InSet ((c, c) :: rs) SetPlain) st)
  | InSet rs SetDash =>
      match c with
      | "]"%char => Some (push_atom (Set_ (rev (("-"%char, "-"%char) :: rs))) st)
      | "\"%char => None
      | _ =>
          match rs with
          | (a, _) :: rs' =>
              if (nat_of_ascii a <? nat_of_ascii c)%nat
              then Some (with_mode (InSet ((a, c) :: rs') SetPlain) st)
              else None
          | [] => None
          end
      end
  end.

Definition steps (st : option pstate) (p : str) : option pstate :=
  fold_left (fun st c => match st with Some st => step st c | None => None end)
            p st.

(** [re.compile(pattern)] *)
Definition compile (pattern : str) : option regex :=
  match steps (Some initial) pattern with
  | Some {| items_rev := its; open_group := None; pmode := Normal |} =>
      Some (rev its)
  | _ => None
  end.

(** *** Matching, with backtracking *)

Section Matching.

Variable R : Type.

(** [a*], greedy: the longest run first, then shorter ones. *)
Fixpoint star (a : atom) (s : str) (k : str -> option R) : option R :=
  match s with
  | c :: s' =>
      if atom_matches a c
      then match star a s' k with
           | Some r => Some r
           | None => k s
           end
      else k s
  | [] => k []
  end.

Definition match_piece (p : piece) (s : str) (k : str -> option R)
  : option R :=
  match p, s with
  | One a, c :: s' => if atom_matches a c then k s' else None
  | One _, [] => None
  | Many a, _ => star a s k
  | Many1 a, c :: s' => if atom_matches a c then star a s' k else None
  | Many1 _, [] => None
  end.

Fixpoint match_pieces (ps : list piece) (s : str) (k : str -> option R)
  : option R :=
  match ps with
  | [] => k s
  | p :: ps' => match_piece p s (fun s' => match_pieces ps' s' k)
  end.

(** [$]: at the end, or before a newline that ends the string. *)
Definition at_end (s : str) : bool :=
  match s with
  | [] => true
  | [c] => Ascii.eqb c Str.newline
  | _ => false
  end.

(** The text between the position [s] and the later position [s']. *)
Definition consumed (s s' : str) : str := firstn (length s - length s') s.

(** [g] is the text of group 1, if the group has matched. *)
Fixpoint match_items (r : regex) (s : str) (g : option str)
    (k : str -> option str -> option R) : option R :=
  match r with
  | [] => k s g
  | Piece p :: r' => match_piece p s (fun s' => match_items r' s' g k)
  | Group body :: r' =>
      match_pieces body s
        (fun s' => match_items r' s' (Some (consumed s s')) k)
  | Eos :: r' => if at_end s then match_items r' s g k else None
  end.

End Matching.

(** A match at the start of [s]: what follows it, and group 1. *)
Definition match_at (r : regex) (s : str) : option (str * option str) :=
  match_items r s None (fun s' g => Some (s', g)).

(** Whether the pattern has a group 1. *)
Definition has_group (r : regex) : bool :=
  existsb (fun i => match i with Group _ => true | _ => false end) r.

(** A match object, with the text around the match. *)
Record match_ : Type :=
  { before : str;           (* [string[:m.start()]] *)
    text : str;             (* [m.group(0)] *)
    after : str;            (* [string[m.end():]] *)
    groups : bool;          (* whether the pattern has a group 1 *)
    group1 : option str }.  (* what group 1 matched *)

Definition shift (c : ascii) (m : match_) : match_ :=
  {| before := c :: before m; text := text m; after := after m;
     groups := groups m; group1 := group1 m |}.

(** [pattern.search(s)] for a compiled pattern: the leftmost position with
    a match. *)
Fixpoint search_compiled (r : regex) (s : str) : option match_ :=
  match match_at r s with
  | Some (rest, g) =>
      Some {| before := []; text := consumed s rest; after := rest;
              groups := has_group r; group1 := g |}
  | None =>
      match s with
      | c :: s' => option_map (shift c) (search_compiled r s')
      | [] => None
      end
  end.

(** [re.search(pattern, s)]; [ReError] is [re.error], or a pattern outside
    the fragment above. *)
Definition search (pattern s : str) : result (option match_) :=
  match compile pattern with
  | Some r => Ok (search_compiled r s)
  | None => Error ReError
  end.

(** [m.group(1)]: [IndexError] when the pattern has no group 1. *)
Definition group (m : match_) : result (option str) :=
  if groups m then Ok (group1 m) else Error IndexError.

(** *** Replacement templates

    [re.sub] parses the template before it searches (for a template with a
    backslash, [re._parser.parse_template]; one without is taken as it
    is), so a template that does not parse raises whether or not the
    pattern matches. *)

(** A token of the template: a character, or a backslash with the
    character after it. *)
Inductive token : Type :=
| Chr (c : ascii)
| Esc (c : ascii).

(** The tokenizer: the token read ahead ([None] at the end) and the text
    after it. *)
Record tokenizer : Type := { next : option token; rest : str }.

(** [Tokenizer.__next], reading from [s]: a backslash that ends the
    template is an error. *)
Definition advance (s : str) : result tokenizer :=
  match s with
  | [] => Ok {| next := None; rest := [] |}
  | c :: s' =>
      if Ascii.eqb c Str.backslash then
        match s' with
        | d :: s'' => Ok {| next := Some (Esc d); rest := s'' |}
        | [] => Error ReError
        end
      else Ok {| next := Some (Chr c); rest := s' |}
  end.

(** What a parsed template is made of. *)
Inductive part : Type :=
| Literal (c : ascii)
| Whole      (* group 0, the whole match *)
| Group1.

Definition is_octal (c : ascii) : bool :=
  (48 <=? nat_of_ascii c)%nat && (nat_of_ascii c <=? 55)%nat.

Definition digit_value (c : ascii) : nat := nat_of_ascii c - 48.

(** The character read ahead, when it is a plain one of the class
    ([s.next in DIGITS], [s.next in OCTDIGITS]). *)
Definition next_in (class : ascii -> bool) (t : tokenizer) : option ascii :=
  match next t with
  | Some (Chr d) => if class d then Some d else None
  | _ => None
  end.

(** [ESCAPES] *)
Definition escape (c : ascii) : option ascii :=
  match c with
  | "a"%char => Some "007"%char
  | "b"%char => Some "008"%char
  | "f"%char => Some "012"%char
  | "n"%char => Some "010"%char
  | "r"%char => Some "013"%char
  | "t"%char => Some "009"%char
  | "v"%char => Some "011"%char
  | "\"%char => Some "\"%char
  | _ => None
  end.

(** [name.isidentifier()], for characters below 256. *)
Definition id_start (c : ascii) : bool :=
  let n := nat_of_ascii c in
  (Str.is_alpha c || (n =? 95) || (n =? 170) || (n =? 181) || (n =? 186) ||
   (192 <=? n) && (n <=? 214) || (216 <=? n) && (n <=? 246) ||
   (248 <=? n))%nat.

Definition id_continue (c : ascii) : bool :=
  id_start c || Str.is_digit c || (nat_of_ascii c =? 183)%nat.

Definition is_identifier (name : str) : bool :=
  match name with
  | [] => false
  | c :: name' => id_start c && forallb id_continue name'
  end.

(** The white space [int()] skips around a number. *)
Definition int_space (c : ascii) : bool :=
  let n := nat_of_ascii c in
  ((9 <=? n) && (n <=? 13) || (n =? 32) || (n =? 133) || (n =? 160))%nat.

Fixpoint skip_spaces (s : str) : str :=
  match s with
  | c :: s' => if int_space c then skip_spaces s' else s
  | [] => []
  end.

(** Decimal digits, which single underscores may separate. *)
Fixpoint digit_groups (s : str) : option (list ascii) :=
  match s with
  | [] => None
  | d :: s' =>
      if Str.is_digit d then
        match s' with
        | [] => Some [d]
        | u :: s'' =>
            if Ascii.eqb u "_"
            then option_map (cons d) (digit_groups s'')
            else option_map (cons d) (digit_groups s')
        end
      else None
  end.

(** [int(name)] followed by [if index < 0: raise ValueError]: [None] is
    [ValueError], which a number of more than 4300 digits gives too. *)
Definition int_of_name (name : str) : option N :=
  let s := rev (skip_spaces (rev (skip_spaces name))) in
  let '(negative, s) :=
    match s with
    | c :: s' =>
        if Ascii.eqb c "-" then (true, s')
        else if Ascii.eqb c "+" then (false, s')
        else (false, s)
    | [] => (false, s)
    end in
  match digit_groups s with
  | Some digits =>
      if (4300 <? N.of_nat (length digits))%N then None
      else
        let v := fold_left (fun n d => 10 * n + N.of_nat (digit_value d))%N
                           digits 0%N in
        if negative && negb (v =? 0)%N then None else Some v
  | None => None
  end.

(** The group [\g<name>] refers to.  No group of the patterns above has a
    name, so an identifier is an unknown group name ([IndexError]). *)
Definition group_index (name : str) : result N :=
  if is_identifier name then Error IndexError
  else match int_of_name name with
       | Some index => Ok index
       | None => Error ReError
       end.

(** [addgroup(index)], for a pattern with [groups] groups (none or one). *)
Definition addgroup (groups : bool) (index : N) : result part :=
  match index with
  | 0%N => Ok Whole
  | 1%N => if groups then Ok Group1 else Error ReError
  | _ => Error ReError
  end.

(** [Tokenizer.getuntil(">", "group name")]: the name, and the tokenizer
    after the [>]. *)
Fixpoint getuntil (fuel : nat) (t : tokenizer) (name : str)
  : result (str * tokenizer) :=
  match fuel with
  | O => Error ReError
  | S fuel' =>
      let c := next t in
      t <- advance (rest t) ;;
      match c with
      | None => Error ReError
      | Some (Chr d) =>
          if Ascii.eqb d ">" then
            match name with
            | [] => Error ReError
            | _ :: _ => Ok (name, t)
            end
          else getuntil fuel' t (name ++ [d])
      | Some (Esc d) => getuntil fuel' t (name ++ [Str.backslash; d])
      end
  end.

(** The loop of [parse_template]; [acc] holds the parts read so far, the
    last one first, and [fuel] exceeds the number of tokens left. *)
Fixpoint parse_loop (fuel : nat) (groups : bool) (t : tokenizer)
    (acc : list part) : result (list part) :=
  match fuel with
  | O => Error ReError
  | S fuel' =>
      match next t with
      | None => Ok (rev acc)
      | Some this =>
          t <- advance (rest t) ;;
          match this with
          | Chr c => parse_loop fuel' groups t (Literal c :: acc)
          | Esc c =>
              if Ascii.eqb c "g" then
                match next t with
                | Some (Chr "<"%char) =>
                    t <- advance (rest t) ;;
                    found <- getuntil fuel' t [] ;;
                    let '(name, t) := found in
                    index <- group_index name ;;
                    p <- addgroup groups index ;;
                    parse_loop fuel' groups t (p :: acc)
                | _ => Error ReError
                end
              else if Ascii.eqb c "0" then
                match next_in is_octal t with
                | Some d1 =>
                    t <- advance (rest t) ;;
                    match next_in is_octal t with
                    | Some d2 =>
                        t <- advance (rest t) ;;
                        let v := 8 * digit_value d1 + digit_value d2 in
                        parse_loop fuel' groups t
                                   (Literal (ascii_of_nat v) :: acc)
                    | None =>
                        parse_loop fuel' groups t
                                   (Literal (ascii_of_nat (digit_value d1))
                                    :: acc)
                    end
                | None =>
                    parse_loop fuel' groups t (Literal Ascii.zero :: acc)
                end
              else if Str.is_digit c then
                match next_in Str.is_digit t with
                | Some d1 =>
                    t <- advance (rest t) ;;
                    match (if is_octal c && is_octal d1
                           then next_in is_octal t else None) with
                    | Some d2 =>
                        t <- advance (rest t) ;;
                        let v := 64 * digit_value c + 8 * digit_value d1
                                 + digit_value d2 in
                        if (255 <? v)%nat then Error ReError
                        else parse_loop fuel' groups t
                                        (Literal (ascii_of_nat v) :: acc)
                    | None =>
                        p <- addgroup groups
                               (N.of_nat (10 * digit_value c + digit_value d1)) ;;
                        parse_loop fuel' groups t (p :: acc)
                    end
                | None =>
                    p <- addgroup groups (N.of_nat (digit_value c)) ;;
                    parse_loop fuel' groups t (p :: acc)
                end
              else
                match escape c with
                | Some e => parse_loop fuel' groups t (Literal e :: acc)
                | None =>
                    if Str.is_alpha c then Error ReError
                    else parse_loop fuel' groups t
                           (Literal c :: Literal Str.backslash :: acc)
                end
          end
      end
  end.

(** [parse_template(template, pattern)] *)
Definition parse_template (template : str) (groups : bool)
  : result (list part) :=
  t <- advance template ;;
  parse_loop (S (length template)) groups t [].

(** [expand_template(template, match)]: a group that took no part in the
    match counts as empty. *)
Definition expand_template (template : list part) (m : match_) : str :=
  flat_map (fun p =>
              match p with
              | Literal c => [c]
              | Whole => text m
              | Group1 => match group1 m with Some g => g | None => [] end
              end) template.

(** The loop of [re.sub] with the parsed template: [count] is what is left
    of the limit, [None] for no limit; [fuel] bounds the matches by the
    length of the string. *)
Fixpoint sub_loop (fuel : nat) (r : regex) (template : list part)
    (count : option nat) (s : str) : str :=
  match fuel, count with
  | O, _ => s
  | _, Some O => s
  | S fuel', _ =>
      match search_compiled r s with
      | None => s
      | Some m =>
          let e := expand_template template m in
          let count' := option_map pred count in
          match text m, after m with
          | [], [] => before m ++ e
          | [], c :: rest =>
              before m ++ e ++ c :: sub_loop fuel' r template count' rest
          | _ :: _, rest =>
              before m ++ e ++ sub_loop fuel' r template count' rest
          end
      end
  end.

(** [pattern.sub(repl, s, count)] for a compiled pattern; [count = 0]
    replaces every match. *)
Definition sub_compiled (r : regex) (repl s : str) (count : nat)
  : result str :=
  template <- parse_template repl (has_group r) ;;
  Ok (sub_loop (S (length s)) r template
               (match count with O => None | _ => Some count end) s).

(** [re.sub(pattern, repl, s, count)] *)
Definition sub (pattern repl s : str) (count : nat) : result str :=
  match compile pattern with
  | Some r => sub_compiled r repl s count
  | None => Error ReError
  end.

End Re.

(** ** Vocabulary for properties of patterns *)

Module Pattern.

(** The pieces, and the items, that match the characters of [l] in turn. *)
Definition lits (l : str) : list Re.piece :=
  map (fun c => Re.One (Re.Lit c)) l.

Definition lit_items (l : str) : Re.regex :=
  map (fun c => Re.Piece (Re.One (Re.Lit c))) l.

(** A run of [a] cannot go on into [s]. *)
Definition stops (a : Re.atom) (s : str) : Prop :=
  match s with
  | [] => True
  | c :: _ => Re.atom_matches a c = false
  end.

(** Every character of [s] is matched by [a]. *)
Definition run (a : Re.atom) (s : str) : Prop :=
  Forall (fun c => Re.atom_matches a c = true) s.

(** [[0-9a-zA-Z\.\-_]]: the characters of a file name that
    [update_morph_file_name] takes. *)
Definition file_chars : Re.atom :=
  Re.Set_ [("0", "9"); ("a", "z"); ("A", "Z"); (".", "."); ("-", "-");
           ("_", "_")]%char.

(** A pattern that matches only where [key] starts. *)
Definition begins_with (r : Re.regex) (key : str) : Prop :=
  forall s, Str.startswith s key = false -> Re.match_at r s = None.

(** What the tokenizer of a template holds in front of a text without
    backslash. *)
Definition plain_tokenizer (s : str) : Re.tokenizer :=
  match s with
  | [] => {| Re.next := None; Re.rest := [] |}
  | c :: s' => {| Re.next := Some (Re.Chr c); Re.rest := s' |}
  end.

End Pattern.

(** String literals below are Python's; [++] joins lists of characters. *)
Open Scope string_scope.
Open Scope list_scope.

(** ** helpers/copy_param/process_common.py *)

(** [get_file_name_with_version(file_)] *)
Definition get_file_name_with_version (file_ : str) : result str :=
  if Str.endswith file_ ".py" then
    let py_ : str := "_V(\d+).py$" in
    found <- Re.search py_ file_ ;;
    match found with
    | Some m =>
        g <- Re.group m ;;
        match g with
        | Some digits =>
            let v_num := Str.int digits + 1 in
            Re.sub py_ ("_V" ++ Str.of_nat v_num ++ ".py") file_ 0
        | None => Error TypeError
        end
    | None => Re.sub ".py$" "_V1.py" file_ 0
    end
  else
    let p_ : str := "_V\d+.p$" in
    found <- Re.search p_ file_ ;;
    match found with
    | Some m =>
        g <- Re.group m ;;
        match g with
        | Some digits =>
            let v_num := Str.int digits + 1 in
            Re.sub p_ ("_V" ++ Str.of_nat v_num ++ ".p") file_ 0
        | None => Error TypeError
        end
    | None => Re.sub ".p$" "_V1.p" file_ 0
    end.

(** More of Python's [str]. *)

Module StrOps.

(** The last occurrence of [sep] in [s]: the text before it and the text
    after it. *)
Fixpoint rsplit1 (s sep : str) : option (str * str) :=
  match s with
  | [] => None
  | c :: s' =>
      match rsplit1 s' sep with
      | Some (head, tail) => Some (c :: head, tail)
      | None =>
          if Str.startswith s sep then Some ([], skipn (length sep) s)
          else None
      end
  end.

(** [s.rpartition(sep)], for a separator that is not empty. *)
Definition rpartition (s sep : str) : str * str * str :=
  match rsplit1 s sep with
  | Some (head, tail) => (head, sep, tail)
  | None => ([], [], s)
  end.

(** [c in chars] *)
Definition mem (c : ascii) (chars : str) : bool :=
  existsb (Ascii.eqb c) chars.

(** [s.lstrip(chars)], [s.rstrip(chars)] and [s.strip(chars)]: the
    characters of [chars] are removed from the ends. *)
Fixpoint lstrip (s chars : str) : str :=
  match s with
  | [] => []
  | c :: s' => if mem c chars then lstrip s' chars else s
  end.

Definition rstrip (s chars : str) : str := rev (lstrip (rev s) chars).

Definition strip (s chars : str) : str := rstrip (lstrip s chars) chars.

(** [sep.join(parts)] *)
Fixpoint join (sep : str) (parts : list str) : str :=
  match parts with
  | [] => []
  | p :: rest =>
      match rest with
      | [] => p
      | _ :: _ => p ++ sep ++ join sep rest
      end
  end.

End StrOps.

(** [check_version_build_file_path(file_, neuron_type, fit_number)], for
    a fit number that is a natural number.  The second search cannot fail
    where the first has succeeded: the two patterns differ by the group
    only. *)
Definition check_version_build_file_path (file_ neuron_type : str)
    (fit_number : nat) : result str :=
  let '(abs_file_name, sep, extn) := StrOps.rpartition file_ "." in
  found <- Re.search "_V\d*$" abs_file_name ;;
  match found with
  | Some _ =>
      m <- Re.search "_(V\d*)$" abs_file_name ;;
      match m with
      | Some m =>
          g <- Re.group m ;;
          match g with
          | Some post_fix =>
              let abs_file_name :=
                StrOps.strip abs_file_name ("_" ++ post_fix) in
              Ok (StrOps.join "_" [abs_file_name; neuron_type;
                                   Str.of_nat fit_number; post_fix]
                  ++ sep ++ extn)
          | None => Error TypeError
          end
      | None => Error TypeError   (* not reached *)
      end
  | None =>
      Ok (StrOps.join "_" [abs_file_name; neuron_type; Str.of_nat fit_number]
          ++ sep ++ extn)
  end.

(** ** helpers/save_param/process_morph.py *)

(** [update_morph_file_name(line, neuron_type, file_name)] *)
Definition update_morph_file_name (line neuron_type file_name : str)
  : result str :=
  let pattern : str :=
    "\'" ++ neuron_type ++ "\'\s*:\s*\'[0-9a-zA-Z\.\-_]+\'" in
  let repl : str := "'" ++ neuron_type ++ "':'" ++ file_name ++ "'" in
  Re.sub pattern repl line 0.

(** ** basic_simulation.py *)

(** One round of the loop of [morph_morph_file]: [value] is the text that
    [format] gives for the override, [None] when there is none. *)
Definition morph_param (param : str) (value : option str) (t : str)
  : result str :=
  match value with
  | Some value =>
      let pat : str := "(\*set_global " ++ param ++ ") .*" in
      let repl : str := "\1 " ++ value in
      Re.sub pat repl t 1
  | None => Ok t
  end.

(** [morph_morph_file]: the text written to [new_file], from the text [t]
    read from the morphology file. *)
Definition morph_morph_file (t : str) (RA RM CM : option str) : result str :=
  t <- morph_param "RA" RA t ;;
  t <- morph_param "RM" RM t ;;
  t <- morph_param "CM" CM t ;;
  Ok t.

(** ** The specification's words, for comparison

    What the specification says the morphology rewrite does, written on
    the text directly, without [re]. *)

Module Spec.

(** [s.partition(sep)]: the text before the first occurrence of [sep] and
    the text after it; [None] when [sep] does not occur. *)
Fixpoint partition (s sep : str) : option (str * str) :=
  if Str.startswith s sep then Some ([], skipn (length sep) s)
  else match s with
       | [] => None
       | c :: s' =>
           match partition s' sep with
           | Some (pre, rest) => Some (c :: pre, rest)
           | None => None
           end
       end.

(** The text from the end of the current line on. *)
Fixpoint line_end (s : str) : str :=
  match s with
  | [] => []
  | c :: s' => if Ascii.eqb c Str.newline then s else line_end s'
  end.

(** How a directive starts. *)
Definition directive (param : str) : str := "*set_global " ++ param ++ " ".

(** The first directive of [param], with the rest of its line, replaced by
    the directive with [value]; nothing else changes. *)
Definition rewrite_first (param : str) (value : option str) (t : str) : str :=
  match value with
  | Some value =>
      match partition t (directive param) with
      | Some (pre, rest) => pre ++ directive param ++ value ++ line_end rest
      | None => t
      end
  | None => t
  end.

(** [s.split('\n')] *)
Fixpoint lines (s : str) : list str :=
  match s with
  | [] => [[]]
  | c :: s' =>
      if Ascii.eqb c Str.newline then [] :: lines s'
      else match lines s' with
           | l :: ls => (c :: l) :: ls
           | [] => [[c]]
           end
  end.

(** The index of the first line that contains [sub]. *)
Fixpoint first_line_with (sub : str) (ls : list str) : option nat :=
  match ls with
  | [] => None
  | l :: ls' =>
      if Str.contains l sub then Some 0
      else option_map S (first_line_with sub ls')
  end.

(** The overrides that are given, in the order of the loop. *)
Definition overrides (RA RM CM : option str) : list (str * str) :=
  (match RA with Some v => [("RA" : str, v)] | None => [] end) ++
  (match RM with Some v => [("RM" : str, v)] | None => [] end) ++
  (match CM with Some v => [("CM" : str, v)] | None => [] end).

(** For each override whose directive occurs in [ls], the line of its
    first occurrence. *)
Definition first_lines (ls : list str) (ovs : list (str * str)) : list nat :=
  flat_map (fun ov => match first_line_with (directive (fst ov)) ls with
                      | Some k => [k]
                      | None => []
                      end) ovs.

(** No two overridden parameters have their first directive on the same
    line of [t]. *)
Fixpoint distinct (ks : list nat) : bool :=
  match ks with
  | [] => true
  | k :: ks' => negb (existsb (Nat.eqb k) ks') && distinct ks'
  end.

Definition on_different_lines (t : str) (RA RM CM : option str) : bool :=
  distinct (first_lines (lines t) (overrides RA RM CM)).

(** The frame of the rewrite: [out] has the lines of [t], except for the
    lines that hold the first directive of an overridden parameter. *)
Definition only_first_directive_lines_change
    (t : str) (RA RM CM : option str) (out : str) : bool :=
  let src := lines t in
  let dst := lines out in
  (length dst =? length src)%nat &&
  forallb (fun i =>
             Str.eqb (nth i dst []) (nth i src []) ||
             existsb (Nat.eqb i) (first_lines src (overrides RA RM CM)))
          (seq 0 (length src)).

(** An override whose text has no backslash, as the text of a number. *)
Definition plain (value : option str) : Prop :=
  match value with
  | Some v => ~ In Str.backslash v
  | None => True
  end.

End Spec.

(** The rewrite of the morphology text, seen on its lines. *)

Module Lines.

(** ['\n'.join(ls)] *)
Definition unlines (ls : list str) : str := StrOps.join [Str.newline] ls.

(** The first line that holds the directive [dir] ends, from the
    directive on, with [value]; the other lines stay. *)
Fixpoint rewrite_first (dir value : str) (ls : list str) : list str :=
  match ls with
  | [] => []
  | l :: ls' =>
      match Spec.partition l dir with
      | Some (pre, _) => (pre ++ dir ++ value) :: ls'
      | None => l :: rewrite_first dir value ls'
      end
  end.

(** The rewrites of the overrides [ovs], one after the other. *)
Definition rewrite_all (ovs : list (str * str)) (ls : list str) : list str :=
  fold_left (fun ls ov => rewrite_first (Spec.directive (fst ov)) (snd ov) ls)
            ovs ls.

(** An override that can be followed on the lines: a parameter of letters
    and digits, a value without backslash and without newline. *)
Definition plain_override (ov : str * str) : Prop :=
  Forall (fun c => Str.is_alnum c = true) (fst ov) /\
  ~ In Str.backslash (snd ov) /\ ~ In Str.newline (snd ov).

End Lines.
(** * Properties *)

Unset Implicit Arguments.

(** C1 (evaluation at the failing input).  When each of the eleven axes
    evaluates to 4, the code returns 16: the squares taken inside the
    generator are squared again before the sum, so the result is the root of
    the mean fourth power.  The root mean square the specification describes
    is 4. *)
Theorem simple_combined_fitness_squares_twice :
  let four := fun (_ _ : unit) => 4%float in
  simple_combined_fitness four four four four four four four four four four
                          four tt tt
    = 16%float /\
  rms_of_axes four four four four four four four four four four four tt tt
    = 4%float /\
  simple_combined_fitness_full four four four four four four four four four
                               four four tt tt
    = repeat 16%float 11.
Proof. repeat split; vm_compute; reflexivity. Qed.

(** ** float64 order facts *)

Section FloatFacts.

Open Scope float_scope.

Lemma isnan_spec (x : float) : Np.isnan x = negb (SFeqb (Prim2SF x) (Prim2SF x)).
Proof. unfold Np.isnan, is_nan. now rewrite eqb_spec. Qed.

Lemma isnan_infinity : Np.isnan infinity = false.
Proof. reflexivity. Qed.

Lemma infinity_not_below_itself : (infinity <? infinity) = false.
Proof. reflexivity. Qed.

Lemma infinity_leb_itself : (infinity <=? infinity) = true.
Proof. reflexivity. Qed.

Lemma Prim2SF_infinity : Prim2SF infinity = S754_infinity false.
Proof. reflexivity. Qed.

(** A finite float64 is below [+inf]. *)
Lemma finite_below_infinity (x : float) :
  is_finite x = true -> (x <? infinity) = true.
Proof.
  unfold is_finite, is_nan, is_infinity.
  rewrite !eqb_spec, abs_spec, ltb_spec, Prim2SF_infinity.
  destruct (Prim2SF x) as [s|s| |s m e]; try destruct s; cbn; congruence.
Qed.

(** Whatever is below [+inf] is a number. *)
Lemma below_infinity_not_nan (x : float) :
  (x <? infinity) = true -> Np.isnan x = false.
Proof.
  rewrite isnan_spec, ltb_spec, Prim2SF_infinity.
  destruct (Prim2SF x) as [s|s| |s m e]; try destruct s; cbn; try congruence.
  all: intros _; unfold SFeqb; cbn; rewrite ?Z.compare_refl, ?Pos.compare_cont_refl;
    reflexivity.
Qed.

(** A number that is not [>=] another number is below [+inf]. *)
Lemma not_geb_below_infinity (mp x : float) :
  Np.isnan mp = false -> Np.isnan x = false ->
  (mp <=? x) = false -> (x <? infinity) = true.
Proof.
  rewrite !isnan_spec, leb_spec, ltb_spec, Prim2SF_infinity.
  destruct (Prim2SF x) as [s|s| |s m e], (Prim2SF mp) as [s'|s'| |s' m' e'];
    try destruct s; try destruct s'; cbn; congruence.
Qed.

(** Whatever is [<=] a float below [+inf] is below [+inf]. *)
Lemma leb_below_infinity (mp x : float) :
  (mp <=? x) = true -> (x <? infinity) = true -> (mp <? infinity) = true.
Proof.
  rewrite leb_spec, !ltb_spec, Prim2SF_infinity.
  destruct (Prim2SF x) as [s|s| |s m e], (Prim2SF mp) as [s'|s'| |s' m' e'];
    try destruct s; try destruct s'; cbn; congruence.
Qed.

(** A number is [+inf] or below it. *)
Lemma number_is_infinity_or_below (x : float) :
  Np.isnan x = false -> (x <? infinity) = false -> Prim2SF x = S754_infinity false.
Proof.
  rewrite isnan_spec, ltb_spec, Prim2SF_infinity.
  destruct (Prim2SF x) as [s|s| |s m e]; try destruct s; cbn; congruence.
Qed.

End FloatFacts.

(** ** [argmin] after the not-a-number scores became [+inf] *)

Section Argmin.

Open Scope float_scope.

Lemma nan_to_inf_numbers (w : list float) :
  Forall (fun x => Np.isnan x = false) (Np.nan_to_inf w).
Proof.
  unfold Np.nan_to_inf. apply Forall_forall. intros y Hy.
  apply in_map_iff in Hy. destruct Hy as [x [<- _]].
  destruct (Np.isnan x) eqn:E; [apply isnan_infinity | exact E].
Qed.

Lemma nth_error_snoc {A : Type} (pre : list A) (x : A) (a : list A) :
  nth_error ((pre ++ [x]) ++ a) (length pre) = Some x.
Proof.
  rewrite <- app_assoc. rewrite nth_error_app2 by lia.
  now rewrite Nat.sub_diag.
Qed.

(** The scan keeps an index into the array, and once a value below [+inf]
    has been seen the value at the kept index is below [+inf]. *)
Lemma argmin_loop_below (a : list float) :
  forall (pre : list float) (mp : float) (mi : nat),
    Forall (fun x => Np.isnan x = false) a ->
    Np.isnan mp = false ->
    nth_error (pre ++ a) mi = Some mp ->
    exists v,
      nth_error (pre ++ a) (Np.argmin_loop mp mi (length pre) a) = Some v /\
      ((mp <? infinity) = true \/ Exists (fun x => (x <? infinity) = true) a ->
       (v <? infinity) = true).
Proof.
  induction a as [|x a IH]; intros pre mp mi Hnum Hmp Hmi; cbn.
  - exists mp. split; [exact Hmi|].
    intros [H|H]; [exact H | inversion H].
  - inversion Hnum as [|? ? Hx Ha]; subst.
    rewrite Hx.
    assert (Happ : pre ++ x :: a = (pre ++ [x]) ++ a)
      by (rewrite <- app_assoc; reflexivity).
    assert (Hlen : S (length pre) = length (pre ++ [x]))
      by (rewrite length_app; cbn; lia).
    destruct (mp <=? x) eqn:Hle; cbn.
    + rewrite Happ, Hlen.
      destruct (IH (pre ++ [x]) mp mi Ha Hmp) as [v [Hv Hbelow]].
      { rewrite <- Happ. exact Hmi. }
      exists v. split; [exact Hv|].
      intros [H|H]; apply Hbelow.
      * now left.
      * inversion H as [? ? Hx'|? ? Ha']; subst.
        -- left. eapply leb_below_infinity; eassumption.
        -- now right.
    + rewrite Happ, Hlen.
      destruct (IH (pre ++ [x]) x (length pre) Ha Hx) as [v [Hv Hbelow]].
      { apply nth_error_snoc. }
      exists v. split; [exact Hv|].
      intros _. apply Hbelow. left.
      now apply not_geb_below_infinity with (mp := mp).
Qed.

(** Over an array of [+inf] the scan never moves. *)
Lemma argmin_loop_all_infinity (a : list float) :
  forall mi i,
    Forall (fun x => x = infinity) a ->
    Np.argmin_loop infinity mi i a = mi.
Proof.
  induction a as [|x a IH]; intros mi i H; [reflexivity|].
  inversion H; subst. cbn [Np.argmin_loop].
  rewrite infinity_leb_itself. cbn [negb]. now apply IH.
Qed.

End Argmin.

(** ** Indexing by a list of indices *)

Section Take.

Context {A : Type}.

Lemma take_lookup (arr : list A) (idx : list nat) :
  Forall (fun i => i < length arr) idx ->
  map Some (Np.take arr idx) = map (nth_error arr) idx.
Proof.
  induction 1 as [|i idx Hi _ IH]; [reflexivity|].
  unfold Np.take in *. cbn [flat_map map].
  destruct (nth_error arr i) eqn:E.
  - cbn. now rewrite IH.
  - apply nth_error_None in E. lia.
Qed.

Lemma take_nth_error (arr : list A) (idx : list nat) (p : nat) (x : A) :
  Forall (fun i => i < length arr) idx ->
  nth_error (Np.take arr idx) p = Some x ->
  exists i, nth_error idx p = Some i /\ nth_error arr i = Some x.
Proof.
  intros Hvalid Hp.
  assert (H : nth_error (map Some (Np.take arr idx)) p = Some (Some x))
    by (rewrite nth_error_map, Hp; reflexivity).
  rewrite take_lookup in H by exact Hvalid.
  rewrite nth_error_map in H.
  destruct (nth_error idx p) as [i|]; [|discriminate].
  exists i. split; [reflexivity|]. now inversion H.
Qed.

Lemma take_seq (pre arr : list A) :
  Np.take (pre ++ arr) (seq (length pre) (length arr)) = arr.
Proof.
  revert pre. induction arr as [|x arr IH]; intros pre; [reflexivity|].
  cbn [length seq]. unfold Np.take in *. cbn [flat_map].
  rewrite nth_error_app2 by lia. rewrite Nat.sub_diag. cbn [nth_error app].
  f_equal.
  specialize (IH (pre ++ [x])).
  rewrite <- app_assoc, length_app in IH. cbn in IH.
  rewrite Nat.add_1_r in IH. exact IH.
Qed.

Lemma take_permutation (arr : list A) (idx : list nat) :
  Permutation idx (seq 0 (length arr)) -> Permutation (Np.take arr idx) arr.
Proof.
  intros H.
  rewrite <- (take_seq [] arr) at 2.
  unfold Np.take. now apply Permutation_flat_map.
Qed.

Lemma permutation_of_seq_valid (n : nat) (idx : list nat) :
  Permutation idx (seq 0 n) -> Forall (fun i => i < n) idx.
Proof.
  intros H. apply Forall_forall. intros i Hi.
  apply (Permutation_in _ H) in Hi. apply in_seq in Hi. lia.
Qed.

End Take.

Lemma ascending_pairwise (a : list float) (order : list nat) :
  Np.ascending a order = true ->
  forall p q i j, p < q ->
    nth_error order p = Some i -> nth_error order q = Some j ->
    Np.sort_lt (nth j a nan) (nth i a nan) = false.
Proof.
  induction order as [|k order IH]; intros H p q i j Hpq Hp Hq.
  - destruct p; discriminate.
  - cbn in H. apply andb_true_iff in H. destruct H as [Hk Hrest].
    destruct q as [|q]; [lia|]. cbn in Hq.
    destruct p as [|p].
    + cbn in Hp. inversion Hp; subst k.
      rewrite forallb_forall in Hk.
      apply nth_error_In in Hq. apply Hk in Hq.
      now apply negb_true_iff in Hq.
    + cbn in Hp. apply (IH Hrest p q); [lia|assumption|assumption].
Qed.

(** Case analysis on the exponent and mantissa comparisons that
    [SFcompare] makes. *)
Ltac sf_cases :=
  repeat match goal with
  | |- context [Pos.compare_cont Eq ?a ?b] =>
      change (Pos.compare_cont Eq a b) with (Pos.compare a b)
  | H : context [Pos.compare_cont Eq ?a ?b] |- _ =>
      change (Pos.compare_cont Eq a b) with (Pos.compare a b) in H
  end;
  repeat match goal with
  | H : context [Z.compare ?a ?b] |- _ =>
      destruct (Z.compare_spec a b); subst
  | |- context [Z.compare ?a ?b] =>
      destruct (Z.compare_spec a b); subst
  | H : context [Pos.compare ?a ?b] |- _ =>
      destruct (Pos.compare_spec a b); subst
  | |- context [Pos.compare ?a ?b] =>
      destruct (Pos.compare_spec a b); subst
  end; cbn in *; try congruence; try lia.

(** ** The sorting order of float64 and the insertion-sort [argsort] *)

Section SortOrder.

Open Scope float_scope.

Lemma SFltb_trans (a b c : spec_float) :
  SFltb a b = true -> SFltb b c = true -> SFltb a c = true.
Proof.
  unfold SFltb, SFcompare.
  destruct a as [s1|s1| |s1 m1 e1], b as [s2|s2| |s2 m2 e2],
           c as [s3|s3| |s3 m3 e3];
    try destruct s1; try destruct s2; try destruct s3; cbn; try congruence.
  all: intros; sf_cases.
Qed.

Lemma SFltb_asym (a b : spec_float) :
  SFltb a b = true -> SFltb b a = false.
Proof.
  unfold SFltb, SFcompare.
  destruct a as [s1|s1| |s1 m1 e1], b as [s2|s2| |s2 m2 e2];
    try destruct s1; try destruct s2; cbn; try congruence.
  all: intros; sf_cases.
Qed.

Lemma SFeqb_self (x : spec_float) :
  SFeqb x x = match x with S754_nan => false | _ => true end.
Proof.
  unfold SFeqb, SFcompare.
  destruct x as [s|s| |s m e]; try destruct s; cbn; try reflexivity.
  all: rewrite Z.compare_refl, Pos.compare_cont_refl; reflexivity.
Qed.

Lemma SFltb_nan_l (x : spec_float) : SFltb S754_nan x = false.
Proof. reflexivity. Qed.

Lemma SFltb_nan_r (x : spec_float) : SFltb x S754_nan = false.
Proof. now destruct x. Qed.

Lemma sort_lt_spec (a b : float) :
  Np.sort_lt a b =
  match Prim2SF a, Prim2SF b with
  | S754_nan, _ => false
  | _, S754_nan => true
  | x, y => SFltb x y
  end.
Proof.
  unfold Np.sort_lt. rewrite !isnan_spec, ltb_spec, !SFeqb_self.
  destruct (Prim2SF a) as [s|s| |s m e], (Prim2SF b) as [s'|s'| |s' m' e'];
    cbn; rewrite ?orb_false_r; reflexivity.
Qed.

Lemma sort_lt_trans (a b c : float) :
  Np.sort_lt a b = true -> Np.sort_lt b c = true -> Np.sort_lt a c = true.
Proof.
  rewrite !sort_lt_spec.
  pose proof (SFltb_trans (Prim2SF a) (Prim2SF b) (Prim2SF c)) as H.
  destruct (Prim2SF a) as [s|s| |s m e], (Prim2SF b) as [s'|s'| |s' m' e'],
           (Prim2SF c) as [s''|s''| |s'' m'' e'']; try congruence; exact H.
Qed.

Lemma sort_lt_asym (a b : float) :
  Np.sort_lt a b = true -> Np.sort_lt b a = false.
Proof.
  rewrite !sort_lt_spec.
  pose proof (SFltb_asym (Prim2SF a) (Prim2SF b)) as H.
  destruct (Prim2SF a) as [s|s| |s m e], (Prim2SF b) as [s'|s'| |s' m' e'];
    try congruence; exact H.
Qed.

Variable key : nat -> float.

(** No later index has a key below an earlier one. *)
Definition ascending_by (l : list nat) : Prop :=
  StronglySorted (fun i j => Np.sort_lt (key j) (key i) = false) l.

Lemma insert_index_perm (i : nat) (l : list nat) :
  Permutation (Np.insert_index key i l) (i :: l).
Proof.
  induction l as [|j l IH]; cbn; [reflexivity|].
  destruct (Np.sort_lt (key i) (key j)); [reflexivity|].
  rewrite IH. apply perm_swap.
Qed.

Lemma insert_index_ascending (i : nat) (l : list nat) :
  ascending_by l -> ascending_by (Np.insert_index key i l).
Proof.
  unfold ascending_by.
  induction 1 as [|j l Hl IH Hj]; cbn; [repeat constructor|].
  destruct (Np.sort_lt (key i) (key j)) eqn:E.
  - constructor; [now constructor|].
    constructor; [now apply sort_lt_asym|].
    rewrite Forall_forall in *. intros z Hz.
    destruct (Np.sort_lt (key z) (key i)) eqn:Ez; [|reflexivity].
    rewrite <- (Hj z Hz). symmetry. now apply sort_lt_trans with (b := key i).
  - constructor; [exact IH|].
    rewrite Forall_forall in *. intros z Hz.
    apply (Permutation_in _ (insert_index_perm i l)) in Hz.
    destruct Hz as [<-|Hz]; [exact E | now apply Hj].
Qed.

Lemma insert_all_perm (l acc : list nat) :
  Permutation (fold_left (fun acc i => Np.insert_index key i acc) l acc)
              (l ++ acc).
Proof.
  revert acc. induction l as [|i l IH]; intros acc; cbn; [reflexivity|].
  rewrite IH, insert_index_perm. symmetry. apply Permutation_middle.
Qed.

Lemma insert_all_ascending (l acc : list nat) :
  ascending_by acc ->
  ascending_by (fold_left (fun acc i => Np.insert_index key i acc) l acc).
Proof.
  revert acc. induction l as [|i l IH]; intros acc H; cbn; [exact H|].
  apply IH. now apply insert_index_ascending.
Qed.

End SortOrder.

Lemma ascending_by_bool (a : list float) (order : list nat) :
  ascending_by (fun k => nth k a nan) order -> Np.ascending a order = true.
Proof.
  unfold ascending_by.
  induction 1 as [|i rest Hrest IH Hi]; cbn; [reflexivity|].
  rewrite IH, andb_true_r. apply forallb_forall. intros j Hj.
  rewrite Forall_forall in Hi. now rewrite (Hi j Hj).
Qed.

(** The insertion sort meets the contract of [argsort] on every array. *)
Lemma argsort_is_argsort (a : list float) : Np.is_argsort a (Np.argsort a).
Proof.
  unfold Np.is_argsort, Np.argsort. split.
  - rewrite insert_all_perm. now rewrite app_nil_r.
  - apply ascending_by_bool. apply insert_all_ascending. constructor.
Qed.

(** ** [find_best] and [fit_sort] *)

Section SelectionFacts.

Open Scope float_scope.

Variables candidate measurement : Type.
Variable fitness : candidate -> measurement -> float.
Variable meas : measurement.

Lemma replaced_scores (group : list candidate) :
  Np.nan_to_inf (score_all fitness group meas) = map (sort_key fitness meas) group.
Proof.
  unfold Np.nan_to_inf, score_all, sort_key. now rewrite map_map.
Qed.

Lemma sort_key_number (sim : candidate) :
  Np.isnan (sort_key fitness meas sim) = false.
Proof.
  unfold sort_key. destruct (Np.isnan (fitness sim meas)) eqn:E;
    [apply isnan_infinity | exact E].
Qed.

Lemma finite_not_nan (x : float) : is_finite x = true -> Np.isnan x = false.
Proof.
  unfold is_finite, Np.isnan. intros H. apply negb_true_iff in H.
  now apply orb_false_iff in H.
Qed.

Lemma sort_key_finite (sim : candidate) :
  is_finite (fitness sim meas) = true ->
  (sort_key fitness meas sim <? infinity) = true.
Proof.
  intros H. unfold sort_key. rewrite (finite_not_nan _ H).
  now apply finite_below_infinity.
Qed.

Lemma sort_key_below_not_nan (sim : candidate) :
  (sort_key fitness meas sim <? infinity) = true ->
  Np.isnan (fitness sim meas) = false.
Proof.
  unfold sort_key. destruct (Np.isnan (fitness sim meas)); [|reflexivity].
  now rewrite infinity_not_below_itself.
Qed.

Lemma sort_key_of_nan (sim : candidate) :
  Np.isnan (fitness sim meas) = true -> sort_key fitness meas sim = infinity.
Proof. unfold sort_key. now intros ->. Qed.

Lemma find_best_not_nan (group : list candidate) :
  (exists sim, In sim group /\ is_finite (fitness sim meas) = true) ->
  exists best, find_best group meas fitness = Ok best /\ In best group /\
               Np.isnan (fitness best meas) = false.
Proof.
  intros [fin [Hin Hfin]].
  unfold find_best. rewrite replaced_scores.
  destruct group as [|c0 rest]; [contradiction|].
  cbn [map Np.argmin]. rewrite sort_key_number. cbn [bind].
  destruct (@argmin_loop_below (map (sort_key fitness meas) rest)
              [sort_key fitness meas c0] (sort_key fitness meas c0) 0)
    as [v [Hv Hbelow]].
  { rewrite <- replaced_scores. apply nan_to_inf_numbers. }
  { apply sort_key_number. }
  { reflexivity. }
  cbn [length app] in Hv.
  change (sort_key fitness meas c0 :: map (sort_key fitness meas) rest)
    with (map (sort_key fitness meas) (c0 :: rest)) in Hv.
  rewrite nth_error_map in Hv.
  destruct (nth_error (c0 :: rest) _) as [best|] eqn:Hbest; [|discriminate].
  cbn in Hv. inversion Hv as [Hkey]. clear Hv.
  exists best. split; [reflexivity|]. split; [now apply nth_error_In in Hbest|].
  apply sort_key_below_not_nan. rewrite Hkey. apply Hbelow.
  destruct Hin as [<-|Hin].
  - left. now apply sort_key_finite.
  - right. apply Exists_exists. exists (sort_key fitness meas fin).
    split; [now apply in_map | now apply sort_key_finite].
Qed.

Lemma fit_sort_by_sorted (argsort : list float -> list nat)
    (group : list candidate) :
  let w := Np.nan_to_inf (score_all fitness group meas) in
  Np.is_argsort w (argsort w) ->
  sorted_nan_last fitness meas group (fit_sort_by argsort group meas fitness).
Proof.
  intros w [Hperm Hasc].
  set (sorted := fit_sort_by argsort group meas fitness).
  assert (Hlen : length w = length group).
  { unfold w. rewrite replaced_scores. apply length_map. }
  rewrite Hlen in Hperm.
  assert (Hvalid : Forall (fun i => i < length group) (argsort w))
    by now apply permutation_of_seq_valid.
  assert (Hpair : forall i j ci cj, i < j ->
     nth_error sorted i = Some ci -> nth_error sorted j = Some cj ->
     (sort_key fitness meas cj <? sort_key fitness meas ci) = false).
  { intros i j ci cj Hij Hi Hj.
    destruct (take_nth_error _ _ _ _ Hvalid Hi) as [ki [Hki Hci]].
    destruct (take_nth_error _ _ _ _ Hvalid Hj) as [kj [Hkj Hcj]].
    pose proof (ascending_pairwise _ _ Hasc _ _ _ _ Hij Hki Hkj) as H.
    unfold w in H. rewrite replaced_scores in H.
    rewrite (nth_error_nth _ _ nan (map_nth_error (sort_key fitness meas) _ _ Hcj)) in H.
    rewrite (nth_error_nth _ _ nan (map_nth_error (sort_key fitness meas) _ _ Hci)) in H.
    unfold Np.sort_lt in H. now apply orb_false_iff in H. }
  split; [|split].
  - now apply take_permutation.
  - exact Hpair.
  - intros i j ci cj Hi Hj Hnan Hfin.
    destruct (Nat.lt_trichotomy j i) as [Hlt|[Heq|Hgt]]; [exact Hlt| |].
    + subst j. rewrite Hi in Hj. inversion Hj; subst cj.
      rewrite (finite_not_nan _ Hfin) in Hnan. discriminate.
    + pose proof (Hpair i j ci cj Hgt Hi Hj) as H.
      rewrite (sort_key_of_nan _ Hnan), (sort_key_finite _ Hfin) in H.
      discriminate.
Qed.

End SelectionFacts.

(** C9.  For every non-empty group in which every candidate's fitness is
    not-a-number, [find_best] does not raise and returns the first
    candidate of the group. *)
Theorem find_best_all_nan_returns_first :
  forall (candidate measurement : Type)
         (fitness : candidate -> measurement -> float) (meas : measurement)
         (first : candidate) (rest : list candidate),
    Forall (fun sim => Np.isnan (fitness sim meas) = true) (first :: rest) ->
    find_best (first :: rest) meas fitness = Ok first.
Proof.
  intros candidate measurement fitness meas first rest Hall.
  unfold find_best. rewrite replaced_scores.
  inversion Hall as [|? ? Hfirst Hrest]; subst.
  cbn [map Np.argmin].
  rewrite sort_key_of_nan by exact Hfirst. rewrite isnan_infinity.
  rewrite argmin_loop_all_infinity; [reflexivity|].
  apply Forall_forall. intros k Hk. apply in_map_iff in Hk.
  destruct Hk as [sim [<- Hsim]]. apply sort_key_of_nan.
  rewrite Forall_forall in Hrest. now apply Hrest.
Qed.

Lemma find_best_all_nan_returns_first_witness :
  Forall (fun sim : nat => Np.isnan ((fun _ _ => nan) sim tt) = true) [7; 8; 9] /\
  find_best [7; 8; 9] tt (fun _ _ => nan) = Ok 7.
Proof.
  assert (H : Forall (fun sim : nat => Np.isnan ((fun _ _ => nan) sim tt) = true)
                     [7; 8; 9])
    by (repeat constructor).
  split; [exact H|].
  exact (find_best_all_nan_returns_first nat unit (fun _ _ => nan) tt 7 [8; 9] H).
Defined.

(** C7.  In a group with at least one candidate of finite score and at
    least one candidate whose score is not-a-number, [find_best] returns a
    candidate of the group whose score is a number; [fit_sort] returns the
    candidates in ascending order of score with every candidate scored
    not-a-number after every candidate of finite score; and so does
    [fit_sort] over any sorting routine that meets the contract of
    [argsort]. *)
Theorem find_best_fit_sort_nan_last :
  forall (candidate measurement : Type)
         (fitness : candidate -> measurement -> float) (meas : measurement)
         (group : list candidate),
    (exists sim, In sim group /\ is_finite (fitness sim meas) = true) ->
    (exists sim, In sim group /\ Np.isnan (fitness sim meas) = true) ->
    (exists best, find_best group meas fitness = Ok best /\ In best group /\
                  Np.isnan (fitness best meas) = false) /\
    sorted_nan_last fitness meas group (fit_sort group meas fitness) /\
    (forall argsort : list float -> list nat,
        let w := Np.nan_to_inf (score_all fitness group meas) in
        Np.is_argsort w (argsort w) ->
        sorted_nan_last fitness meas group
                        (fit_sort_by argsort group meas fitness)).
Proof.
  intros candidate measurement fitness meas group Hfin _.
  split; [|split].
  - now apply find_best_not_nan.
  - apply fit_sort_by_sorted. apply argsort_is_argsort.
  - intros argsort. apply fit_sort_by_sorted.
Qed.

Lemma find_best_fit_sort_nan_last_witness :
  exists best,
    find_best [1; nan; 0.5; nan; 2]%float tt (fun c _ => c) = Ok best /\
    Np.isnan best = false.
Proof.
  destruct (find_best_fit_sort_nan_last float unit (fun c _ => c) tt
              [1; nan; 0.5; nan; 2]%float) as [[best [Hbest [_ Hnum]]] _].
  - exists 1%float. split; [left; reflexivity | reflexivity].
  - exists nan. split; [right; left; reflexivity | reflexivity].
  - exists best. split; [exact Hbest | exact Hnum].
Defined.

(** ** The Pareto accumulator *)

Section ParetoFacts.

Import Pareto.
Open Scope float_scope.

Variables candidate measurement : Type.
Variable fitness : candidate -> measurement -> list float.
Variable meas : measurement.

(** The common length of the score vectors. *)
Variable m : nat.
Hypothesis m_pos : 0 < m.

Let score (sim : candidate) : list float := fitness sim meas.
Let sized (l : list candidate) : Prop :=
  Forall (fun sim => length (score sim) = m) l.

Lemma forallb_id_map {A : Type} (g : A -> bool) (l : list A) :
  forallb (fun x => x) (map g l) = forallb g l.
Proof. induction l as [|x l IH]; cbn; [reflexivity | now rewrite IH]. Qed.

Lemma all_lt_same_length (a b : list float) :
  length a = length b -> all_lt a b = Ok (below_on_every_axis a b).
Proof.
  intros H. unfold all_lt, broadcast.
  rewrite H, Nat.eqb_refl. cbn [bind].
  unfold below_on_every_axis. now rewrite forallb_id_map.
Qed.

Lemma scored_cons (sim : candidate) (group : list candidate) :
  scored fitness meas (sim :: group)
  = if has_nan (score sim) then scored fitness meas group
    else sim :: scored fitness meas group.
Proof.
  unfold scored. cbn [filter]. fold (score sim).
  now destruct (has_nan (score sim)).
Qed.

(** A candidate with a not-a-number among its scores is passed over. *)
Lemma step_misfit (st : kept candidate) (sim : candidate) :
  has_nan (score sim) = true -> step fitness meas st sim = Ok st.
Proof.
  intros H. unfold step. destruct st as [best scores].
  unfold has_nan in H. fold (score sim). now rewrite H.
Qed.

(** The first scored candidate is kept. *)
Lemma step_first (sim : candidate) :
  has_nan (score sim) = false ->
  step fitness meas ([], []) sim = Ok ([sim], [score sim]).
Proof.
  intros H. unfold step. unfold has_nan in H. fold (score sim).
  now rewrite H.
Qed.

(** With one candidate kept, the next scored candidate reaches
    [best[-dominates]]. *)
Lemma step_second (a sim : candidate) :
  length (score a) = m -> length (score sim) = m ->
  has_nan (score sim) = false ->
  step fitness meas ([a], [score a]) sim = Error TypeError.
Proof.
  intros Ha Hsim H. unfold step. unfold has_nan in H. fold (score sim).
  rewrite H. cbn [scan_kept dominated_rows].
  rewrite !all_lt_same_length by congruence. cbn [bind].
  replace (size2 [score a] =? 0)%nat with false.
  - now destruct (below_on_every_axis (score a) (score sim)).
  - symmetry. apply Nat.eqb_neq. unfold size2. cbn. lia.
Qed.

(** The loop from one kept candidate on: it ends as it began when no
    scored candidate follows, and raises at the first that does. *)
Lemma accumulate_one (a : candidate) (group : list candidate) :
  length (score a) = m -> sized group ->
  accumulate fitness meas ([a], [score a]) group
  = match scored fitness meas group with
    | [] => Ok ([a], [score a])
    | _ :: _ => Error TypeError
    end.
Proof.
  intros Ha Hgroup.
  induction Hgroup as [|sim group Hsim _ IH]; [reflexivity|].
  cbn [accumulate]. rewrite scored_cons.
  destruct (has_nan (score sim)) eqn:Hnan.
  - rewrite step_misfit by exact Hnan. cbn [bind]. exact IH.
  - now rewrite step_second.
Qed.

(** The whole loop: nothing kept without a scored candidate, the scored
    candidate when there is one only, and no result with two or more. *)
Lemma accumulate_scored (group : list candidate) :
  sized group ->
  accumulate fitness meas ([], []) group
  = match scored fitness meas group with
    | [] => Ok ([], [])
    | [a] => Ok ([a], [score a])
    | _ :: _ :: _ => Error TypeError
    end.
Proof.
  intros Hgroup.
  induction Hgroup as [|sim group Hsim Hrest IH]; [reflexivity|].
  cbn [accumulate]. rewrite scored_cons.
  destruct (has_nan (score sim)) eqn:Hnan.
  - rewrite step_misfit by exact Hnan. cbn [bind]. exact IH.
  - rewrite step_first by exact Hnan. cbn [bind].
    rewrite accumulate_one by assumption.
    now destruct (scored fitness meas group).
Qed.

End ParetoFacts.

(** C2 (the code against the claim).  For score vectors of one common
    positive length, [find_multi_best] returns a result only when at most
    one candidate is scored (has a score vector without not-a-number) and
    [similarity] is zero.  With two scored candidates or more, the second
    one reaches [best[-dominates]], and with the similarity filter on and
    a candidate kept the function reaches [scores[-worse]]: the unary
    minus of a boolean array raises [TypeError].  So the two-candidate
    input of the claim, one point dominated and one not, gives no
    result. *)
Theorem find_multi_best_raises_type_error :
  forall (candidate measurement : Type)
         (fitness : candidate -> measurement -> list float) (meas : measurement)
         (group : list candidate) (similarity : float) (m : nat),
    0 < m ->
    Forall (fun sim => length (fitness sim meas) = m) group ->
    Pareto.find_multi_best fitness meas group similarity
    = match Pareto.scored fitness meas group with
      | [] => if (similarity =? 0)%float then Ok [] else Error AxisError
      | [a] => if (similarity =? 0)%float then Ok [a] else Error TypeError
      | _ :: _ :: _ => Error TypeError
      end.
Proof.
  intros candidate measurement fitness meas group similarity m Hm Hlen.
  unfold Pareto.find_multi_best, Pareto.find_multi_best_full.
  rewrite (accumulate_scored _ _ fitness meas m Hm group Hlen).
  destruct (Pareto.scored fitness meas group) as [|a [|b rest]];
    cbn [bind]; [| |reflexivity];
    destruct (similarity =? 0)%float; reflexivity.
Qed.

Lemma find_multi_best_raises_type_error_witness :
  let fitness := fun (sim : nat) (_ : unit) => nth sim [[2; 2]; [1; 1]]%float [] in
  Pareto.find_multi_best fitness tt [0; 1] Pareto.default_similarity
  = Error TypeError /\
  Pareto.find_multi_best fitness tt [0; 1] 0%float = Error TypeError.
Proof.
  intros fitness. split.
  - apply (find_multi_best_raises_type_error nat unit fitness tt [0; 1]
             Pareto.default_similarity 2); [lia | repeat constructor].
  - apply (find_multi_best_raises_type_error nat unit fitness tt [0; 1]
             0%float 2); [lia | repeat constructor].
Defined.

(** ** [argmin] returns the place of a minimum *)

Section ArgminMinimum.

Open Scope float_scope.

Lemma ltb_trans (a b c : float) :
  (a <? b) = true -> (b <? c) = true -> (a <? c) = true.
Proof. rewrite !ltb_spec. apply SFltb_trans. Qed.

Lemma ltb_irrefl (a : float) : (a <? a) = false.
Proof.
  destruct (a <? a) eqn:E; [|reflexivity].
  rewrite ltb_spec in E. pose proof (SFltb_asym _ _ E). congruence.
Qed.

Lemma nothing_below_nan (z v : float) : Np.isnan v = true -> (z <? v) = false.
Proof.
  rewrite isnan_spec, ltb_spec, SFeqb_self.
  destruct (Prim2SF v); cbn; try congruence. intros _. apply SFltb_nan_r.
Qed.

Lemma not_leb_ltb (mp x : float) :
  Np.isnan mp = false -> Np.isnan x = false ->
  (mp <=? x) = false -> (x <? mp) = true.
Proof.
  rewrite !isnan_spec, !SFeqb_self, leb_spec, ltb_spec.
  unfold SFleb, SFltb, SFcompare.
  destruct (Prim2SF mp) as [s1|s1| |s1 m1 e1], (Prim2SF x) as [s2|s2| |s2 m2 e2];
    try destruct s1; try destruct s2; cbn; try congruence.
  all: intros; sf_cases.
Qed.

Lemma leb_not_ltb (mp x : float) : (mp <=? x) = true -> (x <? mp) = false.
Proof.
  rewrite leb_spec, ltb_spec.
  unfold SFleb, SFltb, SFcompare.
  destruct (Prim2SF mp) as [s1|s1| |s1 m1 e1], (Prim2SF x) as [s2|s2| |s2 m2 e2];
    try destruct s1; try destruct s2; cbn; try congruence.
  all: intros; sf_cases.
Qed.

Lemma not_below_smaller (z x mp : float) :
  (x <? mp) = true -> (z <? mp) = false -> (z <? x) = false.
Proof.
  intros Hx Hz. destruct (z <? x) eqn:E; [|reflexivity].
  rewrite (ltb_trans z x mp E Hx) in Hz. discriminate.
Qed.

Lemma argmin_loop_minimum (a : list float) :
  forall (pre : list float) (mp : float) (mi : nat),
    Np.isnan mp = false ->
    nth_error (pre ++ a) mi = Some mp ->
    (forall z, In z pre -> (z <? mp) = false) ->
    exists v,
      nth_error (pre ++ a) (Np.argmin_loop mp mi (length pre) a) = Some v /\
      forall z, In z (pre ++ a) -> (z <? v) = false.
Proof.
  induction a as [|x a IH]; intros pre mp mi Hmp Hmi Hpre; cbn [Np.argmin_loop].
  - exists mp. split; [exact Hmi|]. now rewrite app_nil_r.
  - assert (Happ : pre ++ x :: a = (pre ++ [x]) ++ a)
      by (rewrite <- app_assoc; reflexivity).
    assert (Hlen : S (length pre) = length (pre ++ [x]))
      by (rewrite length_app; cbn; lia).
    destruct (mp <=? x) eqn:Hle; cbn [negb].
    + rewrite Happ, Hlen. apply IH; [exact Hmp | now rewrite <- Happ |].
      intros z Hz. apply in_app_or in Hz. destruct Hz as [Hz|[<-|[]]].
      * now apply Hpre.
      * now apply leb_not_ltb.
    + destruct (Np.isnan x) eqn:Hx.
      * exists x. split.
        -- rewrite nth_error_app2 by lia. now rewrite Nat.sub_diag.
        -- intros z _. now apply nothing_below_nan.
      * rewrite Happ, Hlen. apply IH; [exact Hx | apply nth_error_snoc |].
        intros z Hz. apply in_app_or in Hz. destruct Hz as [Hz|[<-|[]]].
        -- apply not_below_smaller with (mp := mp); [|now apply Hpre].
           now apply not_leb_ltb.
        -- apply ltb_irrefl.
Qed.

(** On a non-empty array [argmin] returns an index of the array, and no
    entry is below the entry found there. *)
Lemma argmin_minimum (a : list float) :
  a <> [] ->
  exists pos v,
    Np.argmin a = Ok pos /\ nth_error a pos = Some v /\
    forall z, In z a -> (z <? v) = false.
Proof.
  destruct a as [|x a]; [congruence|]. intros _.
  cbn [Np.argmin]. destruct (Np.isnan x) eqn:Hx.
  - exists 0%nat, x. repeat split. intros z _. now apply nothing_below_nan.
  - destruct (argmin_loop_minimum a [x] x 0%nat Hx eq_refl) as [v [Hv Hmin]].
    { intros z [<-|[]]. apply ltb_irrefl. }
    eexists. exists v. split; [reflexivity|]. split; [exact Hv | exact Hmin].
Qed.

End ArgminMinimum.

(** ** Python slices as index windows *)

Section Slices.

Context {A : Type}.

Open Scope Z_scope.

Lemma firstn_clamped (c : nat) (l : list A) :
  firstn c l = firstn (Nat.min c (length l)) l.
Proof.
  destruct (Nat.le_ge_cases c (length l)) as [H|H].
  - now rewrite Nat.min_l.
  - rewrite Nat.min_r by exact H. rewrite !firstn_all2; [reflexivity | lia | lia].
Qed.

(** The items at indices [k], [k + 1], ... that fall in [[lo, hi]]. *)
Lemma window_from (l : list A) (lo hi : Z) :
  forall k : nat,
    map snd
        (filter (fun p => (lo <=? Z.of_nat (fst p)) && (Z.of_nat (fst p) <=? hi))
                (combine (seq k (length l)) l)) =
    firstn (Z.to_nat (hi + 1 - Z.max lo (Z.of_nat k)))
           (skipn (Z.to_nat (lo - Z.of_nat k)) l).
Proof.
  induction l as [|a l IH]; intros k.
  - cbn. now rewrite skipn_nil, firstn_nil.
  - cbn [length seq combine filter fst].
    destruct (lo <=? Z.of_nat k) eqn:Hlo; [destruct (Z.of_nat k <=? hi) eqn:Hhi|];
      cbn [andb map snd]; rewrite IH.
    + apply Z.leb_le in Hlo, Hhi.
      replace (Z.to_nat (lo - Z.of_nat k)) with 0%nat by lia.
      replace (Z.to_nat (lo - Z.of_nat (S k))) with 0%nat by lia.
      cbn [skipn].
      replace (Z.to_nat (hi + 1 - Z.max lo (Z.of_nat k)))
        with (S (Z.to_nat (hi + 1 - Z.max lo (Z.of_nat (S k))))) by lia.
      reflexivity.
    + apply Z.leb_le in Hlo. apply Z.leb_gt in Hhi.
      replace (Z.to_nat (hi + 1 - Z.max lo (Z.of_nat (S k)))) with 0%nat by lia.
      replace (Z.to_nat (hi + 1 - Z.max lo (Z.of_nat k))) with 0%nat by lia.
      reflexivity.
    + apply Z.leb_gt in Hlo.
      replace (Z.to_nat (lo - Z.of_nat k))
        with (S (Z.to_nat (lo - Z.of_nat (S k)))) by lia.
      cbn [skipn].
      replace (Z.max lo (Z.of_nat (S k))) with (Z.max lo (Z.of_nat k)) by lia.
      reflexivity.
Qed.

(** A slice [l[lo : hi + 1]] with bounds that are not negative holds the
    items whose index lies in [[lo, hi]]. *)
Lemma slice_items_between (l : list A) (lo hi : Z) :
  0 <= lo -> -1 <= hi ->
  Py.slice l lo (hi + 1) = Py.items_between l lo hi.
Proof.
  intros Hlo Hhi. unfold Py.items_between. rewrite window_from.
  unfold Py.slice, Py.clip.
  replace (lo <? 0) with false by (symmetry; apply Z.ltb_ge; lia).
  replace (hi + 1 <? 0) with false by (symmetry; apply Z.ltb_ge; lia).
  cbn [Z.of_nat]. rewrite Z.sub_0_r.
  set (n := length l).
  destruct (Z.le_gt_cases (Z.of_nat n) lo) as [Hbig|Hsmall].
  - rewrite !(skipn_all2 l) by (fold n; lia). now rewrite !firstn_nil.
  - replace (Z.min lo (Z.of_nat n)) with lo by lia.
    rewrite firstn_clamped. symmetry. rewrite firstn_clamped.
    rewrite length_skipn. fold n. f_equal. lia.
Qed.

Lemma length_items_between (l : list A) (lo hi : Z) :
  0 <= lo ->
  length (Py.items_between l lo hi) =
  Z.to_nat (Z.min (hi + 1) (Z.of_nat (length l)) - lo).
Proof.
  intros Hlo. unfold Py.items_between. rewrite window_from.
  rewrite length_firstn, length_skipn. lia.
Qed.

End Slices.

(** ** features.py *)

Section FeatureFacts.

Import Features.

Variable vartype_sub : vartype -> vartype -> vartype.
Variable array_mean : list float -> vartype.
Variable default_dev : float.

Lemma ys_nonempty (ccut : wave) : (0 < length ccut)%nat -> ys ccut <> [].
Proof. destruct ccut; cbn; [lia | discriminate]. Qed.

Lemma rectification_short (ccut : wave) (steady : vartype) :
  (length ccut < 12)%nat ->
  rectification vartype_sub array_mean default_dev ccut steady =
  Ok {| x := nan; dev := default_dev |}.
Proof.
  intros H. unfold rectification, window_len.
  replace (Z.of_nat (length ccut) <? 11 + 1)%Z with true; [reflexivity|].
  symmetry. apply Z.ltb_lt. lia.
Qed.

Lemma rectification_long (ccut : wave) (steady : vartype) :
  (12 <= length ccut)%nat ->
  exists (pos : nat) (lowest : float),
    Np.argmin (ys ccut) = Ok pos /\
    nth_error (ys ccut) pos = Some lowest /\
    (forall z, In z (ys ccut) -> (z <? lowest)%float = false) /\
    let end_ := Z.max (Z.of_nat pos + window_len / 2)
                      (Z.of_nat (length ccut) - 1) in
    rectification vartype_sub array_mean default_dev ccut steady =
    Ok (vartype_sub steady (array_mean (window_amplitudes ccut end_))).
Proof.
  intros H.
  destruct (argmin_minimum (ys ccut)) as [pos [lowest [Hpos [Hnth Hmin]]]].
  { apply ys_nonempty. lia. }
  exists pos, lowest. repeat split; try assumption.
  intros end_. unfold rectification.
  replace (Z.of_nat (length ccut) <? window_len + 1)%Z with false
    by (symmetry; apply Z.ltb_ge; unfold window_len; lia).
  rewrite Hpos. cbn [bind]. fold end_.
  unfold window_amplitudes.
  rewrite slice_items_between; [reflexivity | |];
    unfold end_, window_len; lia.
Qed.

(** Past the end of the curve the window is cut short: it holds between 7
    and 12 samples, never the nominal 21. *)
Lemma rectification_window_size (ccut : wave) (pos : nat) :
  (12 <= length ccut)%nat -> (pos < length ccut)%nat ->
  let end_ := Z.max (Z.of_nat pos + window_len / 2)
                    (Z.of_nat (length ccut) - 1) in
  (7 <= length (window_amplitudes ccut end_) <= 12)%nat.
Proof.
  intros Hlen Hpos end_. unfold window_amplitudes, ys.
  rewrite length_map, length_items_between by (unfold end_, window_len; lia).
  unfold end_, window_len. change (11 / 2)%Z with 5%Z. lia.
Qed.

End FeatureFacts.

(** C4 (counterexample).  A falling curve of 30 samples with its minimum
    at index 10: [end] is 29, the window [[end - 11, end + 11]] spans the
    indices 18 to 40, and the mean is taken over the 12 samples that exist
    there, the last 12 of the curve, not over 21. *)
Lemma rectification_window_not_21_samples :
  let ccut :=
    map (fun v => {| Wave.x := v; Wave.y := (v - 10) * (v - 10) |})
        [0; 1; 2; 3; 4; 5; 6; 7; 8; 9; 10; 11; 12; 13; 14; 15; 16; 17; 18; 19;
         20; 21; 22; 23; 24; 25; 26; 27; 28; 29]%float in
  let vartype_sub := fun a b =>
    {| Features.x := (Features.x a - Features.x b)%float; Features.dev := 0%float |} in
  let array_mean := fun l =>
    {| Features.x := (Np.sum l / Np.size l)%float; Features.dev := 0%float |} in
  let steady := {| Features.x := 0%float; Features.dev := 0%float |} in
  let end_ := Z.max (10 + Features.window_len / 2) (Z.of_nat (length ccut) - 1) in
  Np.argmin (Features.ys ccut) = Ok 10%nat /\
  end_ = 29%Z /\
  length (Features.window_amplitudes ccut end_) = 12%nat /\
  Features.window_amplitudes ccut end_ = Features.ys (skipn 18 ccut) /\
  Features.rectification vartype_sub array_mean 0%float ccut steady
  = Ok (vartype_sub steady (array_mean (Features.ys (skipn 18 ccut)))).
Proof. repeat split; vm_compute; reflexivity. Qed.

(** C4 (amended).  With fewer than [window_len + 1 = 12] samples in the
    falling curve, [rectification] is the not-available value; otherwise,
    with [pos] the index that [argmin] finds for the minimum amplitude (no
    amplitude is below the one at [pos]) and
    [end = max(pos + window_len // 2, size - 1)], it is [steady] minus the
    mean of the amplitudes of the samples whose index lies in
    [[end - window_len, end + window_len]]; as [end] is never before the
    last sample, these are between 7 and 12 samples. *)
Theorem rectification_window :
  forall (vartype_sub : Features.vartype -> Features.vartype -> Features.vartype)
         (array_mean : list float -> Features.vartype) (default_dev : float)
         (ccut : Features.wave) (steady : Features.vartype),
    ((length ccut < 12)%nat ->
     Features.rectification vartype_sub array_mean default_dev ccut steady =
     Ok {| Features.x := nan; Features.dev := default_dev |}) /\
    ((12 <= length ccut)%nat ->
     exists (pos : nat) (lowest : float),
       Np.argmin (Features.ys ccut) = Ok pos /\
       nth_error (Features.ys ccut) pos = Some lowest /\
       (forall z, In z (Features.ys ccut) -> (z <? lowest)%float = false) /\
       let end_ := Z.max (Z.of_nat pos + Features.window_len / 2)
                         (Z.of_nat (length ccut) - 1) in
       Features.rectification vartype_sub array_mean default_dev ccut steady =
       Ok (vartype_sub steady
             (array_mean (Features.window_amplitudes ccut end_))) /\
       (7 <= length (Features.window_amplitudes ccut end_) <= 12)%nat).
Proof.
  intros. split.
  - apply rectification_short.
  - intros H.
    destruct (rectification_long vartype_sub array_mean default_dev
                ccut steady H) as [pos [lowest [Hpos [Hnth [Hmin Hrect]]]]].
    assert (Hlt : (pos < length ccut)%nat).
    { rewrite <- (length_map Wave.y ccut). apply nth_error_Some.
      fold (Features.ys ccut). rewrite Hnth. discriminate. }
    exists pos, lowest. repeat split; try assumption;
      now apply rectification_window_size.
Qed.

Lemma rectification_window_witness :
  let ccut := map (fun v => {| Wave.x := v; Wave.y := v |})
                  [1; 2; 3; 4; 5; 6; 7; 8; 9; 10; 11; 12]%float in
  let vartype_sub := fun a b =>
    {| Features.x := (Features.x a - Features.x b)%float; Features.dev := 0%float |} in
  let array_mean := fun l =>
    {| Features.x := (Np.sum l / Np.size l)%float; Features.dev := 0%float |} in
  let steady := {| Features.x := 10%float; Features.dev := 0%float |} in
  exists (pos : nat) (lowest : float),
    Np.argmin (Features.ys ccut) = Ok pos /\
    nth_error (Features.ys ccut) pos = Some lowest /\
    (forall z, In z (Features.ys ccut) -> (z <? lowest)%float = false) /\
    let end_ := Z.max (Z.of_nat pos + Features.window_len / 2)
                      (Z.of_nat (length ccut) - 1) in
    Features.rectification vartype_sub array_mean 0%float ccut steady =
    Ok (vartype_sub steady
          (array_mean (Features.window_amplitudes ccut end_))) /\
    (7 <= length (Features.window_amplitudes ccut end_) <= 12)%nat.
Proof.
  intros ccut vartype_sub array_mean steady.
  apply (proj2 (rectification_window vartype_sub array_mean 0%float
                  ccut steady)).
  cbn. lia.
Defined.

Section FitFacts.

Import Features.

Variable curve_fit : curve_fit_call -> curve_fit_result.
Variable vartype_sub : vartype -> vartype -> vartype.
Variable negative : vartype -> bool.

Lemma falling_curve_init_returns (ccut : wave) (baseline : vartype) :
  (0 < length ccut)%nat ->
  exists init, falling_curve_init ccut baseline = Ok init.
Proof.
  intros H. unfold falling_curve_init, Np.ptp, Np.amin, Np.amax, xs, ys.
  destruct ccut as [|s ccut]; [cbn in H; lia|].
  cbn [map bind]. eexists. reflexivity.
Qed.

(** With five samples or more the optimizer is called once, from the
    initial guess [(-1, 1)], whatever the curve. *)
Lemma fit_falling_curve_call (ccut : wave) (baseline steady : vartype) :
  (5 <= length ccut)%nat ->
  let call := falling_curve_call vartype_sub negative ccut baseline steady in
  p0 call = ((-1)%float, 1%float) /\
  _fit_falling_curve curve_fit vartype_sub negative ccut baseline steady =
  Ok {| function := Some (f call);
        params :=
          {| amp := {| x := fst (popt (curve_fit call));
                       dev := sqrt (fst (pcov_diag (curve_fit call))) |};
             tau := {| x := snd (popt (curve_fit call));
                       dev := sqrt (snd (pcov_diag (curve_fit call))) |} |} |}.
Proof.
  intros H call. split; [reflexivity|].
  unfold _fit_falling_curve.
  replace (length ccut <? 5)%nat with false
    by (symmetry; apply Nat.ltb_ge; exact H).
  destruct (falling_curve_init_returns ccut baseline) as [init ->]; [lia|].
  reflexivity.
Qed.

End FitFacts.

(** C3 (evaluation at the failing input).  For the five-sample falling
    curve with times 0..4 and amplitudes -5..-1 over a baseline centered at
    0, [init] is computed as (-5, 4), the minimum amplitude minus the
    baseline center and the time span; the optimizer is nevertheless
    called from the initial guess (-1, 1). *)
Theorem fit_falling_curve_ignores_init :
  let ccut :=
    [ {| Wave.x := 0; Wave.y := -5 |}; {| Wave.x := 1; Wave.y := -4 |};
      {| Wave.x := 2; Wave.y := -3 |}; {| Wave.x := 3; Wave.y := -2 |};
      {| Wave.x := 4; Wave.y := -1 |} ]%float in
  let baseline := {| Features.x := 0%float; Features.dev := 0%float |} in
  forall (vartype_sub : Features.vartype -> Features.vartype -> Features.vartype)
         (negative : Features.vartype -> bool) (steady : Features.vartype),
    Features.falling_curve_init ccut baseline = Ok ((-5)%float, 4%float) /\
    Features.p0 (Features.falling_curve_call vartype_sub negative ccut baseline steady)
    = ((-1)%float, 1%float).
Proof. intros. split; vm_compute; reflexivity. Qed.

(** * Strings and patterns *)

Section StringFacts.

Lemma startswith_nil (s : str) : Str.startswith s [] = true.
Proof. now destruct s. Qed.

Lemma startswith_cons (c d : ascii) (s l : str) :
  Str.startswith (d :: s) (c :: l) = Ascii.eqb d c && Str.startswith s l.
Proof. reflexivity. Qed.

Lemma startswith_app (l s : str) : Str.startswith (l ++ s) l = true.
Proof.
  induction l as [|c l IH]; [apply startswith_nil|].
  simpl. now rewrite Ascii.eqb_refl, IH.
Qed.

Lemma startswith_spec (s l : str) :
  Str.startswith s l = true -> s = l ++ skipn (length l) s.
Proof.
  revert s; induction l as [|c l IH]; intros [|d s]; simpl; try easy.
  intros H. apply andb_prop in H as [Hc Hl].
  apply Ascii.eqb_eq in Hc. subst d. f_equal. now apply IH.
Qed.

Lemma skipn_app_length {A : Type} (l s : list A) :
  skipn (length l) (l ++ s) = s.
Proof. induction l; simpl; auto. Qed.

(** A separator without newline cannot start before the end of a line and
    reach over it. *)
Lemma startswith_over_newline (x sep t : str) :
  ~ In Str.newline sep ->
  Str.startswith x sep = false ->
  Str.startswith (x ++ Str.newline :: t) sep = false.
Proof.
  revert x; induction sep as [|c sep IH]; intros x Hnl H.
  - now rewrite startswith_nil in H.
  - destruct x as [|d x].
    + cbn [app]. rewrite startswith_cons.
      destruct (Ascii.eqb_spec Str.newline c) as [E|]; [|reflexivity].
      exfalso; apply Hnl; now left.
    + cbn [app]. rewrite startswith_cons in *.
      destruct (Ascii.eqb d c); [|reflexivity]. cbn [andb] in *.
      apply IH; [|exact H]. intros Hin; apply Hnl; now right.
Qed.

Lemma partition_nil (sep : str) :
  Spec.partition [] sep =
  if Str.startswith [] sep then Some ([], skipn (length sep) []) else None.
Proof. reflexivity. Qed.

Lemma partition_cons (c : ascii) (s sep : str) :
  Spec.partition (c :: s) sep =
  if Str.startswith (c :: s) sep then Some ([], skipn (length sep) (c :: s))
  else match Spec.partition s sep with
       | Some (pre, rest) => Some (c :: pre, rest)
       | None => None
       end.
Proof. reflexivity. Qed.

Lemma partition_spec (s sep pre rest : str) :
  Spec.partition s sep = Some (pre, rest) -> s = pre ++ sep ++ rest.
Proof.
  revert pre; induction s as [|c s IH]; intros pre.
  - rewrite partition_nil.
    destruct (Str.startswith [] sep) eqn:E; [|discriminate].
    intros [= <- <-]. apply startswith_spec in E. exact E.
  - rewrite partition_cons.
    destruct (Str.startswith (c :: s) sep) eqn:E.
    + intros [= <- <-]. apply startswith_spec in E. exact E.
    + destruct (Spec.partition s sep) as [[p r]|]; [|discriminate].
      intros [= <- <-]. simpl. f_equal. now apply IH.
Qed.

Lemma contains_nil (sep : str) : Str.contains [] sep = Str.startswith [] sep.
Proof. cbn [Str.contains]. apply orb_false_r. Qed.

Lemma contains_cons (c : ascii) (s sep : str) :
  Str.contains (c :: s) sep = Str.startswith (c :: s) sep || Str.contains s sep.
Proof. reflexivity. Qed.

Lemma contains_partition (s sep : str) :
  Str.contains s sep =
  match Spec.partition s sep with Some _ => true | None => false end.
Proof.
  induction s as [|c s IH].
  - rewrite contains_nil, partition_nil.
    destruct (Str.startswith [] sep); reflexivity.
  - rewrite contains_cons, partition_cons.
    destruct (Str.startswith (c :: s) sep); [reflexivity|]. cbn [orb].
    rewrite IH. destruct (Spec.partition s sep) as [[p r]|]; reflexivity.
Qed.

End StringFacts.

Section MatcherFacts.

Import Re Pattern.

Variable R : Type.

(** Literal characters match a prefix, and nothing else. *)
Lemma match_pieces_lits (l : str) (ps : list piece) (s : str)
    (k : str -> option R) :
  match_pieces (lits l ++ ps) s k =
  if Str.startswith s l then match_pieces ps (skipn (length l) s) k else None.
Proof.
  revert s; induction l as [|c l IH]; intros s.
  - rewrite startswith_nil. reflexivity.
  - destruct s as [|d s]; [reflexivity|].
    cbn [lits map app match_pieces match_piece atom_matches].
    rewrite startswith_cons.
    destruct (Ascii.eqb d c); [|reflexivity]. cbn [andb length skipn].
    apply IH.
Qed.

Lemma match_items_lits (l : str) (r : regex) (s : str) (g : option str)
    (k : str -> option str -> option R) :
  match_items (lit_items l ++ r) s g k =
  if Str.startswith s l then match_items r (skipn (length l) s) g k else None.
Proof.
  revert s; induction l as [|c l IH]; intros s.
  - rewrite startswith_nil. reflexivity.
  - destruct s as [|d s]; [reflexivity|].
    cbn [lit_items map app match_items match_piece atom_matches].
    rewrite startswith_cons.
    destruct (Ascii.eqb d c); [|reflexivity]. cbn [andb length skipn].
    apply IH.
Qed.

(** A star takes the whole run when what follows accepts it. *)
Lemma star_greedy (a : atom) (w s : str) (k : str -> option R) (r : R) :
  run a w -> k s = Some r -> stops a s -> star a (w ++ s) k = Some r.
Proof.
  intros Hw Hk Hs. induction Hw as [|c w Hc Hw IH].
  - destruct s as [|d s]; cbn [app star]; [exact Hk|].
    cbn [stops] in Hs. now rewrite Hs.
  - cbn [app star]. now rewrite Hc, IH.
Qed.

(** A star succeeds as soon as what follows accepts the end of the run. *)
Lemma star_succeeds (a : atom) (w s : str) (k : str -> option R) :
  run a w -> k s <> None -> star a (w ++ s) k <> None.
Proof.
  intros Hw Hk. induction Hw as [|c w Hc Hw IH].
  - destruct s as [|d s]; cbn [app star]; [exact Hk|].
    destruct (atom_matches a d); [|exact Hk].
    destruct (star a s k); [discriminate|exact Hk].
  - cbn [app star]. rewrite Hc.
    destruct (star a (w ++ s) k); [discriminate|contradiction].
Qed.

End MatcherFacts.

Section SearchFacts.

Import Re Pattern.

Lemma search_compiled_eq (r : regex) (s : str) :
  search_compiled r s =
  match match_at r s with
  | Some (rest, g) =>
      Some {| before := []; text := consumed s rest; after := rest;
              groups := has_group r; group1 := g |}
  | None =>
      match s with
      | c :: s' => option_map (shift c) (search_compiled r s')
      | [] => None
      end
  end.
Proof. destruct s; reflexivity. Qed.

(** A match object records whether its pattern has a group. *)
Lemma search_compiled_groups (r : regex) (s : str) (m : match_) :
  search_compiled r s = Some m -> groups m = has_group r.
Proof.
  revert m; induction s as [|c s IH]; intros m; rewrite search_compiled_eq.
  - destruct (match_at r []) as [[rest g]|]; [|discriminate].
    now intros [= <-].
  - destruct (match_at r (c :: s)) as [[rest g]|]; [now intros [= <-]|].
    destruct (search_compiled r s) as [m'|]; [|discriminate].
    intros [= <-]. cbn [shift groups]. now apply IH.
Qed.

(** A match somewhere makes the search succeed. *)
Lemma search_compiled_finds (r : regex) (s1 s2 : str) :
  match_at r s2 <> None -> search_compiled r (s1 ++ s2) <> None.
Proof.
  intros H. induction s1 as [|c s1 IH]; cbn [app];
    rewrite search_compiled_eq.
  - destruct (match_at r s2) as [[rest g]|]; [discriminate|contradiction].
  - destruct (match_at r (c :: s1 ++ s2)) as [[rest g]|]; [discriminate|].
    destruct (search_compiled r (s1 ++ s2)); [discriminate|contradiction].
Qed.

(** A pattern that begins with [key] is not found where [key] is not. *)
Lemma search_compiled_absent (r : regex) (key s : str) :
  begins_with r key -> Spec.partition s key = None ->
  search_compiled r s = None.
Proof.
  intros Hr. induction s as [|c s IH]; rewrite search_compiled_eq.
  - rewrite partition_nil.
    destruct (Str.startswith [] key) eqn:E; [discriminate|].
    now rewrite (Hr _ E).
  - rewrite partition_cons.
    destruct (Str.startswith (c :: s) key) eqn:E; [discriminate|].
    rewrite (Hr _ E).
    destruct (Spec.partition s key) as [[p q]|]; [discriminate|].
    intros _. now rewrite IH.
Qed.

(** It is found at the first occurrence of [key], when it matches there. *)
Lemma search_compiled_first (r : regex) (key s pre rest rest' : str)
    (g : option str) :
  begins_with r key ->
  Spec.partition s key = Some (pre, rest) ->
  match_at r (key ++ rest) = Some (rest', g) ->
  search_compiled r s =
  Some {| before := pre; text := consumed (key ++ rest) rest'; after := rest';
          groups := has_group r; group1 := g |}.
Proof.
  intros Hr Hp Hm. revert pre Hp.
  induction s as [|c s IH]; intros pre; rewrite search_compiled_eq.
  - rewrite partition_nil.
    destruct (Str.startswith [] key) eqn:E; [|discriminate].
    intros [= <- <-]. apply startswith_spec in E.
    rewrite <- E in Hm |- *. now rewrite Hm.
  - rewrite partition_cons.
    destruct (Str.startswith (c :: s) key) eqn:E.
    + intros [= <- <-]. apply startswith_spec in E.
      rewrite <- E in Hm |- *. now rewrite Hm.
    + rewrite (Hr _ E).
      destruct (Spec.partition s key) as [[p q]|]; [|discriminate].
      intros [= <- <-]. now rewrite (IH p eq_refl).
Qed.

End SearchFacts.

(** * [get_file_name_with_version] *)

Section VersionFacts.

Import Re Pattern.

Lemma compile_p_version :
  compile "_V\d+.p$" =
  Some (lit_items "_V" ++
        [Piece (Many1 Digit); Piece (One Dot); Piece (One (Lit "p")); Eos]).
Proof. reflexivity. Qed.

Lemma compile_py_version :
  compile "_V(\d+).py$" =
  Some (lit_items "_V" ++
        [Group [Many1 Digit]; Piece (One Dot); Piece (One (Lit "p"));
         Piece (One (Lit "y")); Eos]).
Proof. reflexivity. Qed.

Lemma endswith_p_not_py (s : str) : Str.endswith (s ++ ".p") ".py" = false.
Proof. unfold Str.endswith. rewrite rev_app_distr. reflexivity. Qed.

Lemma endswith_py (s : str) : Str.endswith (s ++ ".py") ".py" = true.
Proof. unfold Str.endswith. rewrite rev_app_distr. apply startswith_app. Qed.

(** The version pattern of the [.p] branch matches a versioned name. *)
Lemma p_version_matches (digits : str) :
  digits <> [] -> Forall (fun c => Str.is_digit c = true) digits ->
  match_at (lit_items "_V" ++
            [Piece (Many1 Digit); Piece (One Dot); Piece (One (Lit "p")); Eos])
           ("_V" ++ digits ++ ".p") <> None.
Proof.
  intros Hne Hd. unfold match_at.
  rewrite match_items_lits, startswith_app, skipn_app_length.
  destruct Hd as [|d ds Hd Hds]; [contradiction|].
  cbn [app match_items match_piece atom_matches]. rewrite Hd.
  apply star_succeeds; [exact Hds|]. discriminate.
Qed.

End VersionFacts.

(** A [.p] name that already has a version cannot be versioned again:
    [m.group(1)] is asked of a pattern that has no group, and raises. *)
Theorem get_file_name_with_version_p_raises (stem digits : str) :
  digits <> [] -> Forall (fun c => Str.is_digit c = true) digits ->
  get_file_name_with_version (stem ++ "_V" ++ digits ++ ".p")
  = Error IndexError.
Proof.
  intros Hne Hd. unfold get_file_name_with_version.
  replace (stem ++ "_V" ++ digits ++ ".p")
    with ((stem ++ "_V" ++ digits) ++ ".p")
    by (now rewrite <- !app_assoc).
  rewrite endswith_p_not_py. rewrite <- !app_assoc.
  unfold Re.search. rewrite compile_p_version. cbn [bind].
  destruct (Re.search_compiled _ _) as [m|] eqn:Hs.
  - unfold Re.group. rewrite (search_compiled_groups _ _ _ Hs). reflexivity.
  - exfalso. revert Hs. apply search_compiled_finds.
    now apply p_version_matches.
Qed.

Lemma get_file_name_with_version_p_raises_witness :
  get_file_name_with_version "model_V1.p" = Error IndexError.
Proof.
  apply (get_file_name_with_version_p_raises "model" "1").
  - discriminate.
  - repeat constructor.
Defined.

(** * Compiling patterns with a spliced name *)

Section CompileFacts.

Import Re Pattern.

Lemma steps_app (st : option pstate) (p q : str) :
  steps st (p ++ q) = steps (steps st p) q.
Proof. apply fold_left_app. Qed.

Lemma steps_cons (st : pstate) (c : ascii) (p : str) :
  steps (Some st) (c :: p) = steps (step st c) p.
Proof. reflexivity. Qed.

(** A letter or a digit stands for itself. *)
Lemma step_alnum (st : pstate) (c : ascii) :
  Str.is_alnum c = true -> pmode st = Normal ->
  step st c = Some (push_atom (Lit c) st).
Proof.
  intros H Hm. unfold step. rewrite Hm.
  destruct c as [[] [] [] [] [] [] [] []];
    try (vm_compute in H; discriminate H); reflexivity.
Qed.

Lemma steps_alnum (l : str) (its : list item) (g : bool) :
  Forall (fun c => Str.is_alnum c = true) l ->
  steps (Some {| items_rev := its; open_group := None; grouped := g;
                 pmode := Normal |}) l
  = Some {| items_rev := rev (lit_items l) ++ its; open_group := None;
            grouped := g; pmode := Normal |}.
Proof.
  intros H. revert its. induction H as [|c l Hc Hl IH]; intros its.
  - reflexivity.
  - rewrite steps_cons, (step_alnum _ _ Hc) by reflexivity.
    unfold push_atom; cbn [open_group items_rev grouped].
    rewrite IH. cbn [lit_items map rev]. now rewrite <- app_assoc.
Qed.

Lemma steps_alnum_in_group (l : str) (its : list item) (ps : list piece)
    (g : bool) :
  Forall (fun c => Str.is_alnum c = true) l ->
  steps (Some {| items_rev := its; open_group := Some ps; grouped := g;
                 pmode := Normal |}) l
  = Some {| items_rev := its; open_group := Some (rev (lits l) ++ ps);
            grouped := g; pmode := Normal |}.
Proof.
  intros H. revert ps. induction H as [|c l Hc Hl IH]; intros ps.
  - reflexivity.
  - rewrite steps_cons, (step_alnum _ _ Hc) by reflexivity.
    unfold push_atom; cbn [open_group items_rev grouped].
    rewrite IH. cbn [lits map rev]. now rewrite <- app_assoc.
Qed.

(** The pattern of [morph_morph_file]. *)
Lemma compile_directive (param : str) :
  Forall (fun c => Str.is_alnum c = true) param ->
  compile ("(\*set_global " ++ param ++ ") .*")
  = Some [Group (lits ("*set_global " ++ param));
          Piece (One (Lit " ")); Piece (Many Dot)].
Proof.
  intros H. unfold compile. rewrite steps_app.
  change (steps (Some initial) "(\*set_global ")
    with (Some {| items_rev := []; open_group := Some (rev (lits "*set_global "));
                  grouped := true; pmode := Normal |}).
  rewrite steps_app, (steps_alnum_in_group _ _ _ _ H).
  cbn [steps fold_left list_ascii_of_string step pmode open_group items_rev
       grouped repeat_last push_atom rev app].
  now rewrite <- rev_app_distr, rev_involutive.
Qed.

End CompileFacts.

(** * Replacement templates and [re.sub] *)

Section SubFacts.

Import Re Pattern.

Lemma advance_plain (s : str) :
  ~ In Str.backslash s -> advance s = Ok (plain_tokenizer s).
Proof.
  destruct s as [|c s]; intros H; [reflexivity|]. cbn [advance].
  destruct (Ascii.eqb_spec c Str.backslash) as [->|_]; [|reflexivity].
  exfalso. apply H. now left.
Qed.

Lemma parse_loop_plain (groups : bool) (s : str) :
  forall (fuel : nat) (acc : list part),
    ~ In Str.backslash s -> length s < fuel ->
    parse_loop fuel groups (plain_tokenizer s) acc
    = Ok (rev acc ++ map Literal s).
Proof.
  induction s as [|c s IH]; intros fuel acc Hs Hf;
    (destruct fuel as [|fuel]; [inversion Hf|]).
  - cbn. now rewrite app_nil_r.
  - cbn [parse_loop plain_tokenizer next rest].
    rewrite advance_plain by (intros Hin; apply Hs; now right).
    cbn [bind]. rewrite IH.
    + cbn [rev map]. now rewrite <- app_assoc.
    + intros Hin. apply Hs. now right.
    + cbn [length] in Hf. lia.
Qed.

(** A template without backslash stands for itself. *)
Lemma parse_template_plain (t : str) (groups : bool) :
  ~ In Str.backslash t -> parse_template t groups = Ok (map Literal t).
Proof.
  intros H. unfold parse_template. rewrite (advance_plain _ H). cbn [bind].
  now rewrite parse_loop_plain by (exact H || lia).
Qed.

Lemma expand_literals (t : str) (m : match_) :
  expand_template (map Literal t) m = t.
Proof.
  unfold expand_template.
  induction t as [|c t IH]; [reflexivity|]. cbn [map flat_map app].
  now rewrite IH.
Qed.

Lemma sub_loop_done (fuel : nat) (r : regex) (template : list part) (s : str) :
  sub_loop fuel r template (Some 0) s = s.
Proof. destruct fuel; reflexivity. Qed.

(** [count=1]: the first match is replaced, the text around it stays. *)
Lemma sub_compiled_once (r : regex) (repl s : str) :
  sub_compiled r repl s 1 =
  (template <- parse_template repl (has_group r) ;;
   Ok match search_compiled r s with
      | None => s
      | Some m => before m ++ expand_template template m ++ after m
      end).
Proof.
  unfold sub_compiled.
  destruct (parse_template repl (has_group r)) as [template|]; [|reflexivity].
  cbn [bind sub_loop]. f_equal.
  destruct (search_compiled r s) as [m|]; [|reflexivity].
  cbn [option_map pred].
  destruct (text m), (after m); rewrite ?sub_loop_done, ?app_nil_r;
    reflexivity.
Qed.

(** A replacement without backslash leaves a text without match as it
    is. *)
Lemma sub_compiled_absent (r : regex) (repl s : str) (count : nat) :
  ~ In Str.backslash repl -> search_compiled r s = None ->
  sub_compiled r repl s count = Ok s.
Proof.
  intros Hr Hs. unfold sub_compiled.
  rewrite (parse_template_plain _ _ Hr). cbn [bind sub_loop].
  destruct count; now rewrite Hs.
Qed.

(** A replacement in which no backslash is found has none. *)
Lemma plain_literal (repl : str) :
  existsb (Ascii.eqb Str.backslash) repl = false -> ~ In Str.backslash repl.
Proof.
  intros H Hin.
  assert (E : existsb (Ascii.eqb Str.backslash) repl = true)
    by (apply existsb_exists; exists Str.backslash; split;
        [exact Hin|apply Ascii.eqb_refl]).
  congruence.
Qed.

Lemma consumed_app (l s : str) : consumed (l ++ s) s = l.
Proof.
  unfold consumed. rewrite length_app.
  replace (length l + length s - length s) with (length l) by lia.
  rewrite firstn_app, firstn_all, Nat.sub_diag. cbn [firstn]. apply app_nil_r.
Qed.

(** [.*] runs to the end of the line. *)
Lemma star_dot (A : Type) (s : str) (f : str -> A) :
  star Dot s (fun s' => Some (f s')) = Some (f (Spec.line_end s)).
Proof.
  induction s as [|c s IH]; [reflexivity|].
  cbn [star atom_matches Spec.line_end].
  destruct (Ascii.eqb c Str.newline); cbn [negb]; [reflexivity|].
  now rewrite IH.
Qed.

End SubFacts.

(** * [morph_morph_file] *)

Section MorphFacts.

Import Re Pattern.

Lemma startswith_app_same (l s t : str) :
  Str.startswith (l ++ s) (l ++ t) = Str.startswith s t.
Proof.
  induction l as [|c l IH]; [reflexivity|].
  cbn [app]. now rewrite startswith_cons, Ascii.eqb_refl.
Qed.

(** The directive pattern matches only where the directive starts... *)
Lemma directive_begins (G : str) :
  begins_with [Group (lits G); Piece (One (Lit " ")); Piece (Many Dot)]
              (G ++ " ").
Proof.
  intros s H. unfold match_at. cbn [match_items].
  rewrite <- (app_nil_r (lits G)), match_pieces_lits.
  destruct (Str.startswith s G) eqn:E; [|reflexivity].
  apply startswith_spec in E.
  remember (skipn (length G) s) as t eqn:Ht. clear Ht. subst s.
  rewrite startswith_app_same in H.
  cbn [match_pieces match_items match_piece].
  destruct t as [|c t]; [reflexivity|].
  change (Ascii.eqb c " " && Str.startswith t [] = false) in H.
  rewrite startswith_nil, andb_true_r in H.
  cbn [atom_matches]. now rewrite H.
Qed.

(** ... and there it takes the rest of the line. *)
Lemma directive_matches (G rest : str) :
  match_at [Group (lits G); Piece (One (Lit " ")); Piece (Many Dot)]
           ((G ++ " ") ++ rest)
  = Some (Spec.line_end rest, Some G).
Proof.
  unfold match_at. cbn [match_items].
  rewrite <- (app_nil_r (lits G)), match_pieces_lits, <- app_assoc.
  rewrite startswith_app, skipn_app_length.
  change (" " ++ rest) with (" "%char :: rest).
  cbn [match_pieces match_items match_piece atom_matches].
  rewrite Ascii.eqb_refl, consumed_app.
  apply (star_dot _ rest (fun s' => (s', Some G))).
Qed.

(** [\1] before a character that is no digit refers to group 1. *)
Lemma parse_loop_group1 (fuel : nat) (c : ascii) (s : str)
    (acc : list part) :
  Str.is_digit c = false -> ~ In Str.backslash (c :: s) ->
  parse_loop (S fuel) true {| next := Some (Esc "1"); rest := c :: s |} acc
  = parse_loop fuel true (plain_tokenizer (c :: s)) (Group1 :: acc).
Proof.
  intros Hc Hs. cbn [parse_loop next rest].
  rewrite (advance_plain _ Hs). cbn [bind plain_tokenizer].
  cbn [Ascii.eqb Bool.eqb]. unfold next_in. cbn [next].
  replace (Str.is_digit "1") with true by reflexivity.
  now rewrite Hc.
Qed.

(** [\1 value] stands for the directive and the value. *)
Lemma parse_directive_template (value : str) :
  ~ In Str.backslash value ->
  parse_template ("\1 " ++ value) true
  = Ok (Group1 :: Literal " " :: map Literal value).
Proof.
  intros Hv.
  assert (Hs : ~ In Str.backslash (" "%char :: value))
    by (intros [E|Hin]; [discriminate E|contradiction]).
  unfold parse_template.
  change (list_ascii_of_string "\1 " ++ value)
    with ("\"%char :: "1"%char :: " "%char :: value).
  cbn [advance Ascii.eqb Bool.eqb Str.backslash bind].
  rewrite parse_loop_group1 by (reflexivity || exact Hs).
  rewrite parse_loop_plain; [reflexivity|exact Hs|cbn [length]; lia].
Qed.

Lemma expand_directive (value : str) (m : match_) (g : str) :
  group1 m = Some g ->
  expand_template (Group1 :: Literal " " :: map Literal value) m
  = g ++ " " ++ value.
Proof.
  intros H1. pose proof (expand_literals value m) as E.
  unfold expand_template in *. cbn [flat_map]. rewrite E. now rewrite H1.
Qed.

(** One round of the loop rewrites the first directive of its parameter
    to the end of its line, and nothing else. *)
Lemma morph_param_rewrites_first (param value t : str) :
  Forall (fun c => Str.is_alnum c = true) param ->
  ~ In Str.backslash value ->
  morph_param param (Some value) t
  = Ok (Spec.rewrite_first param (Some value) t).
Proof.
  intros Hp Hv. unfold morph_param, sub.
  rewrite (compile_directive _ Hp), sub_compiled_once.
  change (has_group [Group (lits ("*set_global " ++ param));
                     Piece (One (Lit " ")); Piece (Many Dot)]) with true.
  rewrite (parse_directive_template _ Hv). cbn [bind]. f_equal.
  unfold Spec.rewrite_first, Spec.directive.
  change ("*set_global " ++ param ++ " ") with (("*set_global " ++ param) ++ " ").
  destruct (Spec.partition t (("*set_global " ++ param) ++ " "))
    as [[pre rest]|] eqn:P.
  - rewrite (search_compiled_first _ _ _ _ _ _ _
               (directive_begins _) P (directive_matches _ _)).
    rewrite (expand_directive value _ ("*set_global " ++ param))
      by reflexivity.
    cbn [before after]. now rewrite <- !app_assoc.
  - now rewrite (search_compiled_absent _ _ _ (directive_begins _) P).
Qed.

End MorphFacts.

(** One round of the loop, with or without an override. *)
Lemma morph_param_option (param : str) (value : option str) (t : str) :
  Forall (fun c => Str.is_alnum c = true) param -> Spec.plain value ->
  morph_param param value t = Ok (Spec.rewrite_first param value t).
Proof.
  destruct value as [v|]; intros Hp Hv; [|reflexivity].
  now apply morph_param_rewrites_first.
Qed.

Lemma morph_rewrites_composed (t : str) (RA RM CM : option str) :
  Spec.plain RA -> Spec.plain RM -> Spec.plain CM ->
  morph_morph_file t RA RM CM
  = Ok (fold_left (fun t ov => Spec.rewrite_first (fst ov) (Some (snd ov)) t)
                  (Spec.overrides RA RM CM) t).
Proof.
  intros HA HM HC. unfold morph_morph_file.
  rewrite (morph_param_option "RA" RA t) by (repeat constructor || assumption).
  cbn [bind].
  rewrite (morph_param_option "RM" RM) by (repeat constructor || assumption).
  cbn [bind].
  rewrite (morph_param_option "CM" CM) by (repeat constructor || assumption).
  destruct RA, RM, CM; reflexivity.
Qed.

(** The rewrite is one single-shot rewrite per overridden parameter, in the
    order RA, RM, CM, each on the text the one before has produced: the
    first directive of the parameter is replaced, to the end of its line,
    by the directive with the new value, and nothing else changes. *)
Theorem morph_morph_file_rewrites_in_turn (t : str) (RA RM CM : option str) :
  Spec.plain RA -> Spec.plain RM -> Spec.plain CM ->
  morph_morph_file t RA RM CM
  = Ok (Spec.rewrite_first "CM" CM
          (Spec.rewrite_first "RM" RM (Spec.rewrite_first "RA" RA t))).
Proof.
  intros HA HM HC. unfold morph_morph_file.
  rewrite (morph_param_option "RA" RA t) by (repeat constructor || assumption).
  cbn [bind].
  rewrite (morph_param_option "RM" RM) by (repeat constructor || assumption).
  cbn [bind].
  rewrite (morph_param_option "CM" CM) by (repeat constructor || assumption).
  reflexivity.
Qed.

Lemma morph_morph_file_rewrites_in_turn_witness :
  morph_morph_file "*set_global RM 0.1" None (Some ("0.25" : str)) None
  = Ok ("*set_global RM 0.25" : str).
Proof.
  apply (morph_morph_file_rewrites_in_turn
           "*set_global RM 0.1" None (Some ("0.25" : str)) None);
    cbn [Spec.plain]; try exact I.
  intros H. repeat (destruct H as [H|H]; [discriminate H|]). exact H.
Defined.

(** * [update_morph_file_name] *)

Section UpdateFacts.

Import Re Pattern.

Lemma alnum_not_backslash (l : str) :
  Forall (fun c => Str.is_alnum c = true) l -> ~ In Str.backslash l.
Proof.
  intros H Hin. rewrite Forall_forall in H. now specialize (H _ Hin).
Qed.

Lemma steps_key_suffix (its : list item) (g : bool) :
  steps (Some {| items_rev := its; open_group := None; grouped := g;
                 pmode := Normal |}) "\'\s*:\s*\'[0-9a-zA-Z\.\-_]+\'"
  = Some {| items_rev :=
              [Piece (One (Lit "'")); Piece (Many1 file_chars);
               Piece (One (Lit "'")); Piece (Many Space);
               Piece (One (Lit ":")); Piece (Many Space);
               Piece (One (Lit "'"))] ++ its;
            open_group := None; grouped := g; pmode := Normal |}.
Proof. reflexivity. Qed.

(** The pattern of [update_morph_file_name], for a name of letters and
    digits. *)
Lemma compile_key (nt : str) :
  Forall (fun c => Str.is_alnum c = true) nt ->
  compile ("\'" ++ nt ++ "\'\s*:\s*\'[0-9a-zA-Z\.\-_]+\'")
  = Some (lit_items ("'" ++ nt ++ "'") ++
          [Piece (Many Space); Piece (One (Lit ":")); Piece (Many Space);
           Piece (One (Lit "'")); Piece (Many1 file_chars);
           Piece (One (Lit "'"))]).
Proof.
  intros H. unfold compile. rewrite steps_app.
  change (steps (Some initial) "\'")
    with (Some {| items_rev := [Piece (One (Lit "'"))]; open_group := None;
                  grouped := false; pmode := Normal |}).
  rewrite steps_app, (steps_alnum _ _ _ H), steps_key_suffix.
  rewrite !rev_app_distr, rev_involutive. unfold lit_items.
  change (list_ascii_of_string "'") with ["'"%char].
  cbn [app map rev]. rewrite map_app. cbn [map].
  now rewrite <- !app_assoc.
Qed.

Lemma key_begins (key : str) (tail : regex) :
  begins_with (lit_items key ++ tail) key.
Proof. intros s H. unfold match_at. now rewrite match_items_lits, H. Qed.

(** Where a key is followed by a colon and a quoted file name, the pattern
    matches up to the closing quote. *)
Lemma key_matches (key ws1 ws2 fname post : str) :
  run Space ws1 -> run Space ws2 -> fname <> [] -> run file_chars fname ->
  match_at (lit_items key ++
            [Piece (Many Space); Piece (One (Lit ":")); Piece (Many Space);
             Piece (One (Lit "'")); Piece (Many1 file_chars);
             Piece (One (Lit "'"))])
           (key ++ ws1 ++ ":"%char :: ws2 ++ "'"%char :: fname ++
            "'"%char :: post)
  = Some (post, None).
Proof.
  intros H1 H2 Hne Hf. unfold match_at.
  rewrite match_items_lits, startswith_app, skipn_app_length.
  cbn [match_items match_piece].
  apply star_greedy; [exact H1| |reflexivity].
  cbn [match_items match_piece atom_matches]. rewrite Ascii.eqb_refl.
  apply star_greedy; [exact H2| |reflexivity].
  cbn [match_items match_piece atom_matches]. rewrite Ascii.eqb_refl.
  destruct Hf as [|f fs Hf Hfs]; [contradiction|].
  cbn [app]. rewrite Hf.
  apply star_greedy; [exact Hfs| |reflexivity].
  cbn [match_items match_piece atom_matches]. now rewrite Ascii.eqb_refl.
Qed.

Lemma sub_loop_absent (fuel : nat) (r : regex) (template : list part)
    (count : option nat) (s : str) :
  search_compiled r s = None -> sub_loop fuel r template count s = s.
Proof.
  intros H. destruct fuel; [reflexivity|].
  destruct count as [[|n]|]; cbn [sub_loop]; rewrite ?H; reflexivity.
Qed.

(** [count=0] with one match in the text and a replacement without
    backslash: the match is replaced, and the text around it stays. *)
Lemma sub_compiled_single (r : regex) (repl s : str) (m : match_) :
  ~ In Str.backslash repl ->
  search_compiled r s = Some m -> text m <> [] ->
  search_compiled r (after m) = None ->
  sub_compiled r repl s 0 = Ok (before m ++ repl ++ after m).
Proof.
  intros Hr Hs Ht Ha. unfold sub_compiled.
  rewrite (parse_template_plain _ _ Hr). cbn [bind sub_loop]. rewrite Hs.
  rewrite expand_literals.
  destruct (text m); [contradiction|].
  now rewrite (sub_loop_absent _ _ _ _ _ Ha).
Qed.

(** The replacement has a backslash only where the file name has one. *)
Lemma key_template_plain (neuron_type file_name : str) :
  Forall (fun c => Str.is_alnum c = true) neuron_type ->
  ~ In Str.backslash file_name ->
  ~ In Str.backslash ("'" ++ neuron_type ++ "':'" ++ file_name ++ "'").
Proof.
  intros Hnt Hfile Hin.
  apply in_app_or in Hin as [Hin|Hin]; [now destruct Hin|].
  apply in_app_or in Hin as [Hin|Hin];
    [now apply (alnum_not_backslash _ Hnt)|].
  apply in_app_or in Hin as [Hin|Hin];
    [repeat (destruct Hin as [Hin|Hin]; [discriminate Hin|]); exact Hin|].
  apply in_app_or in Hin as [Hin|Hin]; [contradiction|].
  now destruct Hin.
Qed.

End UpdateFacts.

(** The pair of the key [neuron_type] is replaced by ['neuron_type':'file_name'],
    without the white space that stood around the colon; the text before
    and after the pair stays. *)
Theorem update_morph_file_name_rewrites_pair
    (line neuron_type file_name pre ws1 ws2 old post : str) :
  Forall (fun c => Str.is_alnum c = true) neuron_type ->
  ~ In Str.backslash file_name ->
  Spec.partition line ("'" ++ neuron_type ++ "'")
  = Some (pre, ws1 ++ ":" ++ ws2 ++ "'" ++ old ++ "'" ++ post) ->
  Forall (fun c => Re.is_space c = true) ws1 ->
  Forall (fun c => Re.is_space c = true) ws2 ->
  old <> [] ->
  Forall (fun c => Re.atom_matches Pattern.file_chars c = true) old ->
  Str.contains post ("'" ++ neuron_type ++ "'") = false ->
  update_morph_file_name line neuron_type file_name
  = Ok (pre ++ "'" ++ neuron_type ++ "':'" ++ file_name ++ "'" ++ post).
Proof.
  intros Hnt Hfile Hp H1 H2 Hne Hold Hpost.
  unfold update_morph_file_name, Re.sub. rewrite (compile_key _ Hnt).
  pose proof (key_matches ("'" ++ neuron_type ++ "'") ws1 ws2 old post
                H1 H2 Hne Hold) as Hm.
  pose proof (search_compiled_first _ _ _ _ _ _ _ (key_begins _ _) Hp Hm)
    as Hs.
  rewrite (sub_compiled_single _ _ _ _
             (key_template_plain _ _ Hnt Hfile) Hs).
  - cbn [Re.before Re.after]. now rewrite <- !app_assoc.
  - cbn [Re.text].
    replace (("'" ++ neuron_type ++ "'") ++
             ws1 ++ ":" ++ ws2 ++ "'" ++ old ++ "'" ++ post)
      with (("'"%char :: neuron_type ++ "'" ++
             ws1 ++ ":" ++ ws2 ++ "'" ++ old ++ "'") ++ post).
    + rewrite consumed_app. discriminate.
    + cbn [app list_ascii_of_string].
      repeat (progress (rewrite <- ?app_assoc; cbn [app])). reflexivity.
  - cbn [Re.after]. apply (search_compiled_absent _ _ _ (key_begins _ _)).
    rewrite contains_partition in Hpost.
    now destruct (Spec.partition post ("'" ++ neuron_type ++ "'")).
Qed.

Lemma update_morph_file_name_rewrites_pair_witness :
  update_morph_file_name "'D1' : 'a.p'" "D1" "b.p" = Ok ("'D1':'b.p'" : str).
Proof.
  apply (update_morph_file_name_rewrites_pair
           "'D1' : 'a.p'" "D1" "b.p" "" " " " " "a.p" "").
  - repeat constructor.
  - intros H. repeat (destruct H as [H|H]; [discriminate H|]). exact H.
  - reflexivity.
  - repeat constructor.
  - repeat constructor.
  - discriminate.
  - repeat constructor.
  - reflexivity.
Defined.

(** A line without the quoted key comes back as it is, for a new file
    name without backslash (the replacement is parsed as a template before
    the search, so one with a backslash may raise). *)
Theorem update_morph_file_name_without_key (line neuron_type file_name : str) :
  Forall (fun c => Str.is_alnum c = true) neuron_type ->
  ~ In Str.backslash file_name ->
  Str.contains line ("'" ++ neuron_type ++ "'") = false ->
  update_morph_file_name line neuron_type file_name = Ok line.
Proof.
  intros Hnt Hfile Hc. unfold update_morph_file_name, Re.sub.
  rewrite (compile_key _ Hnt).
  apply (sub_compiled_absent _ _ _ _ (key_template_plain _ _ Hnt Hfile)).
  apply (search_compiled_absent _ _ _ (key_begins _ _)).
  rewrite contains_partition in Hc.
  now destruct (Spec.partition line ("'" ++ neuron_type ++ "'")).
Qed.

Lemma update_morph_file_name_without_key_witness :
  update_morph_file_name "'D2':'a.p'" "D1" "b.p" = Ok ("'D2':'a.p'" : str).
Proof.
  apply (update_morph_file_name_without_key "'D2':'a.p'" "D1" "b.p").
  - repeat constructor.
  - intros H. repeat (destruct H as [H|H]; [discriminate H|]). exact H.
  - reflexivity.
Defined.

(** * [Rectification.rectification] *)

(** With twelve samples or more, the mean is taken over the tail of the
    falling curve, whatever the place [pos] of its minimum: over the
    samples from index [max (pos + 5) (size - 1) - 11] to the end, which
    are the last twelve as soon as the minimum lies at least five samples
    before the last one. *)
Theorem rectification_averages_tail :
  forall (vartype_sub : Features.vartype -> Features.vartype -> Features.vartype)
         (array_mean : list float -> Features.vartype) (default_dev : float)
         (ccut : Features.wave) (steady : Features.vartype),
    (12 <= length ccut)%nat ->
    exists pos : nat,
      Np.argmin (Features.ys ccut) = Ok pos /\ (pos < length ccut)%nat /\
      Features.rectification vartype_sub array_mean default_dev ccut steady
      = Ok (vartype_sub steady
              (array_mean
                 (Features.ys
                    (skipn (Nat.max (pos + 5) (length ccut - 1) - 11) ccut))))
      /\ ((pos + 5 < length ccut)%nat ->
          Nat.max (pos + 5) (length ccut - 1) - 11 = length ccut - 12)%nat.
Proof.
  intros vartype_sub array_mean default_dev ccut steady H.
  destruct (argmin_minimum (Features.ys ccut)) as [pos [v [Hpos [Hnth _]]]].
  { intros E. apply (f_equal (@length float)) in E.
    unfold Features.ys in E. rewrite length_map in E. cbn in E. lia. }
  assert (Hlt : (pos < length ccut)%nat).
  { assert (Hs : nth_error (Features.ys ccut) pos <> None) by congruence.
    apply nth_error_Some in Hs. unfold Features.ys in Hs.
    now rewrite length_map in Hs. }
  exists pos. split; [exact Hpos|]. split; [exact Hlt|]. split; [|lia].
  unfold Features.rectification, Features.window_len.
  replace (Z.of_nat (length ccut) <? 11 + 1)%Z with false
    by (symmetry; apply Z.ltb_ge; lia).
  rewrite Hpos. cbn [bind]. do 4 f_equal.
  change (11 / 2)%Z with 5%Z.
  unfold Py.slice, Py.clip.
  set (e := Z.max (Z.of_nat pos + 5) (Z.of_nat (length ccut) - 1)).
  replace (e - 11 <? 0)%Z with false by (symmetry; apply Z.ltb_ge; lia).
  replace (e + 11 + 1 <? 0)%Z with false by (symmetry; apply Z.ltb_ge; lia).
  replace (Z.to_nat (Z.min (e - 11) (Z.of_nat (length ccut))))
    with (Nat.max (pos + 5) (length ccut - 1) - 11)%nat by lia.
  apply firstn_all2. rewrite length_skipn. lia.
Qed.

Lemma rectification_averages_tail_witness :
  let ccut := map (fun v => {| Wave.x := v; Wave.y := v |})
                  [9; 8; 1; 4; 5; 6; 7; 8; 9; 10; 11; 12; 13]%float in
  let vartype_sub := fun a b =>
    {| Features.x := (Features.x a - Features.x b)%float;
       Features.dev := 0%float |} in
  let array_mean := fun l =>
    {| Features.x := (Np.sum l / Np.size l)%float; Features.dev := 0%float |} in
  let steady := {| Features.x := 10%float; Features.dev := 0%float |} in
  exists pos : nat,
    Np.argmin (Features.ys ccut) = Ok pos /\ (pos < length ccut)%nat /\
    Features.rectification vartype_sub array_mean 0%float ccut steady
    = Ok (vartype_sub steady
            (array_mean
               (Features.ys
                  (skipn (Nat.max (pos + 5) (length ccut - 1) - 11) ccut))))
    /\ ((pos + 5 < length ccut)%nat ->
        Nat.max (pos + 5) (length ccut - 1) - 11 = length ccut - 12)%nat.
Proof.
  intros ccut vartype_sub array_mean steady.
  apply (rectification_averages_tail vartype_sub array_mean 0%float ccut steady).
  cbn. lia.
Defined.

(** * [simple_combined_fitness] and not-a-number axes *)

Section NanAxes.

Open Scope float_scope.

Lemma isnan_is_nan (x : float) : Np.isnan x = true -> x = nan.
Proof.
  rewrite isnan_spec, SFeqb_self. intros H.
  rewrite <- (SF2Prim_Prim2SF x).
  destruct (Prim2SF x); try discriminate H. reflexivity.
Qed.

(** What one axis adds to the sum. *)
Lemma nan_axis_adds_nothing (x : float) :
  (if Np.isnan (Np.square (Np.square x)) then 0
   else Np.square (Np.square x))
  = (let z := if Np.isnan x then 0 else x in
     if Np.isnan (Np.square (Np.square z)) then 0
     else Np.square (Np.square z)).
Proof.
  destruct (Np.isnan x) eqn:E; [|reflexivity].
  apply isnan_is_nan in E. subst x. reflexivity.
Qed.

End NanAxes.

(** An axis that cannot be evaluated counts as a perfect one: the result
    is the same as with zero in place of each not-a-number, still divided
    by eleven; a simulation with no axis that can be evaluated scores 0,
    the best score there is. *)
Theorem simple_combined_fitness_nan_axes_as_zero :
  forall (simulation measurement : Type)
         (f1 f2 f3 f4 f5 f6 f7 f8 f9 f10 f11 :
            simulation -> measurement -> float)
         (sim : simulation) (meas : measurement),
    simple_combined_fitness f1 f2 f3 f4 f5 f6 f7 f8 f9 f10 f11 sim meas
    = simple_combined_fitness
        (nan_as_zero f1) (nan_as_zero f2) (nan_as_zero f3) (nan_as_zero f4)
        (nan_as_zero f5) (nan_as_zero f6) (nan_as_zero f7) (nan_as_zero f8)
        (nan_as_zero f9) (nan_as_zero f10) (nan_as_zero f11) sim meas
    /\ (Forall (fun f => Np.isnan (f sim meas) = true)
               [f1; f2; f3; f4; f5; f6; f7; f8; f9; f10; f11] ->
        simple_combined_fitness f1 f2 f3 f4 f5 f6 f7 f8 f9 f10 f11 sim meas
        = 0%float).
Proof.
  intros. split.
  - unfold simple_combined_fitness, simple_combined_arr, simple_axes,
      Np.nansum, nan_as_zero.
    cbn [map].
    rewrite (nan_axis_adds_nothing (f1 sim meas)),
      (nan_axis_adds_nothing (f2 sim meas)),
      (nan_axis_adds_nothing (f3 sim meas)),
      (nan_axis_adds_nothing (f4 sim meas)),
      (nan_axis_adds_nothing (f5 sim meas)),
      (nan_axis_adds_nothing (f6 sim meas)),
      (nan_axis_adds_nothing (f7 sim meas)),
      (nan_axis_adds_nothing (f8 sim meas)),
      (nan_axis_adds_nothing (f9 sim meas)),
      (nan_axis_adds_nothing (f10 sim meas)),
      (nan_axis_adds_nothing (f11 sim meas)).
    reflexivity.
  - intros H.
    repeat match goal with
           | H : Forall _ (_ :: _) |- _ =>
               let E := fresh "E" in
               apply Forall_cons_iff in H as [E H];
               apply isnan_is_nan in E
           end.
    unfold simple_combined_fitness, simple_combined_arr, simple_axes.
    cbn [map]. rewrite E, E0, E1, E2, E3, E4, E5, E6, E7, E8, E9.
    vm_compute. reflexivity.
Qed.

Lemma simple_combined_fitness_nan_axes_as_zero_witness :
  let misfit := fun (_ _ : unit) => nan in
  simple_combined_fitness misfit misfit misfit misfit misfit misfit misfit
    misfit misfit misfit misfit tt tt = 0%float.
Proof.
  intros misfit.
  apply (simple_combined_fitness_nan_axes_as_zero unit unit
           misfit misfit misfit misfit misfit misfit misfit misfit misfit
           misfit misfit tt tt).
  repeat constructor.
Defined.

(** * [find_best] and [find_multi_best] at the edges *)

Lemma find_best_returns_minimal
    (candidate measurement : Type)
    (fitness : candidate -> measurement -> float) (meas : measurement)
    (group : list candidate) :
  group <> [] ->
  exists best,
    find_best group meas fitness = Ok best /\ In best group /\
    forall sim, In sim group ->
      (sort_key fitness meas sim <? sort_key fitness meas best)%float = false.
Proof.
  intros Hne. unfold find_best. rewrite replaced_scores.
  destruct (argmin_minimum (map (sort_key fitness meas) group))
    as [pos [v [Hpos [Hnth Hmin]]]].
  { destruct group; [contradiction|discriminate]. }
  rewrite Hpos. cbn [bind].
  rewrite nth_error_map in Hnth.
  destruct (nth_error group pos) as [best|] eqn:Hbest; [|discriminate].
  injection Hnth as <-.
  exists best. split; [reflexivity|]. split.
  - eapply nth_error_In; eassumption.
  - intros sim Hin. apply Hmin. now apply in_map.
Qed.

(** [find_best] raises [ValueError] on an empty group; on any other group
    it returns a candidate of the group that no candidate beats, a score
    that is not a number counting as [+inf]. *)
Theorem find_best_minimal :
  forall (candidate measurement : Type)
         (fitness : candidate -> measurement -> float) (meas : measurement)
         (group : list candidate),
    (group = [] -> find_best group meas fitness = Error ValueError) /\
    (group <> [] ->
     exists best,
       find_best group meas fitness = Ok best /\ In best group /\
       forall sim, In sim group ->
         (sort_key fitness meas sim <? sort_key fitness meas best)%float
         = false).
Proof.
  intros candidate measurement fitness meas group. split.
  - intros ->. reflexivity.
  - apply find_best_returns_minimal.
Qed.

Lemma find_best_minimal_witness :
  exists best,
    find_best [3; nan; 1; 2]%float tt (fun c _ => c) = Ok best /\
    In best [3; nan; 1; 2]%float /\
    forall sim, In sim [3; nan; 1; 2]%float ->
      (sort_key (fun c (_ : unit) => c) tt sim
       <? sort_key (fun c (_ : unit) => c) tt best)%float = false.
Proof.
  apply (find_best_minimal float unit (fun c _ => c) tt [3; nan; 1; 2]%float).
  discriminate.
Defined.

Section MisfitFacts.

Import Pareto.

Variables candidate measurement : Type.
Variable fitness : candidate -> measurement -> list float.
Variable meas : measurement.

(** Candidates with a not-a-number among their scores leave the kept ones
    as they are. *)
Lemma accumulate_misfits (group : list candidate) (st : kept candidate) :
  Forall (fun sim => has_nan (fitness sim meas) = true) group ->
  accumulate fitness meas st group = Ok st.
Proof.
  intros H. induction H as [|sim group Hsim _ IH]; [reflexivity|].
  cbn [accumulate]. unfold step. destruct st as [best scores].
  unfold has_nan in Hsim. rewrite Hsim. cbn [bind]. exact IH.
Qed.

End MisfitFacts.

(** When no candidate of the group has a score vector free of not-a-number
    (an empty group is one), nothing is kept: with [similarity] zero the
    result is empty, and with any other [similarity], the default
    included, the sum over [axis=1] of the empty one-dimensional array
    raises. *)
Theorem find_multi_best_without_scored :
  forall (candidate measurement : Type)
         (fitness : candidate -> measurement -> list float)
         (meas : measurement) (group : list candidate) (similarity : float),
    Forall (fun sim => Pareto.has_nan (fitness sim meas) = true) group ->
    Pareto.find_multi_best fitness meas group similarity
    = if (similarity =? 0)%float then Ok [] else Error AxisError.
Proof.
  intros candidate measurement fitness meas group similarity H.
  unfold Pareto.find_multi_best, Pareto.find_multi_best_full.
  rewrite (accumulate_misfits _ _ fitness meas group _ H). cbn [bind].
  destruct (similarity =? 0)%float; reflexivity.
Qed.

Lemma find_multi_best_without_scored_witness :
  Pareto.find_multi_best (fun (c : list float) (_ : unit) => c) tt
    [[1; nan]; [nan; 2]]%float Pareto.default_similarity
  = Error AxisError.
Proof.
  apply (find_multi_best_without_scored (list float) unit
           (fun c _ => c) tt [[1; nan]; [nan; 2]]%float
           Pareto.default_similarity).
  repeat constructor.
Defined.

(** * More on the matcher: what a match implies *)

Section MatchInversion.

Import Re Pattern.

Variable R : Type.

(** A star that succeeds has taken a run and left the rest to what
    follows. *)
Lemma star_inv (a : atom) (s : str) (k : str -> option R) (r : R) :
  star a s k = Some r ->
  exists w s', s = w ++ s' /\ run a w /\ k s' = Some r.
Proof.
  induction s as [|c s IH]; cbn [star].
  - intros H. exists [], []. repeat split; [constructor|exact H].
  - destruct (atom_matches a c) eqn:Hc.
    + destruct (star a s k) as [r'|] eqn:Hs.
      * intros [= <-]. destruct (IH eq_refl) as [w [s' [-> [Hw Hk]]]].
        exists (c :: w), s'. repeat split; [now constructor|exact Hk].
      * intros H. exists [], (c :: s). repeat split; [constructor|exact H].
    + intros H. exists [], (c :: s). repeat split; [constructor|exact H].
Qed.

End MatchInversion.

Section SearchAt.

Import Re Pattern.

(** The search stops at the first position with a match. *)
Lemma search_compiled_at (r : regex) (pre s rest : str) (g : option str) :
  (forall u v, pre = u ++ v -> v <> [] -> match_at r (v ++ s) = None) ->
  match_at r s = Some (rest, g) ->
  search_compiled r (pre ++ s) =
  Some {| before := pre; text := consumed s rest; after := rest;
          groups := has_group r; group1 := g |}.
Proof.
  intros Hpre Hm. induction pre as [|c pre IH]; cbn [app];
    rewrite search_compiled_eq.
  - now rewrite Hm.
  - assert (H0 : match_at r ((c :: pre) ++ s) = None)
      by (apply (Hpre [] (c :: pre) eq_refl); discriminate).
    cbn [app] in H0. rewrite H0.
    rewrite IH; [reflexivity|].
    intros u v -> Hv. apply (Hpre (c :: u) v eq_refl Hv).
Qed.

(** Nothing is found where nothing matches. *)
Lemma search_compiled_nowhere (r : regex) (s : str) :
  (forall u v, s = u ++ v -> match_at r v = None) ->
  search_compiled r s = None.
Proof.
  induction s as [|c s IH]; intros H; rewrite search_compiled_eq.
  - now rewrite (H [] [] eq_refl).
  - rewrite (H [] (c :: s) eq_refl), IH; [reflexivity|].
    intros u v ->. apply (H (c :: u) v eq_refl).
Qed.

Lemma app_inj_suffix {A : Type} (l1 l1' l2 l2' : list A) :
  length l2 = length l2' -> l1 ++ l2 = l1' ++ l2' -> l1 = l1' /\ l2 = l2'.
Proof.
  intros Hlen H.
  assert (Hl : length l1 = length l1').
  { apply (f_equal (@length A)) in H. rewrite !length_app in H. lia. }
  revert l1' Hl H. induction l1 as [|a l1 IH]; intros [|b l1'] Hl H;
    try discriminate Hl.
  - now split.
  - cbn [app] in H. injection H as -> H. injection Hl as Hl.
    destruct (IH _ Hl H) as [-> ->]. now split.
Qed.

End SearchAt.

(** * [get_file_name_with_version] on [.py] names *)

Section PyVersionFacts.

Import Re Pattern.

Lemma at_end_inv (s : str) :
  at_end s = true -> s = [] \/ s = [Str.newline].
Proof.
  destruct s as [|c [|d s]]; cbn [at_end]; intros H;
    [now left| |discriminate].
  right. apply Ascii.eqb_eq in H. now subst c.
Qed.

(** What the version pattern of the [.py] branch matches. *)
Lemma py_version_inv (t rest : str) (g : option str) :
  match_at (lit_items "_V" ++
            [Group [Many1 Digit]; Piece (One Dot); Piece (One (Lit "p"));
             Piece (One (Lit "y")); Eos]) t = Some (rest, g) ->
  exists ds c,
    t = "_V" ++ ds ++ c :: "py" ++ rest /\ ds <> [] /\ run Digit ds /\
    at_end rest = true.
Proof.
  unfold match_at. rewrite match_items_lits.
  destruct (Str.startswith t "_V") eqn:E; [|discriminate].
  apply startswith_spec in E.
  remember (skipn (length ("_V" : str)) t) as t' eqn:Ht. clear Ht. subst t.
  cbn [app match_items match_pieces match_piece].
  destruct t' as [|d t']; [discriminate|].
  destruct (atom_matches Digit d) eqn:Hd; [|discriminate].
  intros H. apply star_inv in H as [w [s' [-> [Hw Hk]]]].
  cbn [match_items match_piece atom_matches] in Hk.
  destruct s' as [|c s']; [discriminate|].
  destruct (negb (Ascii.eqb c Str.newline)); [|discriminate].
  destruct s' as [|p s']; [discriminate|].
  destruct (Ascii.eqb_spec p "p") as [->|]; [|discriminate].
  destruct s' as [|y s']; [discriminate|].
  destruct (Ascii.eqb_spec y "y") as [->|]; [|discriminate].
  destruct (at_end s') eqn:He; [|discriminate].
  injection Hk as <- <-.
  exists (d :: w), c.
  split; [reflexivity|]. split; [discriminate|].
  split; [now constructor|exact He].
Qed.

(** A name that ends in [.py] is matched up to its end only. *)
Lemma tail_py (X Y rest : str) (c : ascii) :
  at_end rest = true ->
  X ++ ".py" = Y ++ c :: "py" ++ rest ->
  X = Y /\ c = "."%char /\ rest = [].
Proof.
  intros He H. apply at_end_inv in He as [->| ->].
  - apply app_inj_suffix in H as [-> [= <-]]; [now repeat split|reflexivity].
  - exfalso.
    change (X ++ ".py") with (X ++ ["."; "p"]%char ++ ["y"%char]) in H.
    change (Y ++ c :: "py" ++ [Str.newline])
      with (Y ++ [c; "p"; "y"]%char ++ [Str.newline]) in H.
    rewrite !app_assoc in H.
    apply app_inj_suffix in H as [_ H]; [discriminate H|reflexivity].
Qed.

Lemma digit_run_chars (ds : str) (c : ascii) :
  run Digit ds -> In c ds -> Str.is_digit c = true.
Proof. intros H Hin. unfold run in H. rewrite Forall_forall in H. now apply H. Qed.

(** A version starts at the last [_V] before the digits. *)
Lemma no_earlier_version (w digits ds : str) :
  w <> [] -> run Digit ds -> w ++ "_V" ++ digits = "_V" ++ ds -> False.
Proof.
  intros Hw Hds H. destruct w as [|a [|b w]]; [contradiction| |].
  - injection H as _ H _. discriminate H.
  - injection H as _ _ H.
    assert (Hin : In "_"%char ds) by (rewrite <- H; apply in_elt).
    apply (digit_run_chars _ _ Hds) in Hin. discriminate Hin.
Qed.

Lemma of_uint_digits (d : Decimal.uint) :
  Forall (fun c => Str.is_digit c = true)
         (list_ascii_of_string (NilEmpty.string_of_uint d)).
Proof. induction d; cbn; constructor; auto. Qed.

Lemma of_nat_digits (n : nat) :
  Forall (fun c => Str.is_digit c = true) (Str.of_nat n).
Proof. apply of_uint_digits. Qed.

Lemma digits_not_backslash (l : str) :
  Forall (fun c => Str.is_digit c = true) l -> ~ In Str.backslash l.
Proof.
  intros H Hin. rewrite Forall_forall in H. now specialize (H _ Hin).
Qed.

(** The versioned name is matched at its version, with the digits in
    group 1. *)
Lemma py_version_found (stem digits : str) :
  digits <> [] -> Forall (fun c => Str.is_digit c = true) digits ->
  search_compiled
    (lit_items "_V" ++
     [Group [Many1 Digit]; Piece (One Dot); Piece (One (Lit "p"));
      Piece (One (Lit "y")); Eos])
    (stem ++ "_V" ++ digits ++ ".py")
  = Some {| before := stem; text := "_V" ++ digits ++ ".py"; after := [];
            groups := true; group1 := Some digits |}.
Proof.
  intros Hne Hd.
  rewrite <- (consumed_app ("_V" ++ digits ++ ".py") []) at 2.
  rewrite app_nil_r.
  apply search_compiled_at.
  - intros u v _ Hv.
    destruct (match_at _ _) as [[rest g]|] eqn:Hm; [exfalso|reflexivity].
    apply py_version_inv in Hm as [ds [c [E [_ [Hds He]]]]].
    change (v ++ "_V" ++ digits ++ ".py")
      with (v ++ "_V" ++ digits ++ ".py") in E.
    replace (v ++ "_V" ++ digits ++ ".py")
      with ((v ++ "_V" ++ digits) ++ ".py") in E
      by (now rewrite <- !app_assoc).
    replace ("_V" ++ ds ++ c :: "py" ++ rest)
      with (("_V" ++ ds) ++ c :: "py" ++ rest) in E
      by (now rewrite <- !app_assoc).
    apply tail_py in E as [E _]; [|exact He].
    now apply (no_earlier_version v digits ds).
  - unfold match_at.
    rewrite match_items_lits, startswith_app, skipn_app_length.
    cbn [match_items match_pieces match_piece].
    destruct Hd as [|d ds Hd Hds]; [contradiction|].
    cbn [app atom_matches]. rewrite Hd.
    apply star_greedy; [exact Hds| |reflexivity].
    cbn [match_items match_piece atom_matches at_end list_ascii_of_string].
    rewrite !Ascii.eqb_refl.
    replace (negb ("." =? Str.newline)%char) with true by reflexivity.
    do 3 f_equal. apply (consumed_app (d :: ds)).
Qed.

(** The replacement with the next version number has no backslash. *)
Lemma version_template_plain (n : nat) :
  ~ In Str.backslash ("_V" ++ Str.of_nat n ++ ".py").
Proof.
  intros Hin. apply in_app_or in Hin as [Hin|Hin].
  { repeat (destruct Hin as [Hin|Hin]; [discriminate Hin|]). exact Hin. }
  apply in_app_or in Hin as [Hin|Hin].
  { now apply (digits_not_backslash _ (of_nat_digits n)). }
  repeat (destruct Hin as [Hin|Hin]; [discriminate Hin|]). exact Hin.
Qed.

End PyVersionFacts.

(** A [.py] name that ends in [_V<digits>.py] gets the next version
    number. *)
Theorem get_file_name_with_version_py_increments (stem digits : str) :
  digits <> [] -> Forall (fun c => Str.is_digit c = true) digits ->
  get_file_name_with_version (stem ++ "_V" ++ digits ++ ".py")
  = Ok (stem ++ "_V" ++ Str.of_nat (Str.int digits + 1) ++ ".py").
Proof.
  intros Hne Hd. unfold get_file_name_with_version.
  replace (stem ++ "_V" ++ digits ++ ".py")
    with ((stem ++ "_V" ++ digits) ++ ".py")
    by (now rewrite <- !app_assoc).
  rewrite endswith_py. rewrite <- !app_assoc.
  unfold Re.search, Re.sub. rewrite compile_py_version. cbn [bind].
  pose proof (py_version_found stem digits Hne Hd) as Hs.
  rewrite Hs. unfold Re.group. cbn [Re.groups Re.group1 bind].
  rewrite (sub_compiled_single _ _ _ _ (version_template_plain _) Hs).
  - cbn [Re.before Re.after]. now rewrite app_nil_r.
  - discriminate.
  - reflexivity.
Qed.

Lemma get_file_name_with_version_py_increments_witness :
  get_file_name_with_version "model_V9.py" = Ok ("model_V10.py" : str).
Proof.
  apply (get_file_name_with_version_py_increments "model" "9").
  - discriminate.
  - repeat constructor.
Defined.

Section PyFirstVersion.

Import Re Pattern.

Lemma compile_py_extension :
  compile ".py$" =
  Some [Piece (One Dot); Piece (One (Lit "p")); Piece (One (Lit "y")); Eos].
Proof. reflexivity. Qed.

(** What [.py$] matches: any character but a newline, then [py], at the
    end. *)
Lemma py_extension_inv (t rest : str) (g : option str) :
  match_at [Piece (One Dot); Piece (One (Lit "p")); Piece (One (Lit "y")); Eos]
           t = Some (rest, g) ->
  exists c, t = c :: "py" ++ rest /\ at_end rest = true.
Proof.
  unfold match_at. cbn [match_items match_piece atom_matches].
  destruct t as [|c t]; [discriminate|].
  destruct (negb (Ascii.eqb c Str.newline)); [|discriminate].
  destruct t as [|p t]; [discriminate|].
  destruct (Ascii.eqb_spec p "p") as [->|]; [|discriminate].
  destruct t as [|y t]; [discriminate|].
  destruct (Ascii.eqb_spec y "y") as [->|]; [|discriminate].
  destruct (at_end t) eqn:He; [|discriminate].
  intros [= <- <-]. exists c. now split.
Qed.

Lemma py_extension_found (stem : str) :
  search_compiled
    [Piece (One Dot); Piece (One (Lit "p")); Piece (One (Lit "y")); Eos]
    (stem ++ ".py")
  = Some {| before := stem; text := ".py"; after := [];
            groups := false; group1 := None |}.
Proof.
  refine (search_compiled_at
            [Piece (One Dot); Piece (One (Lit "p")); Piece (One (Lit "y")); Eos]
            stem ".py" [] None _ eq_refl).
  intros u v _ Hv.
  destruct (match_at _ _) as [[rest g]|] eqn:Hm; [exfalso|reflexivity].
  apply py_extension_inv in Hm as [c [E He]].
  apply (tail_py v [] rest c He) in E as [-> _]. now apply Hv.
Qed.

(** A name that ends in [.py] without version is not matched by the
    version pattern. *)
Lemma py_version_absent (stem : str) :
  (forall s ds, ds <> [] -> Forall (fun c => Str.is_digit c = true) ds ->
                stem <> s ++ "_V" ++ ds) ->
  search_compiled
    (lit_items "_V" ++
     [Group [Many1 Digit]; Piece (One Dot); Piece (One (Lit "p"));
      Piece (One (Lit "y")); Eos])
    (stem ++ ".py")
  = None.
Proof.
  intros H. apply search_compiled_nowhere. intros u v E.
  destruct (match_at _ _) as [[rest g]|] eqn:Hm; [exfalso|reflexivity].
  apply py_version_inv in Hm as [ds [c [-> [Hne [Hds He]]]]].
  replace (u ++ "_V" ++ ds ++ c :: "py" ++ rest)
    with ((u ++ "_V" ++ ds) ++ c :: "py" ++ rest) in E
    by (now rewrite <- !app_assoc).
  apply tail_py in E as [E _]; [|exact He].
  now apply (H u ds Hne Hds).
Qed.

End PyFirstVersion.

(** A [.py] name that does not end in [_V<digits>.py] gets [_V1] before
    the extension. *)
Theorem get_file_name_with_version_py_first (stem : str) :
  (forall s ds, ds <> [] -> Forall (fun c => Str.is_digit c = true) ds ->
                stem <> s ++ "_V" ++ ds) ->
  get_file_name_with_version (stem ++ ".py") = Ok (stem ++ "_V1.py").
Proof.
  intros H. unfold get_file_name_with_version.
  rewrite endswith_py.
  unfold Re.search, Re.sub. rewrite compile_py_version. cbn [bind].
  rewrite (py_version_absent stem H), compile_py_extension.
  rewrite (sub_compiled_single _ _ _ _ (plain_literal "_V1.py" eq_refl)
             (py_extension_found stem));
    [|discriminate|reflexivity].
  cbn [Re.before Re.after]. now rewrite app_nil_r.
Qed.

Lemma get_file_name_with_version_py_first_witness :
  get_file_name_with_version "model.py" = Ok ("model_V1.py" : str).
Proof.
  apply (get_file_name_with_version_py_first "model").
  intros s ds _ _ E.
  assert (Hin : In "_"%char ("model" : str)).
  { rewrite E. apply in_or_app. right. now left. }
  repeat (destruct Hin as [Hin|Hin]; [discriminate Hin|]). exact Hin.
Defined.

(** * [get_file_name_with_version] on other names *)

Section PFirstVersion.

Import Re Pattern.

Lemma compile_p_extension :
  compile ".p$" = Some [Piece (One Dot); Piece (One (Lit "p")); Eos].
Proof. reflexivity. Qed.

Lemma tail_p (X Y rest : str) (c d : ascii) :
  at_end rest = true ->
  X ++ [c; "p"%char] = Y ++ d :: "p" ++ rest ->
  X = Y /\ c = d /\ rest = [].
Proof.
  intros He H. apply at_end_inv in He as [->| ->].
  - apply app_inj_suffix in H as [-> [= <-]]; [now repeat split|reflexivity].
  - exfalso.
    change (X ++ [c; "p"%char]) with (X ++ [c] ++ ["p"%char]) in H.
    change (Y ++ d :: "p" ++ [Str.newline])
      with (Y ++ [d; "p"]%char ++ [Str.newline]) in H.
    rewrite !app_assoc in H.
    apply app_inj_suffix in H as [_ H]; [discriminate H|reflexivity].
Qed.

Lemma p_version_inv (t rest : str) (g : option str) :
  match_at (lit_items "_V" ++
            [Piece (Many1 Digit); Piece (One Dot); Piece (One (Lit "p")); Eos])
           t = Some (rest, g) ->
  exists ds c,
    t = "_V" ++ ds ++ c :: "p" ++ rest /\ ds <> [] /\ run Digit ds /\
    at_end rest = true.
Proof.
  unfold match_at. rewrite match_items_lits.
  destruct (Str.startswith t "_V") eqn:E; [|discriminate].
  apply startswith_spec in E.
  remember (skipn (length ("_V" : str)) t) as t' eqn:Ht. clear Ht. subst t.
  cbn [app match_items match_piece].
  destruct t' as [|d t']; [discriminate|].
  destruct (atom_matches Digit d) eqn:Hd; [|discriminate].
  intros H. apply star_inv in H as [w [s' [-> [Hw Hk]]]].
  cbn [match_items match_piece atom_matches] in Hk.
  destruct s' as [|c s']; [discriminate|].
  destruct (negb (Ascii.eqb c Str.newline)); [|discriminate].
  destruct s' as [|p s']; [discriminate|].
  destruct (Ascii.eqb_spec p "p") as [->|]; [|discriminate].
  destruct (at_end s') eqn:He; [|discriminate].
  injection Hk as <- <-.
  exists (d :: w), c.
  split; [reflexivity|]. split; [discriminate|].
  split; [now constructor|exact He].
Qed.

Lemma p_extension_inv (t rest : str) (g : option str) :
  match_at [Piece (One Dot); Piece (One (Lit "p")); Eos] t = Some (rest, g) ->
  exists c, t = c :: "p" ++ rest /\ at_end rest = true.
Proof.
  unfold match_at. cbn [match_items match_piece atom_matches].
  destruct t as [|c t]; [discriminate|].
  destruct (negb (Ascii.eqb c Str.newline)); [|discriminate].
  destruct t as [|p t]; [discriminate|].
  destruct (Ascii.eqb_spec p "p") as [->|]; [|discriminate].
  destruct (at_end t) eqn:He; [|discriminate].
  intros [= <- <-]. exists c. now split.
Qed.

Lemma p_version_absent (stem : str) (c : ascii) :
  (forall s ds, ds <> [] -> Forall (fun c => Str.is_digit c = true) ds ->
                stem <> s ++ "_V" ++ ds) ->
  search_compiled
    (lit_items "_V" ++
     [Piece (Many1 Digit); Piece (One Dot); Piece (One (Lit "p")); Eos])
    (stem ++ [c; "p"%char])
  = None.
Proof.
  intros H. apply search_compiled_nowhere. intros u v E.
  destruct (match_at _ _) as [[rest g]|] eqn:Hm; [exfalso|reflexivity].
  apply p_version_inv in Hm as [ds [d [-> [Hne [Hds He]]]]].
  replace (u ++ "_V" ++ ds ++ d :: "p" ++ rest)
    with ((u ++ "_V" ++ ds) ++ d :: "p" ++ rest) in E
    by (now rewrite <- !app_assoc).
  apply tail_p in E as [E _]; [|exact He].
  now apply (H u ds Hne Hds).
Qed.

Lemma p_extension_found (stem : str) (c : ascii) :
  c <> Str.newline ->
  search_compiled [Piece (One Dot); Piece (One (Lit "p")); Eos]
                  (stem ++ [c; "p"%char])
  = Some {| before := stem; text := [c; "p"%char]; after := [];
            groups := false; group1 := None |}.
Proof.
  intros Hc.
  refine (search_compiled_at
            [Piece (One Dot); Piece (One (Lit "p")); Eos]
            stem [c; "p"%char] [] None _ _).
  - intros u v _ Hv.
    destruct (match_at _ _) as [[rest g]|] eqn:Hm; [exfalso|reflexivity].
    apply p_extension_inv in Hm as [d [E He]].
    apply (tail_p v [] rest c d He) in E as [-> _]. now apply Hv.
  - unfold match_at. cbn [match_items match_piece atom_matches at_end].
    destruct (Ascii.eqb_spec c Str.newline) as [E|_]; [contradiction|].
    reflexivity.
Qed.

End PFirstVersion.

(** A name that ends in [p] and has no version gets [_V1.p] in place of
    its last two characters: the character before the [p] is taken for
    the dot of the extension, whatever it is. *)
Theorem get_file_name_with_version_p_first (stem : str) (c : ascii) :
  c <> Str.newline ->
  (forall s ds, ds <> [] -> Forall (fun c => Str.is_digit c = true) ds ->
                stem <> s ++ "_V" ++ ds) ->
  get_file_name_with_version (stem ++ [c; "p"%char]) = Ok (stem ++ "_V1.p").
Proof.
  intros Hc H. unfold get_file_name_with_version.
  replace (Str.endswith (stem ++ [c; "p"%char]) ".py") with false
    by (unfold Str.endswith; now rewrite rev_app_distr).
  unfold Re.search, Re.sub. rewrite compile_p_version. cbn [bind].
  rewrite (p_version_absent stem c H), compile_p_extension.
  rewrite (sub_compiled_single _ _ _ _ (plain_literal "_V1.p" eq_refl)
             (p_extension_found stem c Hc));
    [|discriminate|reflexivity].
  cbn [Re.before Re.after]. now rewrite app_nil_r.
Qed.

Lemma get_file_name_with_version_p_first_witness :
  get_file_name_with_version "cellxp" = Ok ("cell_V1.p" : str).
Proof.
  apply (get_file_name_with_version_p_first "cell" "x").
  - discriminate.
  - intros s ds _ _ E.
    assert (Hin : In "_"%char ("cell" : str)).
    { rewrite E. apply in_or_app. right. now left. }
    repeat (destruct Hin as [Hin|Hin]; [discriminate Hin|]). exact Hin.
Defined.

Section OtherNames.

Import Re Pattern.

(** Both patterns of the [.p] branch end with [p] at the end of the name,
    or before its final newline. *)
Lemma not_p_at_end (X rest stem : str) (c : ascii) :
  at_end rest = true -> c <> "p"%char -> c <> Str.newline ->
  X ++ "p" ++ rest <> stem ++ [c].
Proof.
  intros He Hp Hn E. apply at_end_inv in He as [->| ->].
  - apply app_inj_suffix in E as [_ [= E]]; [|reflexivity].
    now apply Hp.
  - change (X ++ "p" ++ [Str.newline]) with (X ++ ["p"%char] ++ [Str.newline])
      in E.
    rewrite app_assoc in E.
    apply app_inj_suffix in E as [_ [= E]]; [|reflexivity].
    now apply Hn.
Qed.

End OtherNames.

(** A name that ends neither in [p] nor in [y] nor in a newline is
    returned as it is: no version is added. *)
Theorem get_file_name_with_version_other (stem : str) (c : ascii) :
  c <> "p"%char -> c <> "y"%char -> c <> Str.newline ->
  get_file_name_with_version (stem ++ [c]) = Ok (stem ++ [c]).
Proof.
  intros Hp Hy Hn. unfold get_file_name_with_version.
  replace (Str.endswith (stem ++ [c]) ".py") with false.
  2:{ unfold Str.endswith. rewrite rev_app_distr.
      change (rev [c] ++ rev stem) with (c :: rev stem).
      change (rev ".py") with ["y"; "p"; "."]%char.
      rewrite startswith_cons.
      destruct (Ascii.eqb_spec c "y"); [contradiction|reflexivity]. }
  unfold Re.search, Re.sub. rewrite compile_p_version. cbn [bind].
  rewrite search_compiled_nowhere.
  - rewrite compile_p_extension.
    apply (sub_compiled_absent _ _ _ _ (plain_literal "_V1.p" eq_refl)).
    apply search_compiled_nowhere. intros u v E.
    destruct (Re.match_at _ _) as [[rest g]|] eqn:Hm; [exfalso|reflexivity].
    apply p_extension_inv in Hm as [d [-> He]].
    apply (not_p_at_end (u ++ [d]) rest stem c He Hp Hn).
    rewrite E. now rewrite <- app_assoc.
  - intros u v E.
    destruct (Re.match_at _ _) as [[rest g]|] eqn:Hm; [exfalso|reflexivity].
    apply p_version_inv in Hm as [ds [d [-> [_ [_ He]]]]].
    apply (not_p_at_end (u ++ "_V" ++ ds ++ [d]) rest stem c He Hp Hn).
    rewrite E. now rewrite <- !app_assoc.
Qed.

Lemma get_file_name_with_version_other_witness :
  get_file_name_with_version "morph.txt" = Ok ("morph.txt" : str).
Proof.
  apply (get_file_name_with_version_other "morph.tx" "t"); discriminate.
Defined.

(** * The combinations that take a plain mean *)

Section NanPropagation.

Open Scope float_scope.

Lemma add_nan_l (x : float) : nan + x = nan.
Proof.
  rewrite <- (SF2Prim_Prim2SF (nan + x)), add_spec.
  change (Prim2SF nan) with S754_nan. now destruct (Prim2SF x).
Qed.

Lemma add_nan_r (x : float) : x + nan = nan.
Proof.
  rewrite <- (SF2Prim_Prim2SF (x + nan)), add_spec.
  change (Prim2SF nan) with S754_nan. now destruct (Prim2SF x).
Qed.

Lemma div_nan_l (x : float) : nan / x = nan.
Proof.
  rewrite <- (SF2Prim_Prim2SF (nan / x)), div_spec.
  change (Prim2SF nan) with S754_nan. now destruct (Prim2SF x).
Qed.

Lemma sum_from_nan (l : list float) :
  fold_left (fun acc x => acc + x) l nan = nan.
Proof. induction l as [|x l IH]; cbn [fold_left]; [|rewrite add_nan_l]; auto. Qed.

Lemma sum_with_nan (l : list float) :
  In nan l -> forall acc, fold_left (fun acc x => acc + x) l acc = nan.
Proof.
  induction l as [|x l IH]; intros Hin acc; [contradiction|].
  cbn [fold_left]. destruct Hin as [->|Hin].
  - rewrite add_nan_r. apply sum_from_nan.
  - now apply IH.
Qed.

(** A not-a-number among the values makes their root mean square one. *)
Lemma rms_nan (arr : list float) : In nan arr -> Combined.rms arr = nan.
Proof.
  intros Hin. unfold Combined.rms, Np.sum.
  rewrite sum_with_nan.
  - now rewrite div_nan_l.
  - change nan with (Np.square nan). now apply in_map.
Qed.

End NanPropagation.

Section PlainMeans.

Variables simulation measurement : Type.
Variables response_fitness baseline_fitness rectification_fitness
  falling_curve_time_fitness spike_count_fitness mean_isi_fitness
  spike_latency_fitness spike_width_fitness spike_height_fitness
  spike_ahp_fitness spike_time_fitness charging_curve_fitness
  : simulation -> measurement -> float.
Variable sim : simulation.
Variable meas : measurement.

Local Ltac some_axis_nan H :=
  repeat (apply Exists_cons in H as [H|H]);
  try (apply Exists_nil in H; contradiction);
  apply isnan_is_nan in H; rewrite H; cbn [In];
  repeat first [left; reflexivity | right].

(** Where [simple_combined_fitness] takes a not-a-number axis for a
    perfect one, the combinations that take the plain mean of the squares
    return not-a-number as soon as one of their axes is not a number. *)
Theorem plain_mean_fitness_propagates_nan :
  let bad := fun f : simulation -> measurement -> float =>
               Np.isnan (f sim meas) = true in
  (Exists bad [response_fitness; baseline_fitness; rectification_fitness;
               falling_curve_time_fitness; spike_count_fitness] ->
   Np.isnan (Combined.hyperpol_fitness response_fitness baseline_fitness
               rectification_fitness falling_curve_time_fitness
               spike_count_fitness sim meas) = true) /\
  (Exists bad [mean_isi_fitness; spike_latency_fitness; spike_width_fitness;
               spike_height_fitness; spike_ahp_fitness; spike_time_fitness] ->
   Np.isnan (Combined.spike_fitness_0 mean_isi_fitness spike_latency_fitness
               spike_width_fitness spike_height_fitness spike_ahp_fitness
               spike_time_fitness sim meas) = true) /\
  (Exists bad [spike_time_fitness; spike_width_fitness; spike_height_fitness;
               spike_ahp_fitness] ->
   Np.isnan (Combined.spike_fitness spike_width_fitness spike_height_fitness
               spike_ahp_fitness spike_time_fitness sim meas) = true) /\
  (Exists bad [response_fitness; baseline_fitness; rectification_fitness;
               falling_curve_time_fitness; spike_time_fitness;
               spike_width_fitness; spike_height_fitness;
               spike_ahp_fitness] ->
   Np.isnan (Combined.new_combined_fitness response_fitness baseline_fitness
               rectification_fitness falling_curve_time_fitness
               spike_width_fitness spike_height_fitness spike_ahp_fitness
               spike_time_fitness sim meas) = true) /\
  (Exists bad [spike_latency_fitness; charging_curve_fitness] ->
   Np.isnan (Combined.spike_onset_fitness spike_latency_fitness
               charging_curve_fitness sim meas) = true).
Proof.
  intros bad. unfold bad. repeat split; intros H.
  - unfold Combined.hyperpol_fitness, Combined.hyperpol_fitness_full.
    rewrite rms_nan; [reflexivity|]. some_axis_nan H.
  - unfold Combined.spike_fitness_0, Combined.spike_fitness_0_full.
    rewrite rms_nan; [reflexivity|]. some_axis_nan H.
  - unfold Combined.spike_fitness, Combined.spike_fitness_full.
    rewrite rms_nan; [reflexivity|]. some_axis_nan H.
  - unfold Combined.new_combined_fitness, Combined.new_combined_fitness_full.
    rewrite rms_nan; [reflexivity|]. some_axis_nan H.
  - unfold Combined.spike_onset_fitness.
    rewrite rms_nan; [reflexivity|]. some_axis_nan H.
Qed.

End PlainMeans.

Lemma plain_mean_fitness_propagates_nan_witness :
  let one := fun (_ _ : unit) => 1%float in
  let misfit := fun (_ _ : unit) => nan in
  Np.isnan (Combined.hyperpol_fitness one one misfit one one tt tt) = true.
Proof.
  intros one misfit.
  apply (plain_mean_fitness_propagates_nan unit unit
           one one misfit one one one one one one one one one tt tt).
  right. right. left. reflexivity.
Defined.

(** * [check_version_build_file_path] *)

Section VersionedPath.

Import Re Pattern.

Lemma compile_version_end :
  compile "_V\d*$" = Some (lit_items "_V" ++ [Piece (Many Digit); Eos]).
Proof. reflexivity. Qed.

Lemma compile_version_group :
  compile "_(V\d*)$" =
  Some (lit_items "_" ++ [Group [One (Lit "V"); Many Digit]; Eos]).
Proof. reflexivity. Qed.

(** What the two version patterns match: [_V], digits, and the end. *)
Lemma version_end_inv (t rest : str) (g : option str) :
  match_at (lit_items "_V" ++ [Piece (Many Digit); Eos]) t = Some (rest, g) ->
  exists ds, t = "_V" ++ ds ++ rest /\ run Digit ds /\ at_end rest = true.
Proof.
  unfold match_at. rewrite match_items_lits.
  destruct (Str.startswith t "_V") eqn:E; [|discriminate].
  apply startswith_spec in E.
  remember (skipn (length ("_V" : str)) t) as t' eqn:Ht. clear Ht. subst t.
  cbn [match_items match_piece].
  intros H. apply star_inv in H as [w [s' [-> [Hw Hk]]]].
  cbn [match_items] in Hk.
  destruct (at_end s') eqn:He; [|discriminate].
  injection Hk as <- <-. exists w. now repeat split.
Qed.

Lemma version_group_inv (t rest : str) (g : option str) :
  match_at (lit_items "_" ++ [Group [One (Lit "V"); Many Digit]; Eos]) t
  = Some (rest, g) ->
  exists ds, t = "_V" ++ ds ++ rest /\ run Digit ds /\ at_end rest = true /\
             g = Some ("V" ++ ds).
Proof.
  unfold match_at. rewrite match_items_lits.
  destruct (Str.startswith t "_") eqn:E; [|discriminate].
  apply startswith_spec in E.
  remember (skipn (length ("_" : str)) t) as t' eqn:Ht. clear Ht. subst t.
  cbn [match_items match_pieces match_piece atom_matches].
  destruct t' as [|v t']; [discriminate|].
  destruct (Ascii.eqb_spec v "V") as [->|]; [|discriminate].
  intros H. apply star_inv in H as [w [s' [-> [Hw Hk]]]].
  cbn [match_items] in Hk.
  destruct (at_end s') eqn:He; [|discriminate].
  injection Hk as <- <-. exists w. repeat split; try assumption.
  f_equal. apply (consumed_app ("V"%char :: w) s').
Qed.

(** Where a version is, and which: [_V] and the digits at the end are
    read in one way only. *)
Lemma version_unique (u base ds digits : str) :
  run Digit ds -> run Digit digits ->
  u ++ "_V" ++ ds = base ++ "_V" ++ digits -> u = base /\ ds = digits.
Proof.
  intros Hds Hdigits E. apply app_eq_app in E as [l [[-> E]|[-> E]]].
  - destruct l as [|a l].
    + cbn [app] in E. apply app_inv_head in E. subst. now rewrite app_nil_r.
    + exfalso. apply (no_earlier_version (a :: l) ds digits);
        [discriminate|exact Hdigits|now symmetry].
  - destruct l as [|a l].
    + cbn [app] in E. apply app_inv_head in E. subst. now rewrite app_nil_r.
    + exfalso. apply (no_earlier_version (a :: l) digits ds);
        [discriminate|exact Hds|now symmetry].
Qed.

(** A versioned name does not end with a newline. *)
Lemma version_no_newline (base digits X : str) :
  run Digit digits -> base ++ "_V" ++ digits <> X ++ [Str.newline].
Proof.
  intros Hd E.
  destruct (exists_last (l := "_V" ++ digits)) as [l [z Hz]]; [discriminate|].
  assert (Hin : In z ("_V" ++ digits)) by (rewrite Hz; apply in_elt).
  rewrite Hz, app_assoc in E. apply app_inj_tail in E as [_ ->].
  destruct Hin as [Hin|[Hin|Hin]]; [discriminate Hin|discriminate Hin|].
  apply (digit_run_chars _ _ Hd) in Hin. discriminate Hin.
Qed.

End VersionedPath.

Section PathFacts.

Import Re Pattern.

Lemma rsplit1_cons (c : ascii) (s sep : str) :
  StrOps.rsplit1 (c :: s) sep =
  match StrOps.rsplit1 s sep with
  | Some (head, tail) => Some (c :: head, tail)
  | None =>
      if Str.startswith (c :: s) sep
      then Some ([], skipn (length sep) (c :: s)) else None
  end.
Proof. reflexivity. Qed.

Lemma rsplit1_no_dot (s : str) :
  ~ In "."%char s -> StrOps.rsplit1 s "." = None.
Proof.
  induction s as [|c s IH]; intros H; [reflexivity|].
  rewrite rsplit1_cons, IH by (intros Hin; apply H; now right).
  change (Str.startswith (c :: s) ".")
    with (Ascii.eqb c "." && Str.startswith s []).
  destruct (Ascii.eqb_spec c ".") as [->|]; [|reflexivity].
  exfalso. apply H. now left.
Qed.

(** The name is cut at its last dot. *)
Lemma rpartition_last_dot (stem ext : str) :
  ~ In "."%char ext ->
  StrOps.rpartition (stem ++ "." ++ ext) "." = (stem, ("." : str), ext).
Proof.
  intros H. unfold StrOps.rpartition.
  replace (StrOps.rsplit1 (stem ++ "." ++ ext) ".") with (Some (stem, ext));
    [reflexivity|].
  symmetry. induction stem as [|c stem IH].
  - change ([] ++ "." ++ ext) with ("."%char :: ext).
    rewrite rsplit1_cons, (rsplit1_no_dot _ H).
    change (Str.startswith ("."%char :: ext) ".")
      with (Ascii.eqb "." "." && Str.startswith ext []).
    now rewrite startswith_nil.
  - cbn [app]. rewrite rsplit1_cons.
    change (stem ++ "."%char :: ext) with (stem ++ "." ++ ext).
    now rewrite IH.
Qed.

Lemma rpartition_no_dot (s : str) :
  ~ In "."%char s -> StrOps.rpartition s "." = ([], [], s).
Proof. intros H. unfold StrOps.rpartition. now rewrite rsplit1_no_dot. Qed.

(** A versioned name is matched at its version. *)
Lemma version_group_found (base digits : str) :
  run Digit digits ->
  search_compiled (lit_items "_" ++ [Group [One (Lit "V"); Many Digit]; Eos])
                  (base ++ "_V" ++ digits)
  = Some {| before := base; text := "_V" ++ digits; after := [];
            groups := true; group1 := Some ("V" ++ digits) |}.
Proof.
  intros Hd.
  rewrite <- (consumed_app ("_V" ++ digits) []) at 2. rewrite app_nil_r.
  refine (search_compiled_at
            (lit_items "_" ++ [Group [One (Lit "V"); Many Digit]; Eos])
            base ("_V" ++ digits) [] (Some ("V" ++ digits)) _ _).
  - intros u v _ Hv.
    destruct (match_at _ _) as [[rest g]|] eqn:Hm; [exfalso|reflexivity].
    apply version_group_inv in Hm as [ds [E [Hds [He _]]]].
    apply at_end_inv in He as [->| ->].
    + rewrite app_nil_r in E.
      apply (version_unique v [] digits ds Hd Hds) in E as [-> _].
      now apply Hv.
    + rewrite !app_assoc in E. rewrite <- !app_assoc in E.
      apply (version_no_newline v digits ("_V" ++ ds) Hd).
      now rewrite <- app_assoc.
  - unfold match_at.
    change ("_V" ++ digits) with ("_" ++ "V"%char :: digits).
    rewrite match_items_lits, startswith_app, skipn_app_length.
    cbn [match_items match_pieces match_piece atom_matches].
    rewrite Ascii.eqb_refl.
    rewrite <- (app_nil_r digits) at 1.
    apply star_greedy; [exact Hd| |exact I].
    cbn [match_items at_end]. do 3 f_equal.
    pose proof (consumed_app ("V"%char :: digits) []) as Hc.
    rewrite app_nil_r in Hc. exact Hc.
Qed.

Lemma version_end_matches (digits : str) :
  run Digit digits ->
  match_at (lit_items "_V" ++ [Piece (Many Digit); Eos]) ("_V" ++ digits)
  <> None.
Proof.
  intros Hd. unfold match_at.
  rewrite match_items_lits, startswith_app, skipn_app_length.
  cbn [match_items match_piece].
  rewrite <- (app_nil_r digits).
  apply star_succeeds; [exact Hd|discriminate].
Qed.

(** What [strip] leaves of a name whose ends are not among the
    characters. *)
Lemma lstrip_run (l s chars : str) :
  Forall (fun c => StrOps.mem c chars = true) l ->
  StrOps.lstrip (l ++ s) chars = StrOps.lstrip s chars.
Proof.
  intros H. induction H as [|c l Hc _ IH]; [reflexivity|].
  cbn [app StrOps.lstrip]. now rewrite Hc.
Qed.

Lemma strip_clean (a : ascii) (mid suffix chars : str) :
  StrOps.mem a chars = false ->
  StrOps.mem (last (a :: mid) a) chars = false ->
  Forall (fun c => StrOps.mem c chars = true) suffix ->
  StrOps.strip ((a :: mid) ++ suffix) chars = a :: mid.
Proof.
  intros Ha Hl Hs. unfold StrOps.strip, StrOps.rstrip.
  cbn [app StrOps.lstrip]. rewrite Ha.
  change (a :: mid ++ suffix) with ((a :: mid) ++ suffix).
  rewrite rev_app_distr, lstrip_run
    by (apply Forall_rev; exact Hs).
  rewrite (app_removelast_last a (l := a :: mid)) at 1 by discriminate.
  rewrite rev_app_distr. cbn [rev app StrOps.lstrip]. rewrite Hl.
  change (last (a :: mid) a :: rev (removelast (a :: mid)))
    with (rev [last (a :: mid) a] ++ rev (removelast (a :: mid))).
  rewrite <- rev_app_distr, rev_involutive.
  symmetry. apply app_removelast_last. discriminate.
Qed.

End PathFacts.

(** A name without dot is taken for an extension without name: the
    neuron type and the fit number end up in front of it. *)
Theorem check_version_build_file_path_no_dot
    (file_ neuron_type : str) (fit_number : nat) :
  ~ In "."%char file_ ->
  check_version_build_file_path file_ neuron_type fit_number
  = Ok ("_" ++ neuron_type ++ "_" ++ Str.of_nat fit_number ++ file_).
Proof.
  intros H. unfold check_version_build_file_path.
  rewrite (rpartition_no_dot _ H).
  change (Re.search "_V\d*$" []) with (Ok (@None Re.match_)).
  cbn [bind StrOps.join app]. now rewrite <- !app_assoc.
Qed.

Lemma check_version_build_file_path_no_dot_witness :
  check_version_build_file_path "model" "D1" 3 = Ok ("_D1_3model" : str).
Proof.
  apply (check_version_build_file_path_no_dot "model" "D1" 3).
  intros H. repeat (destruct H as [H|H]; [discriminate H|]). exact H.
Defined.

(** The neuron type and the fit number go before the last dot of the
    name, wherever that dot is, when what stands before it has no
    version. *)
Theorem check_version_build_file_path_unversioned
    (stem ext neuron_type : str) (fit_number : nat) :
  ~ In "."%char ext -> ~ In Str.newline stem ->
  (forall s ds, Forall (fun c => Str.is_digit c = true) ds ->
                stem <> s ++ "_V" ++ ds) ->
  check_version_build_file_path (stem ++ "." ++ ext) neuron_type fit_number
  = Ok (stem ++ "_" ++ neuron_type ++ "_" ++ Str.of_nat fit_number ++
        "." ++ ext).
Proof.
  intros Hext Hnl H. unfold check_version_build_file_path.
  rewrite (rpartition_last_dot _ _ Hext).
  unfold Re.search. rewrite compile_version_end. cbn [bind].
  rewrite search_compiled_nowhere.
  - cbn [StrOps.join]. now rewrite <- !app_assoc.
  - intros u v E.
    destruct (Re.match_at _ _) as [[rest g]|] eqn:Hm; [exfalso|reflexivity].
    apply version_end_inv in Hm as [ds [-> [Hds He]]].
    apply at_end_inv in He as [->| ->].
    + rewrite app_nil_r in E. now apply (H u ds Hds).
    + apply Hnl. rewrite E. rewrite !app_assoc. apply in_elt.
Qed.

Lemma check_version_build_file_path_unversioned_witness :
  check_version_build_file_path "dir.d/model_V1" "D1" 3
  = Ok ("dir_D1_3.d/model_V1" : str).
Proof.
  apply (check_version_build_file_path_unversioned "dir" "d/model_V1" "D1" 3).
  - intros H. repeat (destruct H as [H|H]; [discriminate H|]). exact H.
  - intros H. repeat (destruct H as [H|H]; [discriminate H|]). exact H.
  - intros s ds _ E.
    assert (Hin : In "_"%char ("dir" : str)).
    { rewrite E. apply in_or_app. right. now left. }
    repeat (destruct Hin as [Hin|Hin]; [discriminate Hin|]). exact Hin.
Defined.

(** A version before the last dot is kept and moved behind the neuron
    type and the fit number; what is left of the name has lost, at both
    ends, every character that occurs in [_V<digits>], and is the name
    before the version only if its ends are not such characters. *)
Theorem check_version_build_file_path_versioned
    (base digits ext neuron_type : str) (fit_number : nat) :
  Forall (fun c => Str.is_digit c = true) digits -> ~ In "."%char ext ->
  check_version_build_file_path (base ++ "_V" ++ digits ++ "." ++ ext)
    neuron_type fit_number
  = Ok (StrOps.strip (base ++ "_V" ++ digits) ("_V" ++ digits) ++
        "_" ++ neuron_type ++ "_" ++ Str.of_nat fit_number ++
        "_V" ++ digits ++ "." ++ ext)
  /\ (forall a mid,
        base = a :: mid ->
        StrOps.mem a ("_V" ++ digits) = false ->
        StrOps.mem (last base a) ("_V" ++ digits) = false ->
        StrOps.strip (base ++ "_V" ++ digits) ("_V" ++ digits) = base).
Proof.
  intros Hd Hext. split.
  - unfold check_version_build_file_path.
    replace (base ++ "_V" ++ digits ++ "." ++ ext)
      with ((base ++ "_V" ++ digits) ++ "." ++ ext)
      by (now rewrite <- !app_assoc).
    rewrite (rpartition_last_dot _ _ Hext).
    unfold Re.search. rewrite compile_version_end, compile_version_group.
    cbn [bind].
    destruct (Re.search_compiled _ _) as [m|] eqn:Hs.
    + rewrite (version_group_found base digits Hd).
      unfold Re.group. cbn [Re.groups Re.group1 bind StrOps.join].
      now rewrite <- !app_assoc.
    + exfalso. revert Hs. apply search_compiled_finds.
      now apply version_end_matches.
  - intros a mid -> Ha Hl. apply strip_clean; [exact Ha|exact Hl|].
    apply Forall_forall. intros c Hin. unfold StrOps.mem.
    apply existsb_exists. exists c. split; [exact Hin|apply Ascii.eqb_refl].
Qed.

Lemma check_version_build_file_path_versioned_witness :
  check_version_build_file_path "D1_V1.py" "D1" 3 = Ok ("D_D1_3_V1.py" : str).
Proof.
  apply (check_version_build_file_path_versioned "D1" "1" "py" "D1" 3).
  - repeat constructor.
  - intros H. repeat (destruct H as [H|H]; [discriminate H|]). exact H.
Defined.

Section NeverRaises.

Import Re Pattern.

Lemma star_fails_alike (A B : Type) (a : atom) (s : str)
    (k1 : str -> option A) (k2 : str -> option B) :
  (forall t, k1 t = None <-> k2 t = None) ->
  (star a s k1 = None <-> star a s k2 = None).
Proof.
  intros Hk. induction s as [|c s IH]; cbn [star]; [apply Hk|].
  destruct (atom_matches a c); [|apply Hk].
  destruct (star a s k1), (star a s k2).
  - split; discriminate.
  - exfalso. assert (E : Some a0 = None) by now apply IH. discriminate E.
  - exfalso. assert (E : Some b = None) by now apply IH. discriminate E.
  - apply Hk.
Qed.

(** The two version patterns match at the same places. *)
Lemma version_patterns_alike (t : str) :
  match_at (lit_items "_V" ++ [Piece (Many Digit); Eos]) t = None <->
  match_at (lit_items "_" ++ [Group [One (Lit "V"); Many Digit]; Eos]) t
  = None.
Proof.
  unfold match_at.
  destruct t as [|c t]; [now split|].
  cbn [lit_items list_ascii_of_string map app match_items match_pieces
       match_piece atom_matches].
  destruct (Ascii.eqb c "_"); [|now split].
  destruct t as [|v t]; [now split|].
  destruct (Ascii.eqb v "V"); [|now split].
  apply star_fails_alike. intros s. cbn [match_items].
  now destruct (at_end s).
Qed.

Lemma search_fails_alike (r1 r2 : regex) (s : str) :
  (forall t, match_at r1 t = None <-> match_at r2 t = None) ->
  (search_compiled r1 s = None <-> search_compiled r2 s = None).
Proof.
  intros H. induction s as [|c s IH].
  - rewrite (search_compiled_eq r1 []), (search_compiled_eq r2 []).
    specialize (H []).
    destruct (match_at r1 []) as [[u g]|], (match_at r2 []) as [[u' g']|].
    + split; discriminate.
    + exfalso. assert (E : Some (u, g) = None) by now apply H. discriminate E.
    + exfalso. assert (E : Some (u', g') = None) by now apply H.
      discriminate E.
    + now split.
  - rewrite (search_compiled_eq r1 (c :: s)), (search_compiled_eq r2 (c :: s)).
    specialize (H (c :: s)).
    destruct (match_at r1 (c :: s)) as [[u g]|],
             (match_at r2 (c :: s)) as [[u' g']|].
    + split; discriminate.
    + exfalso. assert (E : Some (u, g) = None) by now apply H. discriminate E.
    + exfalso. assert (E : Some (u', g') = None) by now apply H.
      discriminate E.
    + destruct (search_compiled r1 s) as [m1|],
               (search_compiled r2 s) as [m2|]; unfold option_map.
      * split; discriminate.
      * exfalso. assert (E : Some m1 = None) by now apply IH. discriminate E.
      * exfalso. assert (E : Some m2 = None) by now apply IH. discriminate E.
      * now split.
Qed.

(** What the search returns is a match somewhere. *)
Lemma search_compiled_inv (r : regex) (s : str) (m : match_) :
  search_compiled r s = Some m ->
  exists t, match_at r t = Some (after m, group1 m).
Proof.
  revert m. induction s as [|c s IH]; intros m; rewrite search_compiled_eq.
  - destruct (match_at r []) as [[rest g]|] eqn:E; [|discriminate].
    intros [= <-]. now exists [].
  - destruct (match_at r (c :: s)) as [[rest g]|] eqn:E.
    + intros [= <-]. now exists (c :: s).
    + destruct (search_compiled r s) as [m'|]; [|discriminate].
      intros [= <-]. cbn [shift after group1]. now apply IH.
Qed.

End NeverRaises.

(** Whatever the name, a name comes back: the second search finds the
    version the first has found, and its group. *)
Theorem check_version_build_file_path_returns
    (file_ neuron_type : str) (fit_number : nat) :
  exists name,
    check_version_build_file_path file_ neuron_type fit_number = Ok name.
Proof.
  unfold check_version_build_file_path.
  destruct (StrOps.rpartition file_ ".") as [[abs_file_name sep] extn].
  unfold Re.search. rewrite compile_version_end, compile_version_group.
  cbn [bind].
  destruct (Re.search_compiled _ abs_file_name) as [m1|] eqn:H1;
    [|eexists; reflexivity].
  destruct (Re.search_compiled
              (Pattern.lit_items "_" ++
               [Re.Group [Re.One (Re.Lit "V"); Re.Many Re.Digit]; Re.Eos])
              abs_file_name) as [m|] eqn:H2.
  - unfold Re.group. rewrite (search_compiled_groups _ _ _ H2).
    cbn [Re.has_group Pattern.lit_items map app existsb
         list_ascii_of_string orb bind].
    apply search_compiled_inv in H2 as [t Ht].
    apply version_group_inv in Ht as [ds [_ [_ [_ ->]]]].
    eexists. reflexivity.
  - exfalso.
    apply (search_fails_alike _ _ abs_file_name version_patterns_alike) in H2.
    rewrite H1 in H2. discriminate H2.
Qed.

(** * [find_best] and [fit_sort] together *)

(** The candidate that [find_best] returns scores as the head of the list
    that [fit_sort] returns: neither is below the other, whatever the
    sorting routine behind [argsort]. *)
Theorem find_best_heads_fit_sort :
  forall (candidate measurement : Type)
         (fitness : candidate -> measurement -> float) (meas : measurement)
         (argsort : list float -> list nat) (group : list candidate),
    group <> [] ->
    Np.is_argsort (Np.nan_to_inf (score_all fitness group meas))
                  (argsort (Np.nan_to_inf (score_all fitness group meas))) ->
    exists best first rest,
      find_best group meas fitness = Ok best /\
      fit_sort_by argsort group meas fitness = first :: rest /\
      (sort_key fitness meas best <? sort_key fitness meas first)%float = false /\
      (sort_key fitness meas first <? sort_key fitness meas best)%float = false.
Proof.
  intros candidate measurement fitness meas argsort group Hne Hsort.
  destruct (find_best_returns_minimal candidate measurement fitness meas
              group Hne) as [best [Hbest [Hin Hmin]]].
  destruct (fit_sort_by_sorted candidate measurement fitness meas argsort
              group Hsort) as [Hperm [Hasc _]].
  destruct (fit_sort_by argsort group meas fitness) as [|first rest] eqn:E.
  { apply Permutation_nil in Hperm. contradiction. }
  exists best, first, rest. split; [exact Hbest|]. split; [reflexivity|].
  split.
  - apply (Permutation_in _ (Permutation_sym Hperm)) in Hin.
    apply In_nth_error in Hin as [j Hj].
    destruct j as [|j].
    + injection Hj as ->. apply ltb_irrefl.
    + apply (Hasc 0 (S j) first best); [lia|reflexivity|exact Hj].
  - apply Hmin. apply (Permutation_in _ Hperm). now left.
Qed.

Lemma find_best_heads_fit_sort_witness :
  exists best first rest,
    find_best [3; nan; 1; 2]%float tt (fun c _ => c) = Ok best /\
    fit_sort_by Np.argsort [3; nan; 1; 2]%float tt (fun c _ => c)
    = first :: rest /\
    (sort_key (fun c (_ : unit) => c) tt best
     <? sort_key (fun c (_ : unit) => c) tt first)%float = false /\
    (sort_key (fun c (_ : unit) => c) tt first
     <? sort_key (fun c (_ : unit) => c) tt best)%float = false.
Proof.
  apply (find_best_heads_fit_sort float unit (fun c _ => c) tt Np.argsort
           [3; nan; 1; 2]%float).
  - discriminate.
  - apply argsort_is_argsort.
Defined.

(** * The morphology rewrite, line by line *)

Section LineFacts.

Lemma lines_cons (c : ascii) (s : str) :
  Spec.lines (c :: s) =
  if Ascii.eqb c Str.newline then [] :: Spec.lines s
  else match Spec.lines s with
       | l :: ls => (c :: l) :: ls
       | [] => [[c]]
       end.
Proof. reflexivity. Qed.

Lemma lines_nonempty (s : str) : Spec.lines s <> [].
Proof.
  induction s as [|c s IH]; [discriminate|].
  rewrite lines_cons. destruct (Ascii.eqb c Str.newline); [discriminate|].
  destruct (Spec.lines s); discriminate.
Qed.

Lemma lines_no_newline (s : str) :
  Forall (fun l => ~ In Str.newline l) (Spec.lines s).
Proof.
  induction s as [|c s IH]; [repeat constructor; auto|].
  rewrite lines_cons. destruct (Ascii.eqb_spec c Str.newline) as [->|Hc].
  - constructor; [auto|exact IH].
  - destruct (Spec.lines s) as [|l ls]; [repeat constructor|].
    + intros [E|[]]. now apply Hc.
    + inversion IH as [|? ? Hl Hls]; subst. constructor; [|exact Hls].
      intros [E|Hin]; [now apply Hc|now apply Hl].
Qed.

Lemma unlines_cons (l : str) (ls : list str) :
  ls <> [] ->
  Lines.unlines (l :: ls) = l ++ Str.newline :: Lines.unlines ls.
Proof. destruct ls; [contradiction|reflexivity]. Qed.

Lemma unlines_lines (s : str) : Lines.unlines (Spec.lines s) = s.
Proof.
  induction s as [|c s IH]; [reflexivity|].
  rewrite lines_cons. destruct (Ascii.eqb_spec c Str.newline) as [->|Hc].
  - rewrite unlines_cons by apply lines_nonempty. now rewrite IH.
  - pose proof (lines_nonempty s) as Hne.
    destruct (Spec.lines s) as [|l ls]; [contradiction|].
    destruct ls as [|l2 ls].
    + cbn in IH |- *. now rewrite IH.
    + rewrite unlines_cons in IH |- * by discriminate.
      cbn [app]. now rewrite IH.
Qed.

Lemma lines_line (l : str) : ~ In Str.newline l -> Spec.lines l = [l].
Proof.
  induction l as [|c l IH]; intros H; [reflexivity|].
  rewrite lines_cons.
  destruct (Ascii.eqb_spec c Str.newline) as [->|_];
    [exfalso; apply H; now left|].
  now rewrite IH by (intros Hin; apply H; now right).
Qed.

Lemma lines_app_line (l s : str) :
  ~ In Str.newline l ->
  Spec.lines (l ++ Str.newline :: s) = l :: Spec.lines s.
Proof.
  induction l as [|c l IH]; intros H.
  - cbn [app]. rewrite lines_cons. now rewrite Ascii.eqb_refl.
  - cbn [app]. rewrite lines_cons.
    destruct (Ascii.eqb_spec c Str.newline) as [->|_];
      [exfalso; apply H; now left|].
    now rewrite IH by (intros Hin; apply H; now right).
Qed.

Lemma lines_unlines (ls : list str) :
  ls <> [] -> Forall (fun l => ~ In Str.newline l) ls ->
  Spec.lines (Lines.unlines ls) = ls.
Proof.
  induction ls as [|l ls IH]; intros Hne H; [contradiction|].
  inversion H as [|? ? Hl Hls]; subst.
  destruct ls as [|l2 ls].
  - now apply lines_line.
  - rewrite unlines_cons by discriminate.
    rewrite lines_app_line by exact Hl.
    now rewrite IH by (discriminate || exact Hls).
Qed.

End LineFacts.

Section PartitionLines.

Lemma startswith_app_l (s d x : str) :
  Str.startswith s d = true -> Str.startswith (s ++ x) d = true.
Proof.
  intros H. apply startswith_spec in H. rewrite H, <- app_assoc.
  apply startswith_app.
Qed.

Lemma skipn_startswith (s d x : str) :
  Str.startswith s d = true ->
  skipn (length d) (s ++ x) = skipn (length d) s ++ x.
Proof.
  intros H. apply startswith_spec in H.
  rewrite H at 1. rewrite <- app_assoc. now rewrite skipn_app_length.
Qed.

Lemma startswith_empty (d : str) : d <> [] -> Str.startswith [] d = false.
Proof. destruct d; [contradiction|reflexivity]. Qed.

(** The first occurrence of a directive in a text is in its first line,
    or else in the rest of the text. *)
Lemma partition_line (l U dir : str) :
  dir <> [] -> ~ In Str.newline dir ->
  Spec.partition (l ++ Str.newline :: U) dir =
  match Spec.partition l dir with
  | Some (pre, rest) => Some (pre, rest ++ Str.newline :: U)
  | None =>
      match Spec.partition U dir with
      | Some (p, r) => Some (l ++ Str.newline :: p, r)
      | None => None
      end
  end.
Proof.
  intros Hne Hnl. induction l as [|c l IH].
  - cbn [app]. rewrite partition_cons, partition_nil.
    rewrite (startswith_empty dir Hne).
    replace (Str.startswith (Str.newline :: U) dir) with false;
      [reflexivity|].
    symmetry. apply (startswith_over_newline [] dir U Hnl).
    now apply startswith_empty.
  - cbn [app]. rewrite !partition_cons.
    destruct (Str.startswith (c :: l) dir) eqn:E.
    + change (c :: l ++ Str.newline :: U) with ((c :: l) ++ Str.newline :: U).
      rewrite (startswith_app_l _ _ _ E), (skipn_startswith _ _ _ E).
      reflexivity.
    + change (c :: l ++ Str.newline :: U) with ((c :: l) ++ Str.newline :: U).
      rewrite (startswith_over_newline _ _ _ Hnl E). cbn [app].
      rewrite IH.
      destruct (Spec.partition l dir) as [[pre rest]|]; [reflexivity|].
      now destruct (Spec.partition U dir) as [[p r]|].
Qed.

Lemma line_end_line (r : str) : ~ In Str.newline r -> Spec.line_end r = [].
Proof.
  induction r as [|c r IH]; intros H; [reflexivity|].
  cbn [Spec.line_end].
  destruct (Ascii.eqb_spec c Str.newline) as [->|_];
    [exfalso; apply H; now left|].
  apply IH. intros Hin. apply H. now right.
Qed.

Lemma line_end_app (r U : str) :
  ~ In Str.newline r ->
  Spec.line_end (r ++ Str.newline :: U) = Str.newline :: U.
Proof.
  induction r as [|c r IH]; intros H.
  - cbn [app Spec.line_end]. now rewrite Ascii.eqb_refl.
  - cbn [app Spec.line_end].
    destruct (Ascii.eqb_spec c Str.newline) as [->|_];
      [exfalso; apply H; now left|].
    apply IH. intros Hin. apply H. now right.
Qed.

Lemma rewrite_first_length (dir value : str) (ls : list str) :
  length (Lines.rewrite_first dir value ls) = length ls.
Proof.
  induction ls as [|l ls IH]; [reflexivity|]. cbn [Lines.rewrite_first].
  destruct (Spec.partition l dir) as [[pre rest]|]; cbn [length]; auto.
Qed.

Lemma rewrite_first_nonempty (dir value : str) (ls : list str) :
  ls <> [] -> Lines.rewrite_first dir value ls <> [].
Proof.
  intros H E. apply (f_equal (@length str)) in E.
  rewrite rewrite_first_length in E. destruct ls; [contradiction|discriminate].
Qed.

(** The rewrite of the text is the rewrite of its lines. *)
Lemma rewrite_first_lines (dir value : str) (ls : list str) :
  dir <> [] -> ~ In Str.newline dir ->
  ls <> [] -> Forall (fun l => ~ In Str.newline l) ls ->
  match Spec.partition (Lines.unlines ls) dir with
  | Some (pre, rest) => pre ++ dir ++ value ++ Spec.line_end rest
  | None => Lines.unlines ls
  end = Lines.unlines (Lines.rewrite_first dir value ls).
Proof.
  intros Hne Hnl. induction ls as [|l ls IH]; intros Hls H; [contradiction|].
  inversion H as [|? ? Hl Hrest]; subst.
  cbn [Lines.rewrite_first].
  destruct ls as [|l2 ls].
  - change (Lines.unlines [l]) with l.
    destruct (Spec.partition l dir) as [[pre rest]|] eqn:P; [|reflexivity].
    change (Lines.unlines [pre ++ dir ++ value]) with (pre ++ dir ++ value).
    apply partition_spec in P. subst l.
    rewrite line_end_line; [now rewrite app_nil_r|].
    intros Hin. apply Hl. apply in_or_app. right. apply in_or_app. now right.
  - rewrite (unlines_cons l) by discriminate.
    rewrite (partition_line _ _ _ Hne Hnl).
    destruct (Spec.partition l dir) as [[pre rest]|] eqn:P.
    + rewrite (unlines_cons (pre ++ dir ++ value)) by discriminate.
      apply partition_spec in P. subst l.
      rewrite line_end_app; [now rewrite <- !app_assoc|].
      intros Hin. apply Hl. apply in_or_app. right. apply in_or_app. now right.
    + rewrite (unlines_cons l)
        by (apply rewrite_first_nonempty; discriminate).
      rewrite <- IH by (discriminate || exact Hrest).
      destruct (Spec.partition (Lines.unlines (l2 :: ls)) dir) as [[p r]|];
        [|reflexivity].
      now rewrite <- !app_assoc.
Qed.

End PartitionLines.

Section FrameFacts.

Lemma first_line_with_cons (d l : str) (ls : list str) :
  Spec.first_line_with d (l :: ls) =
  if Str.contains l d then Some 0
  else option_map S (Spec.first_line_with d ls).
Proof. reflexivity. Qed.

Lemma first_line_with_some (d : str) (ls : list str) (i : nat) :
  Spec.first_line_with d ls = Some i ->
  i < length ls /\ Str.contains (nth i ls []) d = true /\
  forall j, j < i -> Str.contains (nth j ls []) d = false.
Proof.
  revert i. induction ls as [|l ls IH]; intros i; [discriminate|].
  rewrite first_line_with_cons. destruct (Str.contains l d) eqn:E.
  - intros [= <-]. cbn [length nth]. repeat split; [lia|exact E|]. lia.
  - destruct (Spec.first_line_with d ls) as [k|]; [|discriminate].
    intros [= <-]. destruct (IH k eq_refl) as [Hk [Hc Hb]].
    cbn [length nth]. repeat split; [lia|exact Hc|].
    intros [|j] Hj; [exact E|]. apply Hb. lia.
Qed.

Lemma first_line_with_before (d : str) (ls : list str) (i : nat) :
  i < length ls -> Str.contains (nth i ls []) d = true ->
  exists k, Spec.first_line_with d ls = Some k /\ k <= i.
Proof.
  revert i. induction ls as [|l ls IH]; intros i Hi Hc; [cbn in Hi; lia|].
  rewrite first_line_with_cons. destruct (Str.contains l d) eqn:E.
  - exists 0. split; [reflexivity|lia].
  - destruct i as [|i]; [cbn [nth] in Hc; congruence|].
    cbn [length nth] in Hi, Hc.
    destruct (IH i) as [k [Hk Hle]]; [lia|exact Hc|].
    exists (S k). rewrite Hk. split; [reflexivity|lia].
Qed.

(** Only the first line with the directive changes. *)
Lemma rewrite_first_changes (dir value : str) (ls : list str) (i : nat) :
  nth i (Lines.rewrite_first dir value ls) [] <> nth i ls [] ->
  Spec.first_line_with dir ls = Some i.
Proof.
  revert i. induction ls as [|l ls IH]; intros i H; [now destruct i|].
  rewrite first_line_with_cons, contains_partition.
  cbn [Lines.rewrite_first] in H.
  destruct (Spec.partition l dir) as [[pre rest]|].
  - destruct i as [|i]; [reflexivity|]. now cbn [nth] in H.
  - destruct i as [|i]; [now cbn [nth] in H|].
    cbn [nth] in H. now rewrite (IH i H).
Qed.

Lemma rewrite_first_no_newline (dir value : str) (ls : list str) :
  ~ In Str.newline dir -> ~ In Str.newline value ->
  Forall (fun l => ~ In Str.newline l) ls ->
  Forall (fun l => ~ In Str.newline l) (Lines.rewrite_first dir value ls).
Proof.
  intros Hd Hv H. induction H as [|l ls Hl Hls IH]; [constructor|].
  cbn [Lines.rewrite_first].
  destruct (Spec.partition l dir) as [[pre rest]|] eqn:P.
  - constructor; [|exact Hls]. apply partition_spec in P. subst l.
    intros Hin. apply in_app_or in Hin as [Hin|Hin].
    + apply Hl. apply in_or_app. now left.
    + apply in_app_or in Hin as [Hin|Hin]; [now apply Hd|now apply Hv].
  - now constructor.
Qed.

(** One rewrite more keeps the frame: a line that differs from the source
    is the line of a first directive. *)
Lemma frame_step (src cur : list str) (D : list nat) (dir value : str) :
  length cur = length src ->
  (forall i, nth i cur [] <> nth i src [] -> In i D) ->
  (forall k, Spec.first_line_with dir src = Some k -> ~ In k D) ->
  forall i, nth i (Lines.rewrite_first dir value cur) [] <> nth i src [] ->
            In i D \/ Spec.first_line_with dir src = Some i.
Proof.
  intros Hlen Hcur Hfresh i Hi.
  destruct (list_eq_dec ascii_dec (nth i cur []) (nth i src [])) as [E|E];
    [|left; now apply Hcur].
  assert (Hch : nth i (Lines.rewrite_first dir value cur) [] <> nth i cur [])
    by congruence.
  apply rewrite_first_changes in Hch.
  apply first_line_with_some in Hch as [Hi' [Hc Hb]].
  rewrite E in Hc. rewrite Hlen in Hi'.
  destruct (first_line_with_before dir src i Hi' Hc) as [k [Hk Hle]].
  destruct (Nat.eq_dec k i) as [->|Hne]; [now right|].
  exfalso. apply (Hfresh k Hk). apply Hcur.
  apply first_line_with_some in Hk as [_ [Hck _]].
  intros Ek. rewrite <- Ek in Hck. rewrite Hb in Hck by lia. discriminate Hck.
Qed.

End FrameFacts.

Section FrameAll.

Lemma first_lines_app (src : list str) (a b : list (str * str)) :
  Spec.first_lines src (a ++ b)
  = Spec.first_lines src a ++ Spec.first_lines src b.
Proof. apply flat_map_app. Qed.

Lemma distinct_NoDup (ks : list nat) : Spec.distinct ks = true -> NoDup ks.
Proof.
  induction ks as [|k ks IH]; [constructor|]. cbn [Spec.distinct].
  intros H. apply andb_prop in H as [Hk Hks].
  constructor; [|now apply IH].
  intros Hin. apply negb_true_iff in Hk.
  assert (E : existsb (Nat.eqb k) ks = true).
  { apply existsb_exists. exists k. split; [exact Hin|apply Nat.eqb_refl]. }
  congruence.
Qed.

(** The rewrites of all the overrides keep the frame, when no two of
    their first directives share a line of the source. *)
Lemma frame_all (src : list str) (ovs : list (str * str)) :
  forall (done : list (str * str)) (cur : list str),
    length cur = length src ->
    (forall i, nth i cur [] <> nth i src [] ->
               In i (Spec.first_lines src done)) ->
    NoDup (Spec.first_lines src (done ++ ovs)) ->
    length (Lines.rewrite_all ovs cur) = length src /\
    forall i, nth i (Lines.rewrite_all ovs cur) [] <> nth i src [] ->
              In i (Spec.first_lines src (done ++ ovs)).
Proof.
  induction ovs as [|ov ovs IH]; intros done cur Hlen Hcur Hnd.
  - rewrite app_nil_r. now split.
  - cbn [Lines.rewrite_all fold_left].
    change (fold_left _ ovs ?x) with (Lines.rewrite_all ovs x).
    replace (done ++ ov :: ovs) with ((done ++ [ov]) ++ ovs) in *
      by (now rewrite <- app_assoc).
    apply IH; [now rewrite rewrite_first_length| |exact Hnd].
    intros i Hi. rewrite first_lines_app.
    apply (frame_step src cur (Spec.first_lines src done)) in Hi;
      [|exact Hlen|exact Hcur|].
    + apply in_or_app. destruct Hi as [Hi|Hi]; [now left|right].
      unfold Spec.first_lines. cbn [flat_map]. rewrite Hi. now left.
    + intros k Hk Hin.
      rewrite !first_lines_app in Hnd.
      unfold Spec.first_lines at 2 in Hnd. cbn [flat_map] in Hnd.
      rewrite Hk in Hnd. cbn [app] in Hnd. rewrite <- app_assoc in Hnd.
      cbn [app] in Hnd. apply NoDup_remove_2 in Hnd.
      apply Hnd. apply in_or_app. now left.
Qed.

Lemma directive_plain (param : str) :
  Forall (fun c => Str.is_alnum c = true) param ->
  Spec.directive param <> [] /\ ~ In Str.newline (Spec.directive param).
Proof.
  intros H. split; [discriminate|]. unfold Spec.directive. intros Hin.
  apply in_app_or in Hin as [Hin|Hin].
  { repeat (destruct Hin as [Hin|Hin]; [discriminate Hin|]). exact Hin. }
  apply in_app_or in Hin as [Hin|Hin].
  - rewrite Forall_forall in H. specialize (H _ Hin). discriminate H.
  - repeat (destruct Hin as [Hin|Hin]; [discriminate Hin|]). exact Hin.
Qed.

Lemma rewrite_first_text (param value : str) (ls : list str) :
  Forall (fun c => Str.is_alnum c = true) param ->
  ls <> [] -> Forall (fun l => ~ In Str.newline l) ls ->
  Spec.rewrite_first param (Some value) (Lines.unlines ls)
  = Lines.unlines (Lines.rewrite_first (Spec.directive param) value ls).
Proof.
  intros Hp Hne Hls. destruct (directive_plain _ Hp) as [Hd Hnl].
  unfold Spec.rewrite_first.
  apply (rewrite_first_lines _ value ls Hd Hnl Hne Hls).
Qed.

(** The rewrites of the text are the rewrites of its lines. *)
Lemma rewrite_all_lines (ovs : list (str * str)) :
  Forall Lines.plain_override ovs ->
  forall ls, ls <> [] -> Forall (fun l => ~ In Str.newline l) ls ->
    fold_left (fun t ov => Spec.rewrite_first (fst ov) (Some (snd ov)) t)
              ovs (Lines.unlines ls)
    = Lines.unlines (Lines.rewrite_all ovs ls) /\
    Lines.rewrite_all ovs ls <> [] /\
    Forall (fun l => ~ In Str.newline l) (Lines.rewrite_all ovs ls).
Proof.
  intros H. induction H as [|ov ovs [Hp [_ Hv]] _ IH]; intros ls Hne Hls.
  - now repeat split.
  - destruct (directive_plain _ Hp) as [Hd Hnl].
    unfold Lines.rewrite_all. cbn [fold_left].
    rewrite (rewrite_first_text _ _ _ Hp Hne Hls).
    apply IH.
    + now apply rewrite_first_nonempty.
    + now apply rewrite_first_no_newline.
Qed.

Lemma str_eqb_refl (s : str) : Str.eqb s s = true.
Proof.
  induction s as [|c s IH]; [reflexivity|].
  cbn [Str.eqb]. now rewrite Ascii.eqb_refl.
Qed.

End FrameAll.

Section FrameTheorem.

Lemma plain_overrides (RA RM CM : option str) :
  Forall Lines.plain_override (Spec.overrides RA RM CM) ->
  Spec.plain RA /\ Spec.plain RM /\ Spec.plain CM.
Proof.
  intros H. rewrite Forall_forall in H.
  assert (Hin : forall (p : str) v, In (p, v) (Spec.overrides RA RM CM) ->
                                   ~ In Str.backslash v).
  { intros p v Hpv. now destruct (H _ Hpv) as [_ [Hb _]]. }
  unfold Spec.overrides in Hin.
  repeat split.
  - destruct RA as [v|]; [|exact I]. apply (Hin "RA"). now left.
  - destruct RM as [v|]; [|exact I]. apply (Hin "RM").
    apply in_or_app. right. now left.
  - destruct CM as [v|]; [|exact I]. apply (Hin "CM").
    apply in_or_app. right. apply in_or_app. right. now left.
Qed.

End FrameTheorem.

(** When no two overridden parameters have their first directive on the
    same line of the source, the rewrite keeps the number of lines, and
    every line but the lines of those first directives. *)
Theorem morph_morph_file_keeps_other_lines
    (t : str) (RA RM CM : option str) :
  Forall Lines.plain_override (Spec.overrides RA RM CM) ->
  Spec.on_different_lines t RA RM CM = true ->
  exists out,
    morph_morph_file t RA RM CM = Ok out /\
    Spec.only_first_directive_lines_change t RA RM CM out = true.
Proof.
  intros Hov Hdiff.
  destruct (plain_overrides RA RM CM Hov) as [HA [HM HC]].
  rewrite (morph_rewrites_composed t RA RM CM HA HM HC).
  eexists. split; [reflexivity|].
  destruct (rewrite_all_lines _ Hov (Spec.lines t) (lines_nonempty t)
              (lines_no_newline t)) as [Hout [Hne Hnl]].
  rewrite (unlines_lines t) in Hout. rewrite Hout.
  unfold Spec.only_first_directive_lines_change. cbv zeta.
  rewrite (lines_unlines _ Hne Hnl).
  destruct (frame_all (Spec.lines t) (Spec.overrides RA RM CM) []
              (Spec.lines t) eq_refl) as [Hlen Hframe].
  { intros i Hi. now contradiction Hi. }
  { apply distinct_NoDup. exact Hdiff. }
  cbn [app] in Hframe.
  apply andb_true_intro. split; [now apply Nat.eqb_eq|].
  apply forallb_forall. intros i _.
  destruct (Str.eqb _ _) eqn:E; [reflexivity|]. cbn [orb].
  apply existsb_exists. exists i. split; [|apply Nat.eqb_refl].
  apply Hframe. intros Ei. rewrite Ei, str_eqb_refl in E. discriminate E.
Qed.

Lemma morph_morph_file_keeps_other_lines_witness :
  let t : str := "*set_global RA 1" ++ Str.newline :: "*set_global RM 3" ++
                 Str.newline :: "*set_global RM 5" in
  exists out,
    morph_morph_file t (Some ("9" : str)) (Some ("7" : str)) None = Ok out /\
    Spec.only_first_directive_lines_change
      t (Some ("9" : str)) (Some ("7" : str)) None out = true.
Proof.
  intros t.
  apply (morph_morph_file_keeps_other_lines
           t (Some ("9" : str)) (Some ("7" : str)) None).
  - assert (Hv : forall c : ascii, c <> Str.backslash -> c <> Str.newline ->
                   ~ In Str.backslash [c] /\ ~ In Str.newline [c]).
    { intros c Hb Hn. split; intros [E|[]]; [now apply Hb|now apply Hn]. }
    repeat constructor; try apply Hv; try discriminate.
  - reflexivity.
Defined.

(** * [update_morph_file_name] and file names it does not take *)

Section OtherValues.

Import Re Pattern.

(** A star fails when what follows refuses every end of the run. *)
Lemma star_none (R : Type) (a : atom) (w s : str) (k : str -> option R) :
  run a w -> stops a s ->
  (forall w1 w2, w = w1 ++ w2 -> k (w2 ++ s) = None) ->
  star a (w ++ s) k = None.
Proof.
  intros Hw Hs. induction Hw as [|c w Hc Hw IH]; intros Hk.
  - specialize (Hk [] [] eq_refl). cbn [app] in Hk |- *.
    destruct s as [|d s]; cbn [star]; [exact Hk|].
    cbn [stops] in Hs. now rewrite Hs.
  - cbn [app star]. rewrite Hc, IH.
    + apply (Hk [] (c :: w) eq_refl).
    + intros w1 w2 ->. apply (Hk (c :: w1) w2 eq_refl).
Qed.

(** After a failure at the first place where a pattern can begin, the
    search goes on behind it. *)
Lemma search_compiled_first_fails (r : regex) (key s pre rest : str) :
  begins_with r key ->
  Spec.partition s key = Some (pre, rest) ->
  match_at r (key ++ rest) = None ->
  search_compiled r (tl (key ++ rest)) = None ->
  search_compiled r s = None.
Proof.
  intros Hr Hp Hm Hl. revert pre Hp.
  induction s as [|c s IH]; intros pre; rewrite search_compiled_eq.
  - rewrite partition_nil.
    destruct (Str.startswith [] key) eqn:E; [|discriminate].
    intros [= <- <-]. apply startswith_spec in E.
    rewrite <- E in Hm. now rewrite Hm.
  - rewrite partition_cons.
    destruct (Str.startswith (c :: s) key) eqn:E.
    + intros [= <- <-]. apply startswith_spec in E.
      rewrite <- E in Hm, Hl. cbn [tl] in Hl. now rewrite Hm, Hl.
    + rewrite (Hr _ E).
      destruct (Spec.partition s key) as [[p q]|]; [|discriminate].
      intros [= <- <-]. now rewrite (IH p eq_refl).
Qed.

Lemma space_not (c d : ascii) :
  is_space c = true -> is_space d = false -> Ascii.eqb c d = false.
Proof.
  intros Hc Hd. destruct (Ascii.eqb_spec c d) as [->|]; [congruence|reflexivity].
Qed.

Lemma file_char_not_quote (c : ascii) :
  atom_matches file_chars c = true -> Ascii.eqb c "'" = false.
Proof.
  intros Hc. destruct (Ascii.eqb_spec c "'") as [->|]; [discriminate Hc|reflexivity].
Qed.

(** The pattern does not match a value that holds a character outside
    the class. *)
Lemma key_refuses (key ws1 ws2 old rest : str) (c : ascii) :
  run Space ws1 -> run Space ws2 -> run file_chars old ->
  atom_matches file_chars c = false -> c <> "'"%char ->
  match_at (lit_items key ++
            [Piece (Many Space); Piece (One (Lit ":")); Piece (Many Space);
             Piece (One (Lit "'")); Piece (Many1 file_chars);
             Piece (One (Lit "'"))])
           (key ++ ws1 ++ ":"%char :: ws2 ++ "'"%char :: old ++ c :: rest)
  = None.
Proof.
  intros H1 H2 Hold Hc Hq. unfold match_at.
  rewrite match_items_lits, startswith_app, skipn_app_length.
  cbn [match_items match_piece].
  apply star_none; [exact H1|reflexivity|].
  intros w1 [|s1 w2] E.
  2:{ cbn [app match_items match_piece atom_matches].
      rewrite space_not; [reflexivity| |reflexivity].
      unfold run in H1. rewrite Forall_forall in H1. apply H1.
      rewrite E. apply in_elt. }
  cbn [app match_items match_piece atom_matches]. rewrite Ascii.eqb_refl.
  apply star_none; [exact H2|reflexivity|].
  intros w3 [|s2 w4] E2.
  2:{ cbn [app match_items match_piece atom_matches].
      rewrite space_not; [reflexivity| |reflexivity].
      unfold run in H2. rewrite Forall_forall in H2. apply H2.
      rewrite E2. apply in_elt. }
  cbn [app match_items match_piece atom_matches]. rewrite Ascii.eqb_refl.
  destruct Hold as [|f fs Hf Hfs].
  - cbn [app]. now rewrite Hc.
  - cbn [app]. rewrite Hf.
    apply star_none; [exact Hfs|exact Hc|].
    intros w5 [|s3 w6] E3.
    + cbn [app match_items match_piece atom_matches].
      destruct (Ascii.eqb_spec c "'"); [contradiction|reflexivity].
    + cbn [app match_items match_piece atom_matches].
      rewrite file_char_not_quote; [reflexivity|].
      unfold run in Hfs. rewrite Forall_forall in Hfs. apply Hfs.
      rewrite E3. apply in_elt.
Qed.

End OtherValues.

(** A value with a character outside [[0-9a-zA-Z._-]], a path with a
    slash for one, is not taken for a file name: when the key occurs once,
    the line comes back as it is (for a new file name without
    backslash). *)
Theorem update_morph_file_name_other_value
    (line neuron_type file_name pre ws1 ws2 old rest : str) (c : ascii) :
  Forall (fun c => Str.is_alnum c = true) neuron_type ->
  ~ In Str.backslash file_name ->
  Spec.partition line ("'" ++ neuron_type ++ "'")
  = Some (pre, ws1 ++ ":" ++ ws2 ++ "'" ++ old ++ c :: rest) ->
  Forall (fun c => Re.is_space c = true) ws1 ->
  Forall (fun c => Re.is_space c = true) ws2 ->
  Forall (fun c => Re.atom_matches Pattern.file_chars c = true) old ->
  Re.atom_matches Pattern.file_chars c = false -> c <> "'"%char ->
  Str.contains (neuron_type ++ "'" ++
                ws1 ++ ":" ++ ws2 ++ "'" ++ old ++ c :: rest)
               ("'" ++ neuron_type ++ "'") = false ->
  update_morph_file_name line neuron_type file_name = Ok line.
Proof.
  intros Hnt Hfile Hp H1 H2 Hold Hc Hq Honce.
  unfold update_morph_file_name, Re.sub. rewrite (compile_key _ Hnt).
  apply (sub_compiled_absent _ _ _ _ (key_template_plain _ _ Hnt Hfile)).
  apply (search_compiled_first_fails _ _ _ _ _ (key_begins _ _) Hp).
  - apply (key_refuses ("'" ++ neuron_type ++ "'") ws1 ws2 old rest c);
      assumption.
  - apply (search_compiled_absent _ _ _ (key_begins _ _)).
    rewrite contains_partition in Honce.
    change (tl (("'" ++ neuron_type ++ "'") ++
                ws1 ++ ":" ++ ws2 ++ "'" ++ old ++ c :: rest))
      with ((neuron_type ++ "'") ++
            ws1 ++ ":" ++ ws2 ++ "'" ++ old ++ c :: rest).
    rewrite <- app_assoc.
    match type of Honce with
    | match ?p with _ => _ end = _ =>
        change (p = None); destruct p; [discriminate Honce|reflexivity]
    end.
Qed.

Lemma update_morph_file_name_other_value_witness :
  update_morph_file_name "'D1':'dir/a.p'" "D1" "b.p"
  = Ok ("'D1':'dir/a.p'" : str).
Proof.
  apply (update_morph_file_name_other_value
           "'D1':'dir/a.p'" "D1" "b.p" "" "" "" "dir" "a.p'" "/").
  - repeat constructor.
  - intros H. repeat (destruct H as [H|H]; [discriminate H|]). exact H.
  - reflexivity.
  - constructor.
  - constructor.
  - repeat constructor.
  - reflexivity.
  - discriminate.
  - reflexivity.
Defined.

(** * Rewriting twice *)

Section Stable.

Lemma startswith_long_prefix (a y z d : str) :
  length d <= length a ->
  Str.startswith (a ++ y) d = Str.startswith (a ++ z) d.
Proof.
  revert a. induction d as [|c d IH]; intros a H.
  - now rewrite !startswith_nil.
  - destruct a as [|b a]; [cbn in H; lia|].
    cbn [app]. rewrite !startswith_cons. f_equal. apply IH.
    cbn [length] in H. lia.
Qed.

Lemma partition_at_start (dir x : str) :
  Spec.partition (dir ++ x) dir = Some ([], x).
Proof.
  destruct (dir ++ x) as [|c s] eqn:E.
  - apply app_eq_nil in E as [-> ->]. reflexivity.
  - rewrite partition_cons, <- E, startswith_app.
    now rewrite skipn_app_length.
Qed.

(** The first occurrence stays the first when what follows it changes. *)
Lemma partition_prefix (s dir pre rest x : str) :
  Spec.partition s dir = Some (pre, rest) ->
  Spec.partition (pre ++ dir ++ x) dir = Some (pre, x).
Proof.
  revert pre. induction s as [|c s IH]; intros pre.
  - rewrite partition_nil.
    destruct (Str.startswith [] dir); [|discriminate].
    intros [= <- _]. exact (partition_at_start dir x).
  - rewrite partition_cons.
    destruct (Str.startswith (c :: s) dir) eqn:E.
    + intros [= <- _]. exact (partition_at_start dir x).
    + destruct (Spec.partition s dir) as [[p r]|] eqn:P; [|discriminate].
      intros [= <- ->]. cbn [app]. rewrite partition_cons.
      apply partition_spec in P. subst s.
      replace (Str.startswith (c :: p ++ dir ++ x) dir) with false.
      * now rewrite (IH p eq_refl).
      * rewrite <- E.
        change (c :: p ++ dir ++ x) with ((c :: p) ++ dir ++ x).
        change (c :: p ++ dir ++ rest) with ((c :: p) ++ dir ++ rest).
        rewrite !app_assoc. apply startswith_long_prefix.
        rewrite length_app. lia.
Qed.

Lemma line_end_skip (v y : str) :
  ~ In Str.newline v -> Spec.line_end (v ++ y) = Spec.line_end y.
Proof.
  induction v as [|c v IH]; intros H; [reflexivity|].
  cbn [app Spec.line_end].
  destruct (Ascii.eqb_spec c Str.newline) as [->|_];
    [exfalso; apply H; now left|].
  apply IH. intros Hin. apply H. now right.
Qed.

Lemma line_end_twice (s : str) :
  Spec.line_end (Spec.line_end s) = Spec.line_end s.
Proof.
  induction s as [|c s IH]; [reflexivity|]. cbn [Spec.line_end].
  destruct (Ascii.eqb c Str.newline) eqn:E; [|exact IH].
  cbn [Spec.line_end]. now rewrite E.
Qed.

(** Rewriting the first directive again with the same value changes
    nothing. *)
Lemma rewrite_first_twice (param value t : str) :
  ~ In Str.newline value ->
  Spec.rewrite_first param (Some value)
    (Spec.rewrite_first param (Some value) t)
  = Spec.rewrite_first param (Some value) t.
Proof.
  intros Hv. unfold Spec.rewrite_first at 2 3.
  destruct (Spec.partition t (Spec.directive param)) as [[pre rest]|] eqn:P.
  - unfold Spec.rewrite_first.
    rewrite (partition_prefix _ _ _ _ (value ++ Spec.line_end rest) P).
    now rewrite (line_end_skip _ _ Hv), line_end_twice.
  - unfold Spec.rewrite_first. now rewrite P.
Qed.

End Stable.

(** With one override, the rewrite of the rewritten text gives the
    rewritten text again. *)
Theorem morph_morph_file_single_override_stable (t value : str) :
  ~ In Str.backslash value -> ~ In Str.newline value ->
  (exists out, morph_morph_file t (Some value) None None = Ok out /\
               morph_morph_file out (Some value) None None = Ok out) /\
  (exists out, morph_morph_file t None (Some value) None = Ok out /\
               morph_morph_file out None (Some value) None = Ok out) /\
  (exists out, morph_morph_file t None None (Some value) = Ok out /\
               morph_morph_file out None None (Some value) = Ok out).
Proof.
  intros Hb Hn.
  assert (one : forall (param : str) t,
            Forall (fun c => Str.is_alnum c = true) param ->
            exists out, morph_param param (Some value) t = Ok out /\
                        morph_param param (Some value) out = Ok out).
  { intros param t' Hp. eexists. split.
    - now apply morph_param_rewrites_first.
    - rewrite (morph_param_rewrites_first _ _ _ Hp Hb).
      now rewrite rewrite_first_twice. }
  unfold morph_morph_file. cbn [morph_param bind].
  repeat split.
  - destruct (one "RA" t) as [out [H1 H2]]; [repeat constructor|].
    exists out. unfold morph_param in H1, H2 |- *. now rewrite H1, H2.
  - destruct (one "RM" t) as [out [H1 H2]]; [repeat constructor|].
    exists out. unfold morph_param in H1, H2 |- *. now rewrite H1, H2.
  - destruct (one "CM" t) as [out [H1 H2]]; [repeat constructor|].
    exists out. unfold morph_param in H1, H2 |- *. now rewrite H1, H2.
Qed.

Lemma morph_morph_file_single_override_stable_witness :
  exists out,
    morph_morph_file "*set_global RM 0.1" None (Some ("0.25" : str)) None
    = Ok out /\
    morph_morph_file out None (Some ("0.25" : str)) None = Ok out.
Proof.
  apply (morph_morph_file_single_override_stable "*set_global RM 0.1" "0.25").
  - intros H. repeat (destruct H as [H|H]; [discriminate H|]). exact H.
  - intros H. repeat (destruct H as [H|H]; [discriminate H|]). exact H.
Defined.

(** * A replacement that is no template *)

Section TemplateErrors.

Import Re Pattern.

Lemma advance_error (s : str) (e : exn) : advance s = Error e -> e = ReError.
Proof.
  destruct s as [|c [|d s]]; cbn [advance];
    try destruct (Ascii.eqb c Str.backslash); congruence.
Qed.

Lemma alpha_not_digit (c : ascii) :
  Str.is_alpha c = true -> Str.is_digit c = false.
Proof.
  unfold Str.is_alpha, Str.is_digit. intros H.
  apply orb_true_iff in H.
  apply andb_false_iff.
  destruct H as [H|H]; apply andb_true_iff in H as [H1 H2];
    apply Nat.leb_le in H1; right; apply Nat.leb_gt; lia.
Qed.

(** A backslash before a letter that is neither an escape nor [g] ends
    the parse. *)
Lemma parse_loop_bad_escape (fuel : nat) (groups : bool) (c : ascii)
    (s : str) (acc : list part) :
  Str.is_alpha c = true -> escape c = None -> c <> "g"%char ->
  parse_loop (S fuel) groups {| next := Some (Esc c); rest := s |} acc
  = Error ReError.
Proof.
  intros Ha He Hg. cbn [parse_loop next rest].
  destruct (advance s) as [t|e] eqn:E; cbn [bind].
  - destruct (Ascii.eqb_spec c "g") as [->|_]; [contradiction|].
    destruct (Ascii.eqb_spec c "0") as [->|_]; [discriminate Ha|].
    now rewrite (alpha_not_digit _ Ha), He, Ha.
  - now rewrite (advance_error _ _ E).
Qed.

(** The characters before the first backslash are read as they are. *)
Lemma parse_loop_plain_prefix (groups : bool) (p : str) :
  forall (fuel : nat) (acc : list part) (x : str) (tx : tokenizer),
    ~ In Str.backslash p -> advance x = Ok tx ->
    exists t,
      advance (p ++ x) = Ok t /\
      parse_loop (length p + fuel) groups t acc
      = parse_loop fuel groups tx (rev (map Literal p) ++ acc).
Proof.
  induction p as [|c p IH]; intros fuel acc x tx Hp Hx.
  - exists tx. now split.
  - assert (Hc : c <> Str.backslash) by (intros ->; apply Hp; now left).
    assert (Hp' : ~ In Str.backslash p) by (intros Hin; apply Hp; now right).
    destruct (IH fuel (Literal c :: acc) x tx Hp' Hx) as [t [Ht Hloop]].
    exists {| next := Some (Chr c); rest := p ++ x |}. split.
    + cbn [app advance].
      now destruct (Ascii.eqb_spec c Str.backslash); [contradiction|].
    + cbn [length Nat.add parse_loop next rest]. rewrite Ht. cbn [bind].
      rewrite Hloop. cbn [map rev]. now rewrite <- app_assoc.
Qed.

Lemma parse_template_bad_escape (groups : bool) (p s : str) (c : ascii) :
  ~ In Str.backslash p ->
  Str.is_alpha c = true -> escape c = None -> c <> "g"%char ->
  parse_template (p ++ Str.backslash :: c :: s) groups = Error ReError.
Proof.
  intros Hp Ha He Hg. unfold parse_template.
  destruct (parse_loop_plain_prefix groups p (S (S (S (length s)))) []
              (Str.backslash :: c :: s)
              {| next := Some (Esc c); rest := s |} Hp eq_refl)
    as [t [Ht Hloop]].
  rewrite Ht. cbn [bind].
  replace (S (length (p ++ Str.backslash :: c :: s)))
    with (length p + S (S (S (length s))))
    by (rewrite length_app; cbn [length]; lia).
  rewrite Hloop. now apply parse_loop_bad_escape.
Qed.

End TemplateErrors.

(** The new file name is part of a replacement template, which is parsed
    before the line is searched: a name whose first backslash stands before
    a letter that is no escape raises, whatever the line. *)
Theorem update_morph_file_name_bad_escape_raises
    (line neuron_type pre rest : str) (c : ascii) :
  Forall (fun c => Str.is_alnum c = true) neuron_type ->
  ~ In Str.backslash pre ->
  Str.is_alpha c = true -> Re.escape c = None -> c <> "g"%char ->
  update_morph_file_name line neuron_type (pre ++ Str.backslash :: c :: rest)
  = Error ReError.
Proof.
  intros Hnt Hpre Ha He Hg.
  unfold update_morph_file_name, Re.sub. rewrite (compile_key _ Hnt).
  unfold Re.sub_compiled.
  replace ("'" ++ neuron_type ++ "':'" ++
           (pre ++ Str.backslash :: c :: rest) ++ "'")
    with (("'" ++ neuron_type ++ "':'" ++ pre) ++
          Str.backslash :: c :: (rest ++ "'")).
  - rewrite parse_template_bad_escape; [reflexivity| |assumption..].
    intros Hin. apply (key_template_plain _ _ Hnt Hpre).
    do 3 (apply in_app_or in Hin as [Hin|Hin];
          [apply in_or_app; now left|apply in_or_app; right]).
    apply in_or_app. now left.
  - repeat (progress (rewrite <- ?app_assoc; cbn [app])). reflexivity.
Qed.

Lemma update_morph_file_name_bad_escape_raises_witness :
  update_morph_file_name "'D2':'a.p'" "D1" "C:\models\a.p" = Error ReError.
Proof.
  apply (update_morph_file_name_bad_escape_raises
           "'D2':'a.p'" "D1" "C:" "odels\a.p" "m").
  - repeat constructor.
  - intros H. repeat (destruct H as [H|H]; [discriminate H|]). exact H.
  - reflexivity.
  - reflexivity.
  - discriminate.
Defined.

(** * The claims on the file helpers *)

(** C5 (evaluation).  The first two steps of the round trip hold for a
    [.py] name, and an unversioned [.p] name gets its first version; a
    versioned [.p] name raises, because the pattern of that branch has no
    group for [group(1)] to return. *)
Theorem get_file_name_with_version_round_trip :
  get_file_name_with_version "model.py" = Ok ("model_V1.py" : str) /\
  get_file_name_with_version "model_V1.py" = Ok ("model_V2.py" : str) /\
  get_file_name_with_version "morph.p" = Ok ("morph_V1.p" : str) /\
  get_file_name_with_version "morph_V1.p" = Error IndexError.
Proof. repeat split; vm_compute; reflexivity. Qed.




(** C8 (counterexample).  The white space around the colon does not
    stay. *)
Lemma update_morph_file_name_drops_spaces :
  update_morph_file_name "'D1' : 'a.p'" "D1" "b.p" = Ok ("'D1':'b.p'" : str) /\
  ("'D1':'b.p'" : str) <> ("'D1' : 'b.p'" : str).
Proof. split; [vm_compute; reflexivity | discriminate]. Qed.

(** C8 (amended).  When the first occurrence of the quoted key in the line
    is followed by optional white space, a colon, optional white space and
    a quoted value (not empty, over [[0-9a-zA-Z._-]]), the key does not
    occur again after that pair, and the new file name has no backslash,
    the pair is replaced by ['key':'file_name']: the text before and after
    the pair stays, the white space around the colon goes, so that the
    line is the source with the value alone rewritten exactly when there
    was no such white space. *)
Theorem update_morph_file_name_replaces_pair
    (line neuron_type file_name pre ws1 ws2 old post : str) :
  Forall (fun c => Str.is_alnum c = true) neuron_type ->
  ~ In Str.backslash file_name ->
  Spec.partition line ("'" ++ neuron_type ++ "'")
  = Some (pre, ws1 ++ ":" ++ ws2 ++ "'" ++ old ++ "'" ++ post) ->
  Forall (fun c => Re.is_space c = true) ws1 ->
  Forall (fun c => Re.is_space c = true) ws2 ->
  old <> [] ->
  Forall (fun c => Re.atom_matches Pattern.file_chars c = true) old ->
  Str.contains post ("'" ++ neuron_type ++ "'") = false ->
  update_morph_file_name line neuron_type file_name
  = Ok (pre ++ "'" ++ neuron_type ++ "':'" ++ file_name ++ "'" ++ post) /\
  (pre ++ "'" ++ neuron_type ++ "':'" ++ file_name ++ "'" ++ post
   = pre ++ "'" ++ neuron_type ++ "'" ++
     ws1 ++ ":" ++ ws2 ++ "'" ++ file_name ++ "'" ++ post
   <-> ws1 = [] /\ ws2 = []).
Proof.
  intros Hnt Hfile Hp H1 H2 Hne Hold Hpost. split.
  - unfold update_morph_file_name, Re.sub. rewrite (compile_key _ Hnt).
    pose proof (key_matches ("'" ++ neuron_type ++ "'") ws1 ws2 old post
                  H1 H2 Hne Hold) as Hm.
    pose proof (search_compiled_first _ _ _ _ _ _ _ (key_begins _ _) Hp Hm)
      as Hs.
    rewrite (sub_compiled_single _ _ _ _
               (key_template_plain _ _ Hnt Hfile) Hs).
    + cbn [Re.before Re.after]. now rewrite <- !app_assoc.
    + cbn [Re.text].
      replace (("'" ++ neuron_type ++ "'") ++
               ws1 ++ ":" ++ ws2 ++ "'" ++ old ++ "'" ++ post)
        with (("'"%char :: neuron_type ++ "'" ++
               ws1 ++ ":" ++ ws2 ++ "'" ++ old ++ "'") ++ post).
      * rewrite consumed_app. discriminate.
      * cbn [app list_ascii_of_string].
        repeat (progress (rewrite <- ?app_assoc; cbn [app])). reflexivity.
    + cbn [Re.after]. apply (search_compiled_absent _ _ _ (key_begins _ _)).
      rewrite contains_partition in Hpost.
      now destruct (Spec.partition post ("'" ++ neuron_type ++ "'")).
  - split.
    + intros E. apply (f_equal (@length ascii)) in E.
      repeat (rewrite ?length_app in E; cbn [length list_ascii_of_string] in E).
      split; apply length_zero_iff_nil; lia.
    + intros [-> ->]. reflexivity.
Qed.

Lemma update_morph_file_name_replaces_pair_witness :
  update_morph_file_name "x'D1' :'a.p'y" "D1" "b.p"
  = Ok ("x'D1':'b.p'y" : str).
Proof.
  refine (proj1 (update_morph_file_name_replaces_pair
                   "x'D1' :'a.p'y" "D1" "b.p" "x" " " "" "a.p" "y"
                   _ _ _ _ _ _ _ _)).
  - repeat constructor.
  - intros H. repeat (destruct H as [H|H]; [discriminate H|]). exact H.
  - reflexivity.
  - repeat constructor.
  - repeat constructor.
  - discriminate.
  - repeat constructor.
  - reflexivity.
Defined.


